(** * matchms: filter pipeline, peak matcher and Hungarian cosine score

    A shallow embedding of

    - [matchms/filtering/SpectrumProcessor.py]   (module [Processor]),
    - [matchms/filtering/metadata_processing/derive_smiles_from_inchi.py]
      (module [DeriveSmiles]),
    - [matchms/similarity/CosineHungarian.py]    (module [Cosine]),

    together with the properties of the specification that concern them.

    Conventions.  Python exceptions are values of [exn]; a computation that
    may raise returns a [result].  Floating point numbers are modelled by
    exact rationals [Q]: rounding is not modelled, division by zero is.
    Peak indices and list positions are [nat]. *)

From Stdlib Require Import QArith Qabs Lqa Lia Ascii String.
From stdpp Require Import gmap strings list fin_maps sorting.

Local Open Scope string_scope.
Local Open Scope list_scope.

(** ** Python exceptions and fallible computations *)

Inductive exn : Type :=
| ValueError (msg : string)
| KeyError (key : string)
| TypeError (msg : string)
| AssertionError (msg : string)
| IndexError (msg : string).

Inductive result (A : Type) : Type :=
| Ok (a : A)
| Raise (e : exn).

Arguments Ok {A} a.
Arguments Raise {A} e.

Definition rbind {A B} (c : result A) (k : A -> result B) : result B :=
  match c with
  | Ok a => k a
  | Raise e => Raise e
  end.

Notation "x <- c ;; k" := (rbind c (fun x => k))
  (at level 100, c at next level, right associativity).

(** [for x in xs: acc = f(acc, x)] where the body may raise. *)
Fixpoint rfold {A B} (f : B -> A -> result B) (xs : list A) (acc : B)
  : result B :=
  match xs with
  | [] => Ok acc
  | x :: rest => acc' <- f acc x ;; rfold f rest acc'
  end.

(** [[f(x) for x in xs]] where [f] may raise. *)
Fixpoint rmap {A B} (f : A -> result B) (xs : list A) : result (list B) :=
  match xs with
  | [] => Ok []
  | x :: rest => y <- f x ;; ys <- rmap f rest ;; Ok (y :: ys)
  end.

(** [list.index(x)]: position of the first element equal to [x];
    raises [ValueError] when there is none. *)
Fixpoint index_from {A} (eqb : A -> A -> bool) (x : A) (l : list A) (i : nat)
  : result nat :=
  match l with
  | [] => Raise (ValueError "x is not in list")
  | y :: rest => if eqb y x then Ok i else index_from eqb x rest (S i)
  end.

Definition list_index {A} (eqb : A -> A -> bool) (x : A) (l : list A)
  : result nat := index_from eqb x l 0.

(** A stable sort by a natural-number key (least key first), as
    [list.sort(key=...)] is: elements with equal keys keep their order
    (the fold inserts the earlier element last, in front of its equals). *)
Fixpoint insert_by_key {A} (kx : nat * A) (l : list (nat * A))
  : list (nat * A) :=
  match l with
  | [] => [kx]
  | ky :: rest =>
      if (fst kx <=? fst ky)%nat then kx :: ky :: rest
      else ky :: insert_by_key kx rest
  end.

Definition stable_sort_keyed {A} (l : list (nat * A)) : list (nat * A) :=
  foldr insert_by_key [] l.

(** [l.sort(key=key)]: every key is computed before anything moves; when a
    key computation raises, the list is left as it was. *)
Definition sort_by_key {A} (key : A -> result nat) (l : list A)
  : result (list A) :=
  keys <- rmap key l ;;
  Ok (map snd (stable_sort_keyed (combine keys l))).

(** * SpectrumProcessor.py *)

Module Processor.

(** The filter functions imported by [from matchms.filtering import *] and
    listed in [ALL_FILTERS].  Their bodies are not part of this file; what
    the pipeline engine uses of them is their identity, their [__name__]
    and the fact that they can be called on a spectrum. *)
Inductive filter_fn : Type :=
| make_charge_int | add_compound_name | derive_adduct_from_name
| derive_formula_from_name | clean_compound_name | interpret_pepmass
| add_precursor_mz | add_retention_index | add_retention_time
| derive_ionmode | correct_charge | require_precursor_mz | add_parent_mass
| harmonize_undefined_inchikey | harmonize_undefined_inchi
| harmonize_undefined_smiles | repair_inchi_inchikey_smiles
| repair_parent_mass_match_smiles_wrapper | require_correct_ionmode
| require_precursor_below_mz | require_parent_mass_match_smiles
| require_valid_annotation | normalize_intensities | select_by_intensity
| select_by_mz | select_by_relative_intensity
| remove_peaks_around_precursor_mz | remove_peaks_outside_top_k
| require_minimum_number_of_peaks | require_minimum_of_high_peaks
| add_fingerprint | add_losses.

#[export] Instance filter_fn_eq_dec : EqDecision filter_fn.
Proof. solve_decision. Defined.

(** [x.__name__] *)
Definition fn_name (f : filter_fn) : string :=
  match f with
  | make_charge_int => "make_charge_int"
  | add_compound_name => "add_compound_name"
  | derive_adduct_from_name => "derive_adduct_from_name"
  | derive_formula_from_name => "derive_formula_from_name"
  | clean_compound_name => "clean_compound_name"
  | interpret_pepmass => "interpret_pepmass"
  | add_precursor_mz => "add_precursor_mz"
  | add_retention_index => "add_retention_index"
  | add_retention_time => "add_retention_time"
  | derive_ionmode => "derive_ionmode"
  | correct_charge => "correct_charge"
  | require_precursor_mz => "require_precursor_mz"
  | add_parent_mass => "add_parent_mass"
  | harmonize_undefined_inchikey => "harmonize_undefined_inchikey"
  | harmonize_undefined_inchi => "harmonize_undefined_inchi"
  | harmonize_undefined_smiles => "harmonize_undefined_smiles"
  | repair_inchi_inchikey_smiles => "repair_inchi_inchikey_smiles"
  | repair_parent_mass_match_smiles_wrapper =>
      "repair_parent_mass_match_smiles_wrapper"
  | require_correct_ionmode => "require_correct_ionmode"
  | require_precursor_below_mz => "require_precursor_below_mz"
  | require_parent_mass_match_smiles => "require_parent_mass_match_smiles"
  | require_valid_annotation => "require_valid_annotation"
  | normalize_intensities => "normalize_intensities"
  | select_by_intensity => "select_by_intensity"
  | select_by_mz => "select_by_mz"
  | select_by_relative_intensity => "select_by_relative_intensity"
  | remove_peaks_around_precursor_mz => "remove_peaks_around_precursor_mz"
  | remove_peaks_outside_top_k => "remove_peaks_outside_top_k"
  | require_minimum_number_of_peaks => "require_minimum_number_of_peaks"
  | require_minimum_of_high_peaks => "require_minimum_of_high_peaks"
  | add_fingerprint => "add_fingerprint"
  | add_losses => "add_losses"
  end.

(** Keyword arguments bound to a filter: a [dict] from names to numbers. *)
Abbreviation kwargs := (gmap string Q).

(** What [self.filters] holds: a library function itself, or the
    [lambda spectrum: filter_func(spectrum, **filter_args)] built by
    [add_filter] for a tuple spec. *)
Inductive callable : Type :=
| Func (f : filter_fn)
| Lambda (f : filter_fn) (filter_args : kwargs).

(** [==] on function objects is identity.  A lambda is a fresh object:
    it is identical to no library function, and the code never compares
    two lambdas with each other. *)
Definition callable_eqb (a b : callable) : bool :=
  match a, b with
  | Func f, Func g => bool_decide (f = g)
  | _, _ => false
  end.

(** List all filters in a functionally working order *)
Definition ALL_FILTERS : list callable :=
  map Func
  [ make_charge_int;
    add_compound_name;
    derive_adduct_from_name;
    derive_formula_from_name;
    clean_compound_name;
    interpret_pepmass;
    add_precursor_mz;
    add_retention_index;
    add_retention_time;
    derive_ionmode;
    correct_charge;
    derive_adduct_from_name;   (* run again *)
    derive_formula_from_name;  (* run again *)
    require_precursor_mz;
    add_parent_mass;
    harmonize_undefined_inchikey;
    harmonize_undefined_inchi;
    harmonize_undefined_smiles;
    repair_inchi_inchikey_smiles;
    repair_parent_mass_match_smiles_wrapper;
    require_correct_ionmode;
    require_precursor_below_mz;
    require_parent_mass_match_smiles;
    require_valid_annotation;
    normalize_intensities;
    select_by_intensity;
    select_by_mz;
    select_by_relative_intensity;
    remove_peaks_around_precursor_mz;
    remove_peaks_outside_top_k;
    require_minimum_number_of_peaks;
    require_minimum_of_high_peaks;
    add_fingerprint;
    add_losses ].

(** [{x.__name__: x for x in ALL_FILTERS}]: a later entry with the same
    name overwrites an earlier one. *)
Definition FILTER_FUNCTIONS : gmap string callable :=
  foldl (fun d x =>
           match x with
           | Func f => <[fn_name f := x]> d
           | Lambda _ _ => d
           end) ∅ ALL_FILTERS.

Definition MINIMAL_FILTERS : list string :=
  [ "make_charge_int"; "interpret_pepmass"; "derive_ionmode";
    "correct_charge" ].

Definition BASIC_FILTERS : list string :=
  MINIMAL_FILTERS
  ++ [ "derive_adduct_from_name"; "derive_formula_from_name";
       "clean_compound_name"; "interpret_pepmass"; "add_precursor_mz" ].

Definition DEFAULT_FILTERS : list string :=
  BASIC_FILTERS
  ++ [ "require_precursor_mz"; "add_parent_mass";
       "harmonize_undefined_inchikey"; "harmonize_undefined_inchi";
       "harmonize_undefined_smiles"; "repair_inchi_inchikey_smiles";
       "repair_parent_mass_match_smiles_wrapper"; "require_correct_ionmode";
       "normalize_intensities" ].

Definition FULLY_ANNOTATED_PROCESSING : list string :=
  DEFAULT_FILTERS
  ++ [ "require_parent_mass_match_smiles"; "require_valid_annotation" ].

Definition PREDEFINED_PIPELINES : gmap string (list string) :=
  <["fully_annotated" := FULLY_ANNOTATED_PROCESSING]>
  (<["default" := DEFAULT_FILTERS]>
  (<["basic" := BASIC_FILTERS]>
  (<["minimal" := MINIMAL_FILTERS]> ∅))).

(** The argument of [add_filter]: a [str], a [tuple] (name, arguments), or
    a value of any other type. *)
Inductive filter_spec : Type :=
| SpecStr (name : string)
| SpecTuple (filter_name : string) (filter_args : kwargs)
| SpecOther.

(** [d[key]]: raises [KeyError] when the key is absent. *)
Definition dict_get {V} (d : gmap string V) (key : string) : result V :=
  match d !! key with
  | Some v => Ok v
  | None => Raise (KeyError key)
  end.

(** The instance: its only attribute is the working list [self.filters]. *)
Record SpectrumProcessor : Type := { filters : list callable }.

(** [self.filters.sort(key=lambda f: ALL_FILTERS.index(f))] *)
Definition sort_filters (fs : list callable) : result (list callable) :=
  sort_by_key (fun f => list_index callable_eqb f ALL_FILTERS) fs.

(** [add_filter].  The method mutates [self.filters] before it can raise in
    the sort, so it returns the instance as it is left in every case,
    together with [Ok tt] (it returned [self]) or the exception raised. *)
Definition add_filter (filter_spec0 : filter_spec) (self : SpectrumProcessor)
  : SpectrumProcessor * result unit :=
  let appended : result (list callable) :=
    match filter_spec0 with
    | SpecStr name =>
        filter_func <- dict_get FILTER_FUNCTIONS name ;;
        Ok (filters self ++ [filter_func])
    | SpecTuple filter_name filter_args =>
        filter_func <- dict_get FILTER_FUNCTIONS filter_name ;;
        match filter_func with
        | Func f | Lambda f _ => Ok (filters self ++ [Lambda f filter_args])
        end
    | SpecOther =>
        Raise (TypeError "filter_spec should be a string or a tuple")
    end in
  match appended with
  | Raise e => (self, Raise e)
  | Ok fs =>
      match sort_filters fs with
      | Ok sorted => ({| filters := sorted |}, Ok tt)
      | Raise e => ({| filters := fs |}, Raise e)
      end
  end.

(** A sequence of [add_filter] calls, stopping at the first that raises. *)
Fixpoint add_filters (specs : list filter_spec) (self : SpectrumProcessor)
  : SpectrumProcessor * result unit :=
  match specs with
  | [] => (self, Ok tt)
  | s :: rest =>
      match add_filter s self with
      | (self', Ok _) => add_filters rest self'
      | (self', Raise e) => (self', Raise e)
      end
  end.

(** [SpectrumProcessor(processing_pipeline)] *)
Definition init (processing_pipeline : string) : result SpectrumProcessor :=
  match PREDEFINED_PIPELINES !! processing_pipeline with
  | None => Raise (ValueError "Unknown processing pipeline")
  | Some names =>
      match add_filters (map SpecStr names) {| filters := [] |} with
      | (self, Ok _) => Ok self
      | (_, Raise e) => Raise e
      end
  end.

Section Process.

(** Spectra and the behaviour of the library filters are parameters: a
    filter maps a spectrum (or [None]) to a spectrum or to [None], the
    rejection signal. *)
Variable Spectrum : Type.
Variable apply_filter :
  filter_fn -> kwargs -> option Spectrum -> option Spectrum.

Definition call (c : callable) (spectrum : option Spectrum)
  : option Spectrum :=
  match c with
  | Func f => apply_filter f ∅ spectrum
  | Lambda f filter_args => apply_filter f filter_args spectrum
  end.

(** The loop of [process_spectrum], instrumented: besides the final value
    of [spectrum] it returns the record of the calls made, each with the
    value it returned, in the order they were made. *)
Fixpoint process_loop (fs : list callable) (spectrum : option Spectrum)
  : option Spectrum * list (callable * option Spectrum) :=
  match fs with
  | [] => (spectrum, [])
  | filter_func :: rest =>
      let spectrum' := call filter_func spectrum in
      match spectrum' with
      | None => (None, [(filter_func, None)])
      | Some _ =>
          let (final, calls) := process_loop rest spectrum' in
          (final, (filter_func, spectrum') :: calls)
      end
  end.

Definition process_spectrum (self : SpectrumProcessor)
  (spectrum : option Spectrum) : option Spectrum :=
  fst (process_loop (filters self) spectrum).

Definition calls_made (self : SpectrumProcessor)
  (spectrum : option Spectrum) : list (callable * option Spectrum) :=
  snd (process_loop (filters self) spectrum).

End Process.

End Processor.

(** * derive_smiles_from_inchi.py *)

Module DeriveSmiles.

(** Modelled from the spec: the [Spectrum] class ([matchms/Spectrum.py]) is
    not among the sources.  Following the data model of the specification a
    spectrum is a sequence of (position, intensity) peaks plus a mapping of
    string keys to metadata values; [clone] makes an independent copy,
    [get] reads a key ([None] when absent) and [set] writes one key. *)
Record Spectrum : Type := {
  peaks : list (Q * Q);
  metadata : gmap string string
}.

(** Spectra are Python objects: variables hold references into a store. *)
Abbreviation ref := positive.

Inductive log_level : Type := INFO | WARNING.

Record State : Type := {
  heap : gmap ref Spectrum;
  log : list (log_level * string * option string)
}.

(** Computations over the store.  [None] stands for the use of a reference
    that the store does not hold, which no Python program can do. *)
Definition M (A : Type) : Type := State -> option (A * State).

Definition ret {A} (a : A) : M A := fun st => Some (a, st).

Definition sbind {A B} (c : M A) (k : A -> M B) : M B :=
  fun st =>
    match c st with
    | Some (a, st') => k a st'
    | None => None
    end.

Notation "'let*' x ':=' c 'in' k" := (sbind c (fun x => k))
  (at level 10, x name, c at level 100, k at level 200).

(** [spectrum.clone()] *)
Definition clone (r : ref) : M ref :=
  fun st =>
    match heap st !! r with
    | Some s =>
        let r' := fresh (dom (heap st)) in
        Some (r', {| heap := <[r' := s]> (heap st); log := log st |})
    | None => None
    end.

(** [spectrum.get(key)] *)
Definition get (r : ref) (key : string) : M (option string) :=
  fun st =>
    match heap st !! r with
    | Some s => Some (metadata s !! key, st)
    | None => None
    end.

(** [spectrum.set(key, value)] *)
Definition set (r : ref) (key value : string) : M unit :=
  fun st =>
    match heap st !! r with
    | Some s =>
        let s' := {| peaks := peaks s;
                     metadata := <[key := value]> (metadata s) |} in
        Some (tt, {| heap := <[r := s']> (heap st); log := log st |})
    | None => None
    end.

(** [logger.info(msg, arg)] and [logger.warning(msg, arg)] *)
Definition log_msg (lvl : log_level) (msg : string) (arg : option string)
  : M unit :=
  fun st => Some (tt, {| heap := heap st; log := log st ++ [(lvl, msg, arg)] |}).

(** [str.isspace] on one character (code points below 256). *)
Definition is_space (c : ascii) : bool :=
  let n := nat_of_ascii c in
  (((9 <=? n) && (n <=? 13)) || ((28 <=? n) && (n <=? 32))
   || (n =? 133) || (n =? 160))%nat.

(** [str.rstrip()] *)
Fixpoint rstrip (s : string) : string :=
  match s with
  | EmptyString => EmptyString
  | String c rest =>
      match rstrip rest with
      | EmptyString => if is_space c then EmptyString else String c EmptyString
      | r => String c r
      end
  end.

Section Filter.

(** The helpers of [matchms.filtering.filter_utils.metadata_utils] are not
    among the sources either; they are parameters.  Each takes a metadata
    value as [get] returns it. *)
Variable is_valid_smiles : option string -> bool.
Variable is_valid_inchi : option string -> bool.
Variable convert_inchi_to_smiles : option string -> option string.

Definition derive_smiles_from_inchi (spectrum_in : option ref)
  : M (option ref) :=
  match spectrum_in with
  | None => ret None
  | Some r_in =>
      let* spectrum := clone r_in in
      let* inchi := get spectrum "inchi" in
      let* smiles := get spectrum "smiles" in
      let* _ :=
        if negb (is_valid_smiles smiles) && is_valid_inchi inchi then
          match convert_inchi_to_smiles inchi with
          | Some (String c rest as smiles') =>
              let smiles'' := rstrip smiles' in
              let* _ := set spectrum "smiles" smiles'' in
              log_msg INFO
                "Added smiles %s to metadata (was converted from InChI)"
                (Some smiles'')
          | _ =>
              log_msg WARNING "Could not convert InChI %s to smiles." inchi
          end
        else ret tt in
      ret (Some spectrum)
  end.

End Filter.

End DeriveSmiles.

(** * CosineHungarian.py *)

Module Cosine.

(** A peak array as [numpy.vstack((mz, intensities)).T] builds it: one row
    (mz, intensity) per peak.  The two arrays of a spectrum's peaks have
    the same shape, so a spectrum is given here by its rows. *)
Abbreviation array2 := (list (Q * Q)).

(** A candidate pair [(idx, match, weight)]. *)
Abbreviation pair := (nat * nat * Q)%type.

(** A two-dimensional [numpy] array of numbers, as a list of rows. *)
Abbreviation matrix := (list (list Q)).

(** The value of a division of two [numpy.float64]: division by zero does not
    raise, it yields [nan] or an infinity. *)
Inductive float : Type :=
| Finite (q : Q)
| NaN
| Inf (negative : bool).

Definition Qltb (a b : Q) : bool := negb (Qle_bool b a).

Definition np_divide (x y : Q) : float :=
  if Qeq_bool y 0 then
    if Qeq_bool x 0 then NaN else Inf (Qltb x 0)
  else Finite (x / y).

(** [max(iterable)]: the first greatest item; raises on an empty iterable. *)
Definition max_of_empty : exn := ValueError "max() arg is an empty sequence".

Definition py_max (xs : list Q) : result Q :=
  match xs with
  | [] => Raise max_of_empty
  | x :: rest => Ok (foldl (fun m y => if Qltb m y then y else m) x rest)
  end.

(** [max(a, b)] *)
Definition py_max2 (a b : Q) : Q := if Qltb a b then b else a.

(** [.sum()] *)
Definition Qsum (xs : list Q) : Q := foldr Qplus 0%Q xs.

(** [numpy.sum(spec[:, 1]**2)] *)
Definition sum_squares (spec : array2) : Q :=
  Qsum (map (fun row => (snd row * snd row)%Q) spec).

(** [spec[i]]; every use below is at an index of the array. *)
Definition row (spec : array2) (i : nat) : Q * Q := nth i spec (0%Q, 0%Q).

(** [numpy.where(mask)[0]]: the positions that hold [True], ascending. *)
Fixpoint where_true (mask : list bool) (j : nat) : list nat :=
  match mask with
  | [] => []
  | b :: rest =>
      if b then j :: where_true rest (S j) else where_true rest (S j)
  end.

Definition find_pairs_numba (spec1 spec2 : array2) (tolerance shift : Q)
  : list pair :=
  flat_map
    (fun idx =>
       let intensity := snd (row spec1 idx) in
       let matches :=
         where_true
           (map (fun r2 =>
                   Qle_bool (Qabs (fst r2 - fst (row spec1 idx) + shift))
                            tolerance)
                spec2) 0 in
       map (fun match_ =>
              (idx, match_, (intensity * snd (row spec2 match_))%Q))
           matches)
    (seq 0 (length spec1)).

(** [sorted(matching_pairs, key=lambda x: x[2], reverse=True)]: greatest
    weight first, pairs of equal weight in their original order. *)
Fixpoint insert_desc (x : pair) (l : list pair) : list pair :=
  match l with
  | [] => [x]
  | y :: rest =>
      if Qle_bool (snd y) (snd x) then x :: y :: rest
      else y :: insert_desc x rest
  end.

Definition sorted_by_weight_desc (l : list pair) : list pair :=
  foldr insert_desc [] l.

(** The messages of the two [assert] statements. *)
Definition spectrum1_not_normalized : string :=
  "Input spectrum1 is not normalized. Apply 'normalize_intensities' filter first.".

Definition spectrum2_not_normalized : string :=
  "Input spectrum2 is not normalized. Apply 'normalize_intensities' filter first.".

Definition get_peaks_arrays (spectrum1 spectrum2 : array2)
  : result (array2 * array2) :=
  let spec1 := spectrum1 in
  let spec2 := spectrum2 in
  m1 <- py_max (map snd spec1) ;;
  if Qle_bool m1 1 then
    (m2 <- py_max (map snd spec2) ;;
     if Qle_bool m2 1 then Ok (spec1, spec2)
     else Raise (AssertionError spectrum2_not_normalized))
  else Raise (AssertionError spectrum1_not_normalized).

Definition get_matching_pairs (spec1 spec2 : array2) (tolerance : Q)
  : list pair :=
  let matching_pairs := find_pairs_numba spec1 spec2 tolerance 0 in
  sorted_by_weight_desc matching_pairs.

(** [numpy.ones((n, k))] *)
Definition ones (n k : nat) : matrix := replicate n (replicate k 1%Q).

(** [matrix[i, j]]: raises [IndexError] outside the array. *)
Definition getitem (m : matrix) (i j : nat) : result Q :=
  match m !! i with
  | Some r =>
      match r !! j with
      | Some v => Ok v
      | None => Raise (IndexError "index is out of bounds for axis 1")
      end
  | None => Raise (IndexError "index is out of bounds for axis 0")
  end.

(** [matrix[i, j] = v]: raises [IndexError] outside the array. *)
Definition setitem (m : matrix) (i j : nat) (v : Q) : result matrix :=
  match m !! i with
  | Some r =>
      if (j <? length r)%nat then Ok (<[i := <[j := v]> r]> m)
      else Raise (IndexError "index is out of bounds for axis 1")
  | None => Raise (IndexError "index is out of bounds for axis 0")
  end.

(** [l[i]] on a Python list. *)
Definition list_getitem (l : list nat) (i : nat) : result nat :=
  match l !! i with
  | Some v => Ok v
  | None => Raise (IndexError "list index out of range")
  end.

(** [matrix[row_ind, col_ind]]: the two index arrays must have one shape. *)
Definition getitems (m : matrix) (row_ind col_ind : list nat)
  : result (list Q) :=
  if (length row_ind =? length col_ind)%nat then
    rmap (fun xy => getitem m (fst xy) (snd xy)) (combine row_ind col_ind)
  else Raise (IndexError "shape mismatch: indexing arrays could not be broadcast").

(** ** What the code takes from its runtime

    Two things the scorer calls are not part of the repository: the
    iteration order of a Python [set] and [scipy]'s
    [linear_sum_assignment].  Both enter as an interface with the part of
    their documented behaviour that the scorer relies on: a set lists each
    of its elements once, in some order; the solver returns an assignment
    of least total cost. *)

(** The number of rows and the common length of the rows. *)
Definition shape (m : matrix) (n k : nat) : Prop :=
  length m = n /\ Forall (fun r => length r = k) m.

(** The entry at a cell, [0] outside the array. *)
Definition entry (m : matrix) (i j : nat) : Q := nth j (nth i m []) 0%Q.

(** [cost_matrix[row_ind, col_ind].sum()] *)
Definition assignment_cost (m : matrix) (row_ind col_ind : list nat) : Q :=
  Qsum (map (fun xy => entry m (fst xy) (snd xy)) (combine row_ind col_ind)).

(** A complete assignment of an [n] by [k] problem: [min n k] cells, no two
    in one row, no two in one column. *)
Definition is_assignment (n k : nat) (row_ind col_ind : list nat) : Prop :=
  length row_ind = Nat.min n k /\ length col_ind = Nat.min n k /\
  NoDup row_ind /\ NoDup col_ind /\
  Forall (fun i => i < n)%nat row_ind /\ Forall (fun j => j < k)%nat col_ind.

Class Runtime : Type := {
  (** [list(s)] for the set [s] of the elements of a list *)
  set_to_list : list nat -> list nat;
  set_to_list_NoDup : forall l, NoDup (set_to_list l);
  set_to_list_elem : forall l x, x ∈ set_to_list l <-> x ∈ l;
  (** [scipy.optimize.linear_sum_assignment] *)
  linear_sum_assignment : matrix -> list nat * list nat;
  linear_sum_assignment_valid :
    forall m n k, shape m n k ->
      is_assignment n k (fst (linear_sum_assignment m))
                        (snd (linear_sum_assignment m));
  linear_sum_assignment_optimal :
    forall m n k row_ind col_ind, shape m n k ->
      is_assignment n k row_ind col_ind ->
      (assignment_cost m (fst (linear_sum_assignment m))
                         (snd (linear_sum_assignment m))
       <= assignment_cost m row_ind col_ind)%Q
}.

Section Scorer.

Context `{Runtime}.

(** The loop that writes [1 - weight] at the cell of every candidate. *)
Definition fill_matrix (list1 list2 : list nat) (matching_pairs : list pair)
  (matrix0 : matrix) : result matrix :=
  rfold (fun mtx (match_ : pair) =>
           i <- list_index Nat.eqb (fst (fst match_)) list1 ;;
           j <- list_index Nat.eqb (snd (fst match_)) list2 ;;
           setitem mtx i j (1 - snd match_)%Q)
        matching_pairs matrix0.

(** The solved problem: what the branch [len(matching_pairs) > 0] of
    [calc_score] has computed when it reaches the normalization. *)
Record solved : Type := {
  list1 : list nat;
  list2 : list nat;
  cost_matrix : matrix;
  row_ind : list nat;
  col_ind : list nat;
  total_cost : Q;
  used_matches : list (nat * nat)
}.

Definition solve (matching_pairs : list pair) : result solved :=
  let l1 := set_to_list (map (fun x => fst (fst x)) matching_pairs) in
  let l2 := set_to_list (map (fun x => snd (fst x)) matching_pairs) in
  let matrix_size := (length l1, length l2) in
  let mtx := ones (fst matrix_size) (snd matrix_size) in
  mtx <- fill_matrix l1 l2 matching_pairs mtx ;;
  (* Use hungarian agorithm to solve the linear sum assignment problem *)
  let rc := linear_sum_assignment mtx in
  costs <- getitems mtx (fst rc) (snd rc) ;;
  used <- rmap (fun xy =>
                  a <- list_getitem l1 (fst xy) ;;
                  b <- list_getitem l2 (snd xy) ;;
                  Ok (a, b))
               (combine (fst rc) (snd rc)) ;;
  Ok {| list1 := l1; list2 := l2; cost_matrix := mtx;
        row_ind := fst rc; col_ind := snd rc;
        total_cost := Qsum costs; used_matches := used |}.

(** [len(row_ind) - matrix[row_ind, col_ind].sum()] *)
Definition total_gain (s : solved) : Q :=
  (inject_Z (Z.of_nat (length (row_ind s))) - total_cost s)%Q.

Definition calc_score (spec1 spec2 : array2) (matching_pairs : list pair)
  : result (float * nat) :=
  if (0 <? length matching_pairs)%nat then
    s <- solve matching_pairs ;;
    let score := total_gain s in
    (* Normalize score: *)
    let score :=
      np_divide score (py_max2 (sum_squares spec1) (sum_squares spec2)) in
    Ok (score, length (used_matches s))
  else
    Ok (Finite 0, length (@nil (nat * nat))).

(** [CosineHungarian(tolerance)(spectrum1, spectrum2)] *)
Definition cosine_hungarian (tolerance : Q) (spectrum1 spectrum2 : array2)
  : result (float * nat) :=
  specs <- get_peaks_arrays spectrum1 spectrum2 ;;
  let matching_pairs := get_matching_pairs (fst specs) (snd specs) tolerance in
  calc_score (fst specs) (snd specs) matching_pairs.

End Scorer.

(** ** An exact solver and a set order, to run the scorer

    [assignments rows cols t] lists every way to give [t] of the rows, taken
    in their order, distinct columns.  The solver returns the first listed
    assignment of least cost. *)
Fixpoint assignments (rows cols : list nat) (t : nat)
  : list (list (nat * nat)) :=
  match rows with
  | [] => match t with O => [[]] | S _ => [] end
  | r :: rest =>
      match t with
      | O => [[]]
      | S t' =>
          flat_map (fun c =>
                      map (cons (r, c))
                          (assignments rest
                             (List.filter (fun c' => negb (c' =? c)%nat) cols)
                             t'))
                   cols
          ++ assignments rest cols t
      end
  end.

Definition cells_cost (m : matrix) (cells : list (nat * nat)) : Q :=
  Qsum (map (fun xy => entry m (fst xy) (snd xy)) cells).

Fixpoint argmin (m : matrix) (best : list (nat * nat))
  (cands : list (list (nat * nat))) : list (nat * nat) :=
  match cands with
  | [] => best
  | c :: rest =>
      if Qltb (cells_cost m c) (cells_cost m best) then argmin m c rest
      else argmin m best rest
  end.

Definition exact_assignment (m : matrix) : list nat * list nat :=
  let n := length m in
  let k := length (nth 0 m []) in
  match assignments (seq 0 n) (seq 0 k) (Nat.min n k) with
  | [] => ([], [])
  | c :: rest => let best := argmin m c rest in (map fst best, map snd best)
  end.

(** The distinct elements of a list in ascending order, which is the order
    CPython lists a set of small non-negative integers in. *)
Definition ascending_set (l : list nat) : list nat :=
  List.filter (fun x => existsb (Nat.eqb x) l)
              (seq 0 (S (foldr Nat.max 0%nat l))).

End Cosine.

(** * Properties *)

(** ** Fallible loops and the stable sort *)

Lemma rmap_Ok_Forall2 {A B} (f : A -> result B) (xs : list A) (ys : list B) :
  rmap f xs = Ok ys <-> Forall2 (fun x y => f x = Ok y) xs ys.
Proof.
  revert ys. induction xs as [|x xs IH]; intros ys; simpl.
  - split.
    + intros [= <-]. constructor.
    + intros Hf. inversion Hf. reflexivity.
  - destruct (f x) as [y|e] eqn:Hfx; simpl.
    + destruct (rmap f xs) as [ys'|e] eqn:Hxs; simpl.
      * split.
        -- intros [= <-]. constructor; [assumption | by apply IH].
        -- intros Hf. inversion Hf as [|? y0 ? ys0 Hy Hys]; subst.
           apply IH in Hys. congruence.
      * split; [discriminate|].
        intros Hf. inversion Hf as [|? y0 ? ys0 Hy Hys]; subst.
        apply IH in Hys. discriminate.
    + split; [discriminate|].
      intros Hf. inversion Hf as [|? y0 ? ys0 Hy Hys]; subst. congruence.
Qed.

Lemma rmap_total {A B} (f : A -> result B) (xs : list A) :
  Forall (fun x => exists y, f x = Ok y) xs -> exists ys, rmap f xs = Ok ys.
Proof.
  induction 1 as [|x xs [y Hy] _ [ys Hys]]; simpl.
  - by exists [].
  - exists (y :: ys). by rewrite Hy; simpl; rewrite Hys.
Qed.

Lemma rmap_raise_elem {A B} (f : A -> result B) (xs : list A) (x : A) e :
  In x xs -> f x = Raise e -> exists e', rmap f xs = Raise e'.
Proof.
  induction xs as [|a xs IH]; simpl; [tauto|].
  intros [->|Hin] Hx.
  - rewrite Hx. by exists e.
  - destruct (f a); simpl; [|eauto].
    destruct (IH Hin Hx) as [e' ->]. by exists e'.
Qed.

Lemma insert_by_key_perm {A} (kx : nat * A) (l : list (nat * A)) :
  insert_by_key kx l ≡ₚ kx :: l.
Proof.
  induction l as [|ky l IH]; simpl; [done|].
  destruct (fst kx <=? fst ky)%nat; [done|].
  rewrite IH. apply perm_swap.
Qed.

Lemma stable_sort_keyed_perm {A} (l : list (nat * A)) :
  stable_sort_keyed l ≡ₚ l.
Proof.
  induction l as [|kx l IH]; simpl; [done|].
  unfold stable_sort_keyed in *; simpl.
  by rewrite insert_by_key_perm, IH.
Qed.

Definition key_le {A} (a b : nat * A) : Prop := (fst a <= fst b)%nat.

Lemma insert_by_key_sorted {A} (kx : nat * A) (l : list (nat * A)) :
  Sorted key_le l -> Sorted key_le (insert_by_key kx l).
Proof.
  induction 1 as [|ky l Hs IH Hhd]; simpl.
  - by repeat constructor.
  - destruct (fst kx <=? fst ky)%nat eqn:Hle.
    + apply Nat.leb_le in Hle. by repeat constructor.
    + apply Nat.leb_gt in Hle. constructor; [done|].
      destruct l as [|kz l]; simpl in *.
      * constructor. unfold key_le. lia.
      * destruct (fst kx <=? fst kz)%nat.
        -- constructor. unfold key_le. lia.
        -- inversion Hhd; subst. by constructor.
Qed.

Lemma stable_sort_keyed_sorted {A} (l : list (nat * A)) :
  Sorted key_le (stable_sort_keyed l).
Proof.
  induction l as [|kx l IH]; simpl; [constructor|].
  by apply insert_by_key_sorted.
Qed.

(** A sort whose keys are all defined returns a permutation of the list, in
    ascending key order. *)
Lemma sort_by_key_spec {A} (key : A -> result nat) (l l' : list A) :
  sort_by_key key l = Ok l' ->
  l' ≡ₚ l /\
  exists keys, Forall2 (fun x k => key x = Ok k) l' keys /\ Sorted le keys.
Proof.
  unfold sort_by_key. destruct (rmap key l) as [keys|e] eqn:Hk; [|discriminate].
  simpl. intros [= <-].
  apply rmap_Ok_Forall2 in Hk.
  pose proof (stable_sort_keyed_perm (combine keys l)) as Hperm.
  pose proof (stable_sort_keyed_sorted (combine keys l)) as Hsorted.
  assert (Hall : Forall (fun kx => key (snd kx) = Ok (fst kx))
                        (stable_sort_keyed (combine keys l))).
  { rewrite Hperm. clear -Hk. induction Hk; simpl; constructor; auto. }
  split.
  - rewrite Hperm. clear -Hk.
    induction Hk; simpl; [done|]. by constructor.
  - exists (map fst (stable_sort_keyed (combine keys l))). split.
    + clear -Hall. induction Hall; simpl; constructor; auto.
    + clear -Hsorted. induction Hsorted as [|kx s Hs IH Hhd]; simpl.
      * constructor.
      * constructor; [done|]. destruct Hhd; simpl; constructor. done.
Qed.

Lemma sort_by_key_total {A} (key : A -> result nat) (l : list A) :
  Forall (fun x => exists k, key x = Ok k) l ->
  exists l', sort_by_key key l = Ok l'.
Proof.
  intros Hl. destruct (rmap_total key l Hl) as [keys Hk].
  unfold sort_by_key. rewrite Hk. simpl. eauto.
Qed.

(** ** The pipeline engine *)

Module ProcessorProps.

Import Processor.

(** A working list is in canonical order when the positions that
    [ALL_FILTERS.index] gives its entries are defined and ascending. *)
Definition canonically_sorted (fs : list callable) : Prop :=
  exists keys,
    Forall2 (fun c k => list_index callable_eqb c ALL_FILTERS = Ok k) fs keys
    /\ Sorted le keys.

(** Every entry is one of the library functions. *)
Definition all_funcs (fs : list callable) : Prop :=
  Forall (fun c => exists f, c = Func f) fs.

(** The functions that a list of names denotes. *)
Definition named (names : list string) : list callable :=
  omap (fun n => FILTER_FUNCTIONS !! n) names.

Definition registered (name : string) : Prop :=
  is_Some (FILTER_FUNCTIONS !! name).

Section Engine.

Context {Spectrum : Type}.
Variable apply_filter :
  filter_fn -> kwargs -> option Spectrum -> option Spectrum.

Local Abbreviation loop := (process_loop Spectrum apply_filter).

Lemma process_loop_calls (fs : list callable) (spectrum : option Spectrum) :
  map fst (snd (loop fs spectrum))
  = take (length (snd (loop fs spectrum))) fs.
Proof.
  revert spectrum. induction fs as [|f fs IH]; intros spectrum; simpl; [done|].
  destruct (call Spectrum apply_filter f spectrum) as [s'|] eqn:Hc; [|done].
  specialize (IH (Some s')).
  destruct (loop fs (Some s')) as [final calls]. simpl in *. by f_equal.
Qed.

Lemma process_loop_rejected (fs : list callable) (spectrum : option Spectrum)
  (k : nat) (f : callable) :
  snd (loop fs spectrum) !! k = Some (f, None) ->
  fst (loop fs spectrum) = None /\ length (snd (loop fs spectrum)) = S k.
Proof.
  revert spectrum k. induction fs as [|g fs IH]; intros spectrum k; simpl.
  - intros Hk. by rewrite lookup_nil in Hk.
  - destruct (call Spectrum apply_filter g spectrum) as [s'|] eqn:Hc.
    + specialize (IH (Some s')).
      destruct (loop fs (Some s')) as [final calls]. simpl in *.
      destruct k as [|k]; simpl; [intros [=]|].
      intros Hk. destruct (IH k Hk) as [-> ->]. done.
    + simpl. destruct k as [|k]; simpl; [done|].
      intros Hk. by rewrite lookup_nil in Hk.
Qed.

(** C4.  In a run of [process_spectrum], if the call at position [k] (the
    filter at position [k] of the working list, in execution order)
    returned the rejection signal [None], then [process_spectrum] returns
    [None] and exactly the filters at positions [0..k] were called: none
    after position [k]. *)
Theorem process_spectrum_short_circuit (self : SpectrumProcessor)
  (spectrum : option Spectrum) (k : nat) (f : callable) :
  calls_made Spectrum apply_filter self spectrum !! k = Some (f, None) ->
  process_spectrum Spectrum apply_filter self spectrum = None /\
  length (calls_made Spectrum apply_filter self spectrum) = S k /\
  map fst (calls_made Spectrum apply_filter self spectrum)
  = take (S k) (filters self).
Proof.
  unfold calls_made, process_spectrum. intros Hk.
  destruct (process_loop_rejected _ _ _ _ Hk) as [Hnone Hlen].
  repeat split; [done..|].
  rewrite <- Hlen. apply process_loop_calls.
Qed.

(** When no call rejects, every filter of the working list is called. *)
Lemma process_loop_all_called (fs : list callable)
  (spectrum : option Spectrum) :
  Forall (fun c => snd c <> None) (snd (loop fs spectrum)) ->
  map fst (snd (loop fs spectrum)) = fs.
Proof.
  revert spectrum. induction fs as [|g fs IH]; intros spectrum; simpl; [done|].
  destruct (call Spectrum apply_filter g spectrum) as [s'|] eqn:Hc.
  - specialize (IH (Some s')).
    destruct (loop fs (Some s')) as [final calls]. simpl in *.
    intros Hall. inversion Hall; subst. f_equal. auto.
  - simpl. intros Hall. inversion Hall; subst. simpl in *. congruence.
Qed.

End Engine.

(** Stand-ins for the library filters, with integers for spectra:
    [interpret_pepmass] rejects a negative value, every other filter passes
    its argument on. *)
Definition demo_filter (f : filter_fn) (_ : kwargs) (s : option Z)
  : option Z :=
  match f, s with
  | interpret_pepmass, Some z => if (z <? 0)%Z then None else Some z
  | _, _ => s
  end.

Definition demo_processor : SpectrumProcessor :=
  {| filters := [Func make_charge_int; Func interpret_pepmass;
                 Func derive_ionmode; Func correct_charge] |}.

Lemma process_spectrum_short_circuit_witness :
  calls_made Z demo_filter demo_processor (Some (-1)%Z) !! 1%nat
  = Some (Func interpret_pepmass, None) /\
  process_spectrum Z demo_filter demo_processor (Some (-1)%Z) = None /\
  length (calls_made Z demo_filter demo_processor (Some (-1)%Z)) = 2%nat /\
  map fst (calls_made Z demo_filter demo_processor (Some (-1)%Z))
  = take 2 (filters demo_processor).
Proof.
  split; [reflexivity|].
  apply (process_spectrum_short_circuit demo_filter demo_processor
           (Some (-1)%Z) 1 (Func interpret_pepmass)).
  reflexivity.
Defined.

(** *** The registry *)

Lemma FILTER_FUNCTIONS_funcs (name : string) (c : callable) :
  FILTER_FUNCTIONS !! name = Some c -> exists f, c = Func f.
Proof.
  unfold FILTER_FUNCTIONS.
  assert (Hgen : forall (l : list callable) (d : gmap string callable),
             (forall k v, d !! k = Some v -> exists f, v = Func f) ->
             forall k v,
               foldl (fun d x => match x with
                                 | Func f => <[fn_name f := x]> d
                                 | Lambda _ _ => d
                                 end) d l !! k = Some v ->
               exists f, v = Func f).
  { induction l as [|x l IH]; intros d Hd k v; simpl; [by apply Hd|].
    apply IH. destruct x as [f|f a]; [|done].
    intros k' v'. rewrite lookup_insert. case_decide; [|by apply Hd].
    intros [= <-]. eauto. }
  apply Hgen. intros k v. by rewrite lookup_empty.
Qed.

Lemma index_of_func (f : filter_fn) :
  exists i, list_index callable_eqb (Func f) ALL_FILTERS = Ok i.
Proof. destruct f; vm_compute; eauto. Qed.

Lemma index_of_lambda (f : filter_fn) (a : kwargs) :
  list_index callable_eqb (Lambda f a) ALL_FILTERS
  = Raise (ValueError "x is not in list").
Proof. reflexivity. Qed.

Lemma index_injective (f g : filter_fn) (i : nat) :
  list_index callable_eqb (Func f) ALL_FILTERS = Ok i ->
  list_index callable_eqb (Func g) ALL_FILTERS = Ok i ->
  f = g.
Proof. destruct f; destruct g; vm_compute; congruence. Qed.

(** *** Adding filters by name *)

Lemma sort_filters_funcs (fs : list callable) :
  all_funcs fs ->
  exists fs', sort_filters fs = Ok fs' /\ fs' ≡ₚ fs /\
              all_funcs fs' /\ canonically_sorted fs'.
Proof.
  intros Hfs. unfold sort_filters.
  destruct (sort_by_key_total
              (fun f => list_index callable_eqb f ALL_FILTERS) fs) as [fs' Hs].
  { eapply Forall_impl; [exact Hfs|]. intros c [f ->]. apply index_of_func. }
  exists fs'. destruct (sort_by_key_spec _ _ _ Hs) as [Hperm Hkeys].
  repeat split; [done..| |done].
  unfold all_funcs. by rewrite Hperm.
Qed.

Lemma add_filter_str (name : string) (c : callable) (self : SpectrumProcessor) :
  FILTER_FUNCTIONS !! name = Some c ->
  all_funcs (filters self) ->
  exists self',
    add_filter (SpecStr name) self = (self', Ok tt) /\
    filters self' ≡ₚ filters self ++ [c] /\
    all_funcs (filters self') /\ canonically_sorted (filters self').
Proof.
  intros Hname Hself. unfold add_filter, dict_get. rewrite Hname. simpl.
  destruct (sort_filters_funcs (filters self ++ [c])) as (fs' & -> & ? & ? & ?).
  { apply Forall_app. split; [done|]. constructor; [|constructor].
    by eapply FILTER_FUNCTIONS_funcs. }
  by exists {| filters := fs' |}.
Qed.

Lemma add_filters_str (names : list string) (self : SpectrumProcessor) :
  Forall registered names ->
  all_funcs (filters self) -> canonically_sorted (filters self) ->
  exists self',
    add_filters (map SpecStr names) self = (self', Ok tt) /\
    filters self' ≡ₚ filters self ++ named names /\
    all_funcs (filters self') /\ canonically_sorted (filters self').
Proof.
  intros Hnames. revert self.
  induction Hnames as [|name names [c Hc] _ IH]; intros self Hfuncs Hsorted.
  - exists self. simpl. rewrite app_nil_r. done.
  - destruct (add_filter_str name c self Hc Hfuncs) as (s1 & Hadd & Hp1 & Hf1 & Hs1).
    destruct (IH s1 Hf1 Hs1) as (s2 & Hadds & Hp2 & Hf2 & Hs2).
    exists s2. cbn [add_filters map]. rewrite Hadd. split; [done|].
    split; [|done].
    rewrite Hp2, Hp1. unfold named. cbn [omap list_omap]. rewrite Hc.
    by rewrite <- app_assoc.
Qed.

Lemma presets_registered (preset : string) (names : list string) :
  PREDEFINED_PIPELINES !! preset = Some names -> Forall registered names.
Proof.
  unfold PREDEFINED_PIPELINES. intros Hp.
  apply lookup_insert_Some in Hp as [[_ <-]|[_ Hp]];
    [|apply lookup_insert_Some in Hp as [[_ <-]|[_ Hp]];
      [|apply lookup_insert_Some in Hp as [[_ <-]|[_ Hp]];
        [|apply lookup_insert_Some in Hp as [[_ <-]|[_ Hp]];
          [|by rewrite lookup_empty in Hp]]]];
    repeat (constructor; [vm_compute; eauto|]); constructor.
Qed.

(** Two working lists of library functions with the same entries, both in
    canonical order, are the same list. *)
Lemma canonically_sorted_unique (fs gs : list callable) :
  all_funcs fs -> fs ≡ₚ gs ->
  canonically_sorted fs -> canonically_sorted gs -> fs = gs.
Proof.
  intros Hfs Hperm [kf [Hkf Hsf]] [kg [Hkg Hsg]].
  set (pos := fun c => match list_index callable_eqb c ALL_FILTERS with
                       | Ok i => i
                       | Raise _ => 0%nat
                       end).
  assert (Hmap : forall l ks,
             Forall2 (fun c k => list_index callable_eqb c ALL_FILTERS = Ok k)
                     l ks -> ks = map pos l).
  { induction 1 as [|c k l ks Hck _ IH]; simpl; [done|].
    f_equal; [|done]. unfold pos. by rewrite Hck. }
  apply Hmap in Hkf, Hkg. subst kf kg.
  assert (Hkeys : map pos fs = map pos gs).
  { apply (Sorted_unique le); [done..|]. by rewrite Hperm. }
  assert (Hgs : all_funcs gs) by (unfold all_funcs; by rewrite <- Hperm).
  clear Hperm Hsf Hsg Hmap. revert gs Hkeys Hgs.
  induction Hfs as [|c fs [f ->] _ IH]; intros [|d gs]; simpl; try done.
  intros [= Hpos Hrest] Hgs. inversion Hgs as [|? ? [g ->] Hgs']; subst.
  f_equal; [|by apply IH].
  destruct (index_of_func f) as [i Hi]. destruct (index_of_func g) as [j Hj].
  unfold pos in Hpos. rewrite Hi, Hj in Hpos. subst j.
  f_equal. by eapply index_injective.
Qed.

(** Registering the same names in two different orders gives the same
    working list. *)
Lemma add_filters_order_independent (names1 names2 : list string)
  (self : SpectrumProcessor) :
  names1 ≡ₚ names2 -> Forall registered names1 ->
  all_funcs (filters self) -> canonically_sorted (filters self) ->
  exists self',
    add_filters (map SpecStr names1) self = (self', Ok tt) /\
    add_filters (map SpecStr names2) self = (self', Ok tt).
Proof.
  intros Hperm Hreg Hf Hs.
  assert (Hreg2 : Forall registered names2) by by rewrite <- Hperm.
  destruct (add_filters_str names1 self Hreg Hf Hs) as ([fs1] & H1 & Hp1 & Hf1 & Hs1).
  destruct (add_filters_str names2 self Hreg2 Hf Hs) as ([fs2] & H2 & Hp2 & Hf2 & Hs2).
  simpl in *. exists {| filters := fs1 |}. split; [done|].
  rewrite H2. do 2 f_equal. symmetry.
  apply canonically_sorted_unique; [done| |done..].
  rewrite Hp1, Hp2. unfold named. by rewrite Hperm.
Qed.

(** *** Tuple specs *)

(** [add_filter] never returns for a (name, arguments) pair: the name is
    unknown, or the sort raises because the lambda just appended has no
    position in [ALL_FILTERS]. *)
Lemma add_filter_tuple_raises (filter_name : string) (filter_args : kwargs)
  (self : SpectrumProcessor) :
  exists self' e,
    add_filter (SpecTuple filter_name filter_args) self = (self', Raise e).
Proof.
  unfold add_filter, dict_get.
  destruct (FILTER_FUNCTIONS !! filter_name) as [c|]; simpl; [|eauto].
  assert (Hsort : forall f, exists e,
             sort_filters (filters self ++ [Lambda f filter_args]) = Raise e).
  { intros f. unfold sort_filters, sort_by_key.
    destruct (rmap_raise_elem
                (fun c => list_index callable_eqb c ALL_FILTERS)
                (filters self ++ [Lambda f filter_args])
                (Lambda f filter_args) (ValueError "x is not in list"))
      as [e ->]; [apply in_or_app; right; by left | reflexivity |].
    simpl. eauto. }
  destruct c as [f|f a]; destruct (Hsort f) as [e ->]; eauto.
Qed.

(** C5.  The claim covers (name, arguments) pairs; the code does not: at
    the input [SpectrumProcessor('minimal').add_filter(('normalize_intensities', {}))]
    the call raises [ValueError] out of the sort, leaving the lambda appended
    at the end of the working list. *)
Theorem add_filter_tuple_spec_fails :
  exists p,
    init "minimal" = Ok p /\
    add_filter (SpecTuple "normalize_intensities" ∅) p
    = ({| filters := filters p ++ [Lambda normalize_intensities ∅] |},
       Raise (ValueError "x is not in list")).
Proof. eexists. split; vm_compute; reflexivity. Qed.

(** *** The working list after construction *)

(** C8, as stated, fails: the preset 'basic' names [interpret_pepmass]
    twice and the constructor keeps both entries. *)
Lemma basic_pipeline_not_deduplicated :
  ~ (forall preset p, init preset = Ok p -> NoDup (filters p)).
Proof.
  intros Hclaim.
  assert (Hbasic : exists p, init "basic" = Ok p /\
            filters p !! 4%nat = Some (Func interpret_pepmass) /\
            filters p !! 5%nat = Some (Func interpret_pepmass)).
  { eexists. repeat split; vm_compute; reflexivity. }
  destruct Hbasic as (p & Hinit & H4 & H5).
  pose proof (Hclaim _ _ Hinit) as Hnodup.
  rewrite NoDup_alt in Hnodup.
  specialize (Hnodup _ _ _ H4 H5). discriminate.
Qed.

(** C8, amended.  After the constructor for a preset and any sequence of
    [add_filter] calls with registered bare names, every call has
    returned, the working list is sorted by position in [ALL_FILTERS], and
    it holds one entry per name given: it is a permutation of the functions
    named by the preset followed by those added. *)
Theorem pipeline_sorted_permutation (preset : string)
  (preset_names names : list string) :
  PREDEFINED_PIPELINES !! preset = Some preset_names ->
  Forall registered names ->
  exists p0 p,
    init preset = Ok p0 /\
    add_filters (map SpecStr names) p0 = (p, Ok tt) /\
    canonically_sorted (filters p) /\
    filters p ≡ₚ named (preset_names ++ names).
Proof.
  intros Hpreset Hnames.
  pose proof (presets_registered _ _ Hpreset) as Hreg.
  destruct (add_filters_str preset_names {| filters := [] |} Hreg)
    as (p0 & Hp0 & Hperm0 & Hf0 & Hs0).
  { constructor. }
  { exists []. split; constructor. }
  destruct (add_filters_str names p0 Hnames Hf0 Hs0)
    as (p & Hp & Hperm & Hf & Hs).
  exists p0, p. unfold init. rewrite Hpreset, Hp0.
  repeat split; [done..|].
  rewrite Hperm, Hperm0. unfold named. by rewrite omap_app.
Qed.

Lemma pipeline_sorted_permutation_witness :
  PREDEFINED_PIPELINES !! "basic" = Some BASIC_FILTERS /\
  Forall registered ["add_losses"; "make_charge_int"] /\
  exists p0 p,
    init "basic" = Ok p0 /\
    add_filters (map SpecStr ["add_losses"; "make_charge_int"]) p0
    = (p, Ok tt) /\
    canonically_sorted (filters p) /\
    filters p ≡ₚ named (BASIC_FILTERS ++ ["add_losses"; "make_charge_int"]).
Proof.
  assert (H1 : PREDEFINED_PIPELINES !! "basic" = Some BASIC_FILTERS)
    by (vm_compute; reflexivity).
  assert (H2 : Forall registered ["add_losses"; "make_charge_int"])
    by (repeat (constructor; [vm_compute; eauto|]); constructor).
  split; [exact H1|]. split; [exact H2|].
  apply (pipeline_sorted_permutation "basic" BASIC_FILTERS
           ["add_losses"; "make_charge_int"] H1 H2).
Defined.

(** The preset 'minimal' names four different filters: each occurs once. *)
Lemma minimal_pipeline_NoDup :
  exists p, init "minimal" = Ok p /\ NoDup (filters p).
Proof.
  eexists. split; [vm_compute; reflexivity|]. simpl.
  repeat (apply NoDup_cons; split;
          [intros Hin;
           repeat (apply elem_of_cons in Hin as [Hin|Hin]; [discriminate Hin|]);
           by apply elem_of_nil in Hin|]).
  apply NoDup_nil_2.
Qed.

(** *** Further properties of the engine *)

Lemma index_from_raise {A} (eqb : A -> A -> bool) (x : A) (l : list A)
  (i : nat) (e : exn) :
  index_from eqb x l i = Raise e -> e = ValueError "x is not in list".
Proof.
  revert i. induction l as [|y l IH]; intros i; simpl.
  - by intros [= <-].
  - destruct (eqb y x); [discriminate|]. apply IH.
Qed.

Lemma rmap_raise_same {A B} (f : A -> result B) (xs : list A) (x : A)
  (e : exn) :
  (forall y e', f y = Raise e' -> e' = e) ->
  In x xs -> f x = Raise e -> rmap f xs = Raise e.
Proof.
  intros Hsame Hin Hx. destruct (rmap_raise_elem f xs x e Hin Hx) as [e' He'].
  rewrite He'. f_equal.
  clear -Hsame He'. revert He'. induction xs as [|a xs IH]; simpl; [discriminate|].
  destruct (f a) as [b|e0] eqn:Ha; simpl.
  - destruct (rmap f xs) as [ys|e1]; simpl; [discriminate|].
    intros [= <-]. by apply IH.
  - intros [= <-]. by eapply Hsame.
Qed.

(** X1.  [add_filter] never returns for a (name, arguments) tuple.  For an
    unknown name it raises [KeyError] and leaves the working list as it
    was; for a registered name the lambda is appended and the sort raises
    [ValueError], leaving the lambda at the end of the unsorted list. *)
Theorem add_filter_tuple_outcome (filter_name : string) (filter_args : kwargs)
  (self : SpectrumProcessor) :
  match FILTER_FUNCTIONS !! filter_name with
  | None =>
      add_filter (SpecTuple filter_name filter_args) self
      = (self, Raise (KeyError filter_name))
  | Some c =>
      exists f,
        c = Func f /\
        add_filter (SpecTuple filter_name filter_args) self
        = ({| filters := filters self ++ [Lambda f filter_args] |},
           Raise (ValueError "x is not in list"))
  end.
Proof.
  destruct (FILTER_FUNCTIONS !! filter_name) as [c|] eqn:Hc.
  - destruct (FILTER_FUNCTIONS_funcs _ _ Hc) as [f ->]. exists f.
    split; [done|]. unfold add_filter, dict_get. rewrite Hc. cbn [rbind].
    unfold sort_filters, sort_by_key.
    rewrite (rmap_raise_same
               (fun c => list_index callable_eqb c ALL_FILTERS)
               (filters self ++ [Lambda f filter_args])
               (Lambda f filter_args) (ValueError "x is not in list")).
    + reflexivity.
    + intros y e' He'. by eapply index_from_raise.
    + apply in_or_app. right. by left.
    + reflexivity.
  - unfold add_filter, dict_get. by rewrite Hc.
Qed.

(** X3.  The constructor returns exactly for the four preset names; for
    any other name it raises [ValueError]. *)
Theorem init_outcome (processing_pipeline : string) :
  (In processing_pipeline ["minimal"; "basic"; "default"; "fully_annotated"]
   -> exists p, init processing_pipeline = Ok p) /\
  (~ In processing_pipeline ["minimal"; "basic"; "default"; "fully_annotated"]
   -> init processing_pipeline
      = Raise (ValueError "Unknown processing pipeline")).
Proof.
  split.
  - intros [<-|[<-|[<-|[<-|[]]]]]; eexists; vm_compute; reflexivity.
  - intros Hnot. unfold init.
    assert (Hnone : PREDEFINED_PIPELINES !! processing_pipeline = None).
    { unfold PREDEFINED_PIPELINES.
      rewrite !lookup_insert_ne; [apply lookup_empty|..];
        intros <-; apply Hnot; simpl; tauto. }
    by rewrite Hnone.
Qed.

(** X4.  Registration order does not matter for bare names: after the
    constructor for a preset, adding the same registered names in two
    different orders leaves the same working list, so [process_spectrum]
    behaves the same. *)
Theorem pipeline_order_independent (preset : string)
  (names1 names2 : list string) :
  is_Some (PREDEFINED_PIPELINES !! preset) ->
  names1 ≡ₚ names2 -> Forall registered names1 ->
  exists p0 p,
    init preset = Ok p0 /\
    add_filters (map SpecStr names1) p0 = (p, Ok tt) /\
    add_filters (map SpecStr names2) p0 = (p, Ok tt).
Proof.
  intros [preset_names Hpreset] Hperm Hreg.
  pose proof (presets_registered _ _ Hpreset) as Hreg0.
  destruct (add_filters_str preset_names {| filters := [] |} Hreg0)
    as (p0 & Hp0 & _ & Hf0 & Hs0).
  { constructor. }
  { exists []. split; constructor. }
  destruct (add_filters_order_independent names1 names2 p0 Hperm Hreg Hf0 Hs0)
    as (p & H1 & H2).
  exists p0, p. unfold init. by rewrite Hpreset, Hp0.
Qed.

Lemma pipeline_order_independent_witness :
  is_Some (PREDEFINED_PIPELINES !! "minimal") /\
  ["add_losses"; "select_by_mz"] ≡ₚ ["select_by_mz"; "add_losses"] /\
  Forall registered ["add_losses"; "select_by_mz"] /\
  exists p0 p,
    init "minimal" = Ok p0 /\
    add_filters (map SpecStr ["add_losses"; "select_by_mz"]) p0 = (p, Ok tt) /\
    add_filters (map SpecStr ["select_by_mz"; "add_losses"]) p0 = (p, Ok tt).
Proof.
  assert (H1 : is_Some (PREDEFINED_PIPELINES !! "minimal"))
    by (vm_compute; eauto).
  assert (H2 : ["add_losses"; "select_by_mz"] ≡ₚ ["select_by_mz"; "add_losses"])
    by apply perm_swap.
  assert (H3 : Forall registered ["add_losses"; "select_by_mz"])
    by (repeat (constructor; [vm_compute; eauto|]); constructor).
  do 3 (split; [assumption|]).
  exact (pipeline_order_independent "minimal" _ _ H1 H2 H3).
Defined.

Section EngineMore.

Context {Spectrum : Type}.
Variable apply_filter :
  filter_fn -> kwargs -> option Spectrum -> option Spectrum.

Lemma process_loop_survivor (fs : list callable) (spectrum : option Spectrum)
  (r : Spectrum) :
  fst (process_loop Spectrum apply_filter fs spectrum) = Some r ->
  map fst (snd (process_loop Spectrum apply_filter fs spectrum)) = fs /\
  Forall (fun c => snd c <> None)
         (snd (process_loop Spectrum apply_filter fs spectrum)) /\
  foldl (fun acc f => call Spectrum apply_filter f acc) spectrum fs = Some r.
Proof.
  revert spectrum. induction fs as [|f fs IH]; intros spectrum; simpl.
  - intros ->. by repeat split.
  - destruct (call Spectrum apply_filter f spectrum) as [s'|] eqn:Hc;
      [|discriminate].
    specialize (IH (Some s')).
    destruct (process_loop Spectrum apply_filter fs (Some s'))
      as [final calls]. simpl in *.
    intros Hfinal. destruct (IH Hfinal) as (Hcalls & Hall & Hfold).
    split; [by f_equal|]. split; [|done].
    constructor; [done|done].
Qed.

(** X5.  A spectrum comes out of [process_spectrum] only after every
    filter of the working list has been called, in order, none of them
    returning [None]; the result is the last filter's return value, each
    filter having been given the return value of the one before. *)
Theorem process_spectrum_survivor (self : SpectrumProcessor)
  (spectrum : option Spectrum) (r : Spectrum) :
  process_spectrum Spectrum apply_filter self spectrum = Some r ->
  map fst (calls_made Spectrum apply_filter self spectrum) = filters self /\
  Forall (fun c => snd c <> None)
         (calls_made Spectrum apply_filter self spectrum) /\
  foldl (fun acc f => call Spectrum apply_filter f acc) spectrum
        (filters self) = Some r.
Proof.
  unfold process_spectrum, calls_made. apply process_loop_survivor.
Qed.

(** X6.  Pipelines compose: when the filters [fs1] let a spectrum through
    as [x], running [fs1 ++ fs2] is running [fs2] on [x], and the calls
    made are those of the first run followed by those of the second. *)
Theorem process_spectrum_app (fs1 fs2 : list callable)
  (spectrum : option Spectrum) (x : Spectrum) :
  process_spectrum Spectrum apply_filter {| filters := fs1 |} spectrum
  = Some x ->
  process_spectrum Spectrum apply_filter {| filters := fs1 ++ fs2 |} spectrum
  = process_spectrum Spectrum apply_filter {| filters := fs2 |} (Some x) /\
  calls_made Spectrum apply_filter {| filters := fs1 ++ fs2 |} spectrum
  = calls_made Spectrum apply_filter {| filters := fs1 |} spectrum
    ++ calls_made Spectrum apply_filter {| filters := fs2 |} (Some x).
Proof.
  unfold process_spectrum, calls_made. cbn [filters].
  revert spectrum. induction fs1 as [|f fs1 IH]; intros spectrum; simpl.
  - by intros ->.
  - destruct (call Spectrum apply_filter f spectrum) as [s'|] eqn:Hc;
      [|discriminate].
    specialize (IH (Some s')).
    destruct (process_loop Spectrum apply_filter fs1 (Some s'))
      as [final1 calls1]. simpl in *.
    intros Hfinal. destruct (IH Hfinal) as [Hres Hcalls].
    destruct (process_loop Spectrum apply_filter (fs1 ++ fs2) (Some s'))
      as [final calls]. simpl in *. split; [done|]. by f_equal.
Qed.

End EngineMore.

Lemma process_spectrum_survivor_witness :
  process_spectrum Z demo_filter demo_processor (Some 5%Z) = Some 5%Z /\
  map fst (calls_made Z demo_filter demo_processor (Some 5%Z))
  = filters demo_processor /\
  Forall (fun c => snd c <> None)
         (calls_made Z demo_filter demo_processor (Some 5%Z)) /\
  foldl (fun acc f => call Z demo_filter f acc) (Some 5%Z)
        (filters demo_processor) = Some 5%Z.
Proof.
  assert (H1 : process_spectrum Z demo_filter demo_processor (Some 5%Z)
               = Some 5%Z) by reflexivity.
  split; [exact H1|].
  exact (process_spectrum_survivor demo_filter demo_processor (Some 5%Z) 5%Z H1).
Defined.

Lemma process_spectrum_app_witness :
  process_spectrum Z demo_filter {| filters := [Func make_charge_int] |}
                   (Some 5%Z) = Some 5%Z /\
  process_spectrum Z demo_filter
    {| filters := [Func make_charge_int] ++ [Func interpret_pepmass] |}
    (Some 5%Z)
  = process_spectrum Z demo_filter {| filters := [Func interpret_pepmass] |}
                     (Some 5%Z) /\
  calls_made Z demo_filter
    {| filters := [Func make_charge_int] ++ [Func interpret_pepmass] |}
    (Some 5%Z)
  = calls_made Z demo_filter {| filters := [Func make_charge_int] |} (Some 5%Z)
    ++ calls_made Z demo_filter {| filters := [Func interpret_pepmass] |}
                  (Some 5%Z).
Proof.
  assert (H1 : process_spectrum Z demo_filter
                 {| filters := [Func make_charge_int] |} (Some 5%Z)
               = Some 5%Z) by reflexivity.
  split; [exact H1|].
  exact (process_spectrum_app demo_filter [Func make_charge_int]
           [Func interpret_pepmass] (Some 5%Z) 5%Z H1).
Defined.
End ProcessorProps.

(** ** derive_smiles_from_inchi *)

Module DeriveSmilesProps.

Import DeriveSmiles.

Section Frame.

Variable is_valid_smiles : option string -> bool.
Variable is_valid_inchi : option string -> bool.
Variable convert_inchi_to_smiles : option string -> option string.

Lemma clone_fresh (st : State) (r : ref) (s : Spectrum) :
  heap st !! r = Some s ->
  exists r',
    clone r st = Some (r', {| heap := <[r' := s]> (heap st); log := log st |})
    /\ heap st !! r' = None /\ r' <> r.
Proof.
  intros Hr. unfold clone. rewrite Hr.
  set (r' := fresh (dom (heap st))).
  assert (Hfresh : heap st !! r' = None).
  { apply not_elem_of_dom. apply is_fresh. }
  exists r'. repeat split; [done|]. intros ->. congruence.
Qed.

Lemma get_lookup (st : State) (r : ref) (s : Spectrum) (key : string) :
  heap st !! r = Some s -> get r key st = Some (metadata s !! key, st).
Proof. intros Hr. unfold get. by rewrite Hr. Qed.

Lemma set_lookup (st : State) (r : ref) (s : Spectrum) (key value : string) :
  heap st !! r = Some s ->
  set r key value st
  = Some (tt, {| heap := <[r := {| peaks := peaks s;
                                   metadata := <[key := value]> (metadata s) |}]>
                           (heap st);
                 log := log st |}).
Proof. intros Hr. unfold set. by rewrite Hr. Qed.

(** C10.  A rejected ([None]) input is returned as [None] and the store is
    left as it was.  For an input spectrum, the filter returns a reference
    to a new spectrum; the input spectrum and every other spectrum of the
    store are unchanged; the new spectrum has the peaks of the input and
    the metadata of the input at every key but 'smiles'; and its 'smiles'
    differs from the input's only when the input's smiles is not valid and
    its inchi is valid. *)
Theorem derive_smiles_from_inchi_frame :
  (forall st,
     derive_smiles_from_inchi is_valid_smiles is_valid_inchi
       convert_inchi_to_smiles None st = Some (None, st)) /\
  (forall st r_in s_in,
     heap st !! r_in = Some s_in ->
     exists r_out s_out st',
       derive_smiles_from_inchi is_valid_smiles is_valid_inchi
         convert_inchi_to_smiles (Some r_in) st = Some (Some r_out, st') /\
       r_out <> r_in /\
       heap st !! r_out = None /\
       heap st' !! r_in = Some s_in /\
       (forall r, r <> r_out -> heap st' !! r = heap st !! r) /\
       heap st' !! r_out = Some s_out /\
       peaks s_out = peaks s_in /\
       (forall key, key <> "smiles" ->
                    metadata s_out !! key = metadata s_in !! key) /\
       (metadata s_out !! "smiles" <> metadata s_in !! "smiles" ->
        is_valid_smiles (metadata s_in !! "smiles") = false /\
        is_valid_inchi (metadata s_in !! "inchi") = true)).
Proof.
  split; [reflexivity|].
  intros st r_in s_in Hin.
  destruct (clone_fresh st r_in s_in Hin) as (r_out & Hclone & Hfresh & Hne).
  set (st1 := {| heap := <[r_out := s_in]> (heap st); log := log st |}) in *.
  assert (Hout : heap st1 !! r_out = Some s_in) by apply lookup_insert_eq.
  assert (Hother : forall r, r <> r_out -> heap st1 !! r = heap st !! r).
  { intros r Hr. unfold st1. cbn [heap]. by rewrite lookup_insert_ne. }
  assert (Hkeep : forall l,
             exists r_out' s_out st',
               Some (Some r_out, {| heap := heap st1; log := l |})
               = Some (Some r_out', st') /\
               r_out' <> r_in /\ heap st !! r_out' = None /\
               heap st' !! r_in = Some s_in /\
               (forall r, r <> r_out' -> heap st' !! r = heap st !! r) /\
               heap st' !! r_out' = Some s_out /\
               peaks s_out = peaks s_in /\
               (forall key, key <> "smiles" ->
                            metadata s_out !! key = metadata s_in !! key) /\
               (metadata s_out !! "smiles" <> metadata s_in !! "smiles" ->
                is_valid_smiles (metadata s_in !! "smiles") = false /\
                is_valid_inchi (metadata s_in !! "inchi") = true)).
  { intros l. exists r_out, s_in. eexists. split; [reflexivity|].
    cbn [heap]. repeat split; try done.
    rewrite Hother by done. done. }
  unfold derive_smiles_from_inchi, sbind. rewrite Hclone.
  rewrite !(get_lookup st1 r_out s_in) by done.
  destruct (is_valid_smiles (metadata s_in !! "smiles")) eqn:Hsm;
    cbn [negb andb].
  { (* the smiles is valid: nothing is written *)
    unfold ret. destruct st1 as [h l] eqn:Hst1. apply (Hkeep l). }
  destruct (is_valid_inchi (metadata s_in !! "inchi")) eqn:Hin'.
  2:{ unfold ret. destruct st1 as [h l] eqn:Hst1. apply (Hkeep l). }
  destruct (convert_inchi_to_smiles (metadata s_in !! "inchi"))
    as [[|c rest]|] eqn:Hconv.
  - (* the conversion returned an empty string: a warning is logged *)
    unfold log_msg, ret. apply Hkeep.
  - (* the conversion succeeded: 'smiles' is written in the clone *)
    rewrite (set_lookup st1 r_out s_in) by done.
    unfold log_msg, ret. cbn [heap log].
    eexists r_out, _, _. split; [reflexivity|].
    cbn [heap]. rewrite lookup_insert_eq.
    repeat split; try done.
    + rewrite lookup_insert_ne by done. by rewrite Hother.
    + intros r Hr. rewrite lookup_insert_ne by done. by apply Hother.
    + intros key Hkey. cbn [metadata]. by rewrite lookup_insert_ne.
  - (* the conversion returned None: a warning is logged *)
    unfold log_msg, ret. apply Hkeep.
Qed.

End Frame.

(** A store with one spectrum that has an InChI and no SMILES, and helpers
    under which every present InChI converts. *)
Definition demo_spectrum : Spectrum :=
  {| peaks := [(100 # 1, 1 # 2)];
     metadata := {[ "inchi" := "InChI=1S/CH4/h1H4" ]} |}.

Definition demo_state : State :=
  {| heap := {[ 1%positive := demo_spectrum ]}; log := [] |}.

Definition demo_valid (v : option string) : bool :=
  match v with Some _ => true | None => false end.

Definition demo_convert (v : option string) : option string :=
  match v with Some _ => Some "C  " | None => None end.

Example derive_smiles_from_inchi_demo :
  exists r st',
    derive_smiles_from_inchi demo_valid demo_valid demo_convert
                             (Some 1%positive) demo_state
    = Some (Some r, st') /\
    (heap st' !! r ≫= fun s => metadata s !! "smiles") = Some "C" /\
    heap st' !! 1%positive = Some demo_spectrum.
Proof. eexists _, _. repeat split; vm_compute; reflexivity. Qed.

Lemma derive_smiles_from_inchi_frame_witness :
  heap demo_state !! 1%positive = Some demo_spectrum /\
  exists r_out s_out st',
    derive_smiles_from_inchi demo_valid demo_valid demo_convert
                             (Some 1%positive) demo_state
    = Some (Some r_out, st') /\
    r_out <> 1%positive /\
    heap demo_state !! r_out = None /\
    heap st' !! 1%positive = Some demo_spectrum /\
    (forall r, r <> r_out -> heap st' !! r = heap demo_state !! r) /\
    heap st' !! r_out = Some s_out /\
    peaks s_out = peaks demo_spectrum /\
    (forall key, key <> "smiles" ->
                 metadata s_out !! key = metadata demo_spectrum !! key) /\
    (metadata s_out !! "smiles" <> metadata demo_spectrum !! "smiles" ->
     demo_valid (metadata demo_spectrum !! "smiles") = false /\
     demo_valid (metadata demo_spectrum !! "inchi") = true).
Proof.
  assert (H1 : heap demo_state !! 1%positive = Some demo_spectrum)
    by reflexivity.
  split; [exact H1|].
  exact (proj2 (derive_smiles_from_inchi_frame demo_valid demo_valid
                  demo_convert) demo_state 1%positive demo_spectrum H1).
Defined.

(** *** What the filter writes and logs *)

Section Outcome.

Variable is_valid_smiles : option string -> bool.
Variable is_valid_inchi : option string -> bool.
Variable convert_inchi_to_smiles : option string -> option string.

(** The filter attempts a conversion when the smiles is not valid and the
    inchi is. *)
Definition attempts (s : Spectrum) : bool :=
  negb (is_valid_smiles (metadata s !! "smiles"))
  && is_valid_inchi (metadata s !! "inchi").

(** The smiles that the filter stores, if it stores one. *)
Definition stored_smiles (s : Spectrum) : option string :=
  if attempts s then
    match convert_inchi_to_smiles (metadata s !! "inchi") with
    | Some (String c rest) => Some (rstrip (String c rest))
    | _ => None
    end
  else None.

(** The spectrum that the filter returns for the spectrum [s]. *)
Definition derived (s : Spectrum) : Spectrum :=
  match stored_smiles s with
  | Some v => {| peaks := peaks s; metadata := <["smiles" := v]> (metadata s) |}
  | None => s
  end.

(** The records that the filter logs for the spectrum [s]. *)
Definition logged (s : Spectrum) : list (log_level * string * option string) :=
  if attempts s then
    match stored_smiles s with
    | Some v =>
        [(INFO, "Added smiles %s to metadata (was converted from InChI)",
          Some v)]
    | None =>
        [(WARNING, "Could not convert InChI %s to smiles.",
          metadata s !! "inchi")]
    end
  else [].

Lemma derive_run (st : State) (r : ref) (s : Spectrum) :
  heap st !! r = Some s ->
  derive_smiles_from_inchi is_valid_smiles is_valid_inchi
    convert_inchi_to_smiles (Some r) st
  = Some (Some (fresh (dom (heap st))),
          {| heap := <[fresh (dom (heap st)) := derived s]> (heap st);
             log := log st ++ logged s |}).
Proof.
  intros Hr. unfold derive_smiles_from_inchi, sbind, clone. rewrite Hr.
  set (r' := fresh (dom (heap st))).
  set (st1 := {| heap := <[r' := s]> (heap st); log := log st |}).
  assert (Hout : heap st1 !! r' = Some s) by apply lookup_insert_eq.
  rewrite !(get_lookup st1 r' s) by done.
  unfold derived, logged, stored_smiles, attempts.
  destruct (negb (is_valid_smiles (metadata s !! "smiles"))
            && is_valid_inchi (metadata s !! "inchi")) eqn:Hatt.
  - destruct (convert_inchi_to_smiles (metadata s !! "inchi"))
      as [[|c rest]|] eqn:Hconv.
    + unfold log_msg, ret. reflexivity.
    + rewrite (set_lookup st1 r' s) by done.
      unfold log_msg, ret. cbn [heap log st1].
      by rewrite insert_insert_eq.
    + unfold log_msg, ret. reflexivity.
  - unfold ret. by rewrite app_nil_r.
Qed.

Lemma stored_smiles_derived (s : Spectrum) (v : string) :
  stored_smiles s = Some v -> stored_smiles (derived s) = None \/
                               stored_smiles (derived s) = Some v.
Proof.
  intros Hv. unfold derived. rewrite Hv.
  unfold stored_smiles, attempts in *. cbn [metadata].
  rewrite (lookup_insert_ne (metadata s) "smiles" "inchi") by done.
  destruct (negb (is_valid_smiles (metadata s !! "smiles"))
            && is_valid_inchi (metadata s !! "inchi")); [|done].
  destruct (negb (is_valid_smiles (<["smiles" := v]> (metadata s) !! "smiles"))
            && is_valid_inchi (metadata s !! "inchi")); [|by left].
  by right.
Qed.

Lemma derived_idempotent (s : Spectrum) : derived (derived s) = derived s.
Proof.
  destruct (stored_smiles s) as [v|] eqn:Hv.
  - destruct (stored_smiles_derived s v Hv) as [Hn|Hsame].
    + unfold derived at 1. by rewrite Hn.
    + unfold derived at 1. rewrite Hsame.
      unfold derived. rewrite Hv. cbn [peaks metadata].
      by rewrite insert_insert_eq.
  - assert (Hd : derived s = s) by (unfold derived; by rewrite Hv).
    by rewrite !Hd.
Qed.

(** X7.  The filter is idempotent: applied to its own result it returns a
    spectrum with the same peaks and metadata as that result. *)
Theorem derive_smiles_from_inchi_idempotent (st : State) (r : ref)
  (s : Spectrum) :
  heap st !! r = Some s ->
  exists r1 st1 r2 st2 s1,
    derive_smiles_from_inchi is_valid_smiles is_valid_inchi
      convert_inchi_to_smiles (Some r) st = Some (Some r1, st1) /\
    derive_smiles_from_inchi is_valid_smiles is_valid_inchi
      convert_inchi_to_smiles (Some r1) st1 = Some (Some r2, st2) /\
    heap st1 !! r1 = Some s1 /\ heap st2 !! r2 = Some s1.
Proof.
  intros Hr. rewrite (derive_run st r s Hr).
  set (r1 := fresh (dom (heap st))).
  set (st1 := {| heap := <[r1 := derived s]> (heap st);
                 log := log st ++ logged s |}).
  assert (H1 : heap st1 !! r1 = Some (derived s)) by apply lookup_insert_eq.
  eexists r1, st1, _, _, (derived s).
  split; [reflexivity|]. split; [apply (derive_run st1 r1 _ H1)|].
  split; [done|]. cbn [heap]. rewrite lookup_insert_eq.
  by rewrite derived_idempotent.
Qed.

(** The last character of a string. *)
Fixpoint last_char (s : string) : option ascii :=
  match s with
  | EmptyString => None
  | String c EmptyString => Some c
  | String _ rest => last_char rest
  end.

Lemma rstrip_last (s : string) (c : ascii) :
  last_char (rstrip s) = Some c -> is_space c = false.
Proof.
  induction s as [|a s IH]; simpl; [discriminate|].
  destruct (rstrip s) as [|b r] eqn:Hr.
  - destruct (is_space a) eqn:Ha; simpl; [discriminate|].
    by intros [= <-].
  - simpl. simpl in IH. exact IH.
Qed.

(** X8.  Whenever the returned spectrum's smiles differs from the
    input's, it is the converter's non-empty output for the input's inchi
    with trailing whitespace removed: the stored value does not end in a
    whitespace character. *)
Theorem derive_smiles_from_inchi_stripped (st : State) (r : ref)
  (s : Spectrum) :
  heap st !! r = Some s ->
  exists r' st' s',
    derive_smiles_from_inchi is_valid_smiles is_valid_inchi
      convert_inchi_to_smiles (Some r) st = Some (Some r', st') /\
    heap st' !! r' = Some s' /\
    (metadata s' !! "smiles" <> metadata s !! "smiles" ->
     exists raw,
       convert_inchi_to_smiles (metadata s !! "inchi") = Some raw /\
       raw <> "" /\
       metadata s' !! "smiles" = Some (rstrip raw) /\
       forall c, last_char (rstrip raw) = Some c -> is_space c = false).
Proof.
  intros Hr. rewrite (derive_run st r s Hr).
  eexists _, _, (derived s). split; [reflexivity|].
  cbn [heap]. split; [apply lookup_insert_eq|].
  unfold derived, stored_smiles.
  destruct (attempts s); [|done].
  destruct (convert_inchi_to_smiles (metadata s !! "inchi"))
    as [[|c rest]|]; [done| |done].
  intros _. exists (String c rest). split; [done|]. split; [done|].
  cbn [metadata]. split; [apply lookup_insert_eq|].
  intros c'. apply rstrip_last.
Qed.

(** X9.  The filter logs one record exactly when the input's smiles is
    not valid and its inchi is: an INFO record with the stored smiles when
    the conversion gave a non-empty string, a WARNING record with the inchi
    otherwise.  In every other case the log is left as it was. *)
Theorem derive_smiles_from_inchi_log (st : State) (r : ref) (s : Spectrum) :
  heap st !! r = Some s ->
  exists r' st',
    derive_smiles_from_inchi is_valid_smiles is_valid_inchi
      convert_inchi_to_smiles (Some r) st = Some (Some r', st') /\
    log st'
    = log st ++
      if negb (is_valid_smiles (metadata s !! "smiles"))
         && is_valid_inchi (metadata s !! "inchi")
      then
        match convert_inchi_to_smiles (metadata s !! "inchi") with
        | Some (String c rest) =>
            [(INFO, "Added smiles %s to metadata (was converted from InChI)",
              Some (rstrip (String c rest)))]
        | _ =>
            [(WARNING, "Could not convert InChI %s to smiles.",
              metadata s !! "inchi")]
        end
      else [].
Proof.
  intros Hr. rewrite (derive_run st r s Hr).
  eexists _, _. split; [reflexivity|]. cbn [log]. f_equal.
  unfold logged, stored_smiles, attempts.
  destruct (negb (is_valid_smiles (metadata s !! "smiles"))
            && is_valid_inchi (metadata s !! "inchi")); [|done].
  by destruct (convert_inchi_to_smiles (metadata s !! "inchi")) as [[|c rest]|].
Qed.

End Outcome.

Lemma derive_smiles_from_inchi_idempotent_witness :
  heap demo_state !! 1%positive = Some demo_spectrum /\
  exists r1 st1 r2 st2 s1,
    derive_smiles_from_inchi demo_valid demo_valid demo_convert
      (Some 1%positive) demo_state = Some (Some r1, st1) /\
    derive_smiles_from_inchi demo_valid demo_valid demo_convert
      (Some r1) st1 = Some (Some r2, st2) /\
    heap st1 !! r1 = Some s1 /\ heap st2 !! r2 = Some s1.
Proof.
  assert (H1 : heap demo_state !! 1%positive = Some demo_spectrum)
    by reflexivity.
  split; [exact H1|].
  exact (derive_smiles_from_inchi_idempotent demo_valid demo_valid
           demo_convert demo_state 1%positive demo_spectrum H1).
Defined.

Lemma derive_smiles_from_inchi_stripped_witness :
  heap demo_state !! 1%positive = Some demo_spectrum /\
  exists r' st' s',
    derive_smiles_from_inchi demo_valid demo_valid demo_convert
      (Some 1%positive) demo_state = Some (Some r', st') /\
    heap st' !! r' = Some s' /\
    (metadata s' !! "smiles" <> metadata demo_spectrum !! "smiles" ->
     exists raw,
       demo_convert (metadata demo_spectrum !! "inchi") = Some raw /\
       raw <> "" /\
       metadata s' !! "smiles" = Some (rstrip raw) /\
       forall c, last_char (rstrip raw) = Some c -> is_space c = false).
Proof.
  assert (H1 : heap demo_state !! 1%positive = Some demo_spectrum)
    by reflexivity.
  split; [exact H1|].
  exact (derive_smiles_from_inchi_stripped demo_valid demo_valid
           demo_convert demo_state 1%positive demo_spectrum H1).
Defined.

Lemma derive_smiles_from_inchi_log_witness :
  heap demo_state !! 1%positive = Some demo_spectrum /\
  exists r' st',
    derive_smiles_from_inchi demo_valid demo_valid demo_convert
      (Some 1%positive) demo_state = Some (Some r', st') /\
    log st'
    = log demo_state ++
      if negb (demo_valid (metadata demo_spectrum !! "smiles"))
         && demo_valid (metadata demo_spectrum !! "inchi")
      then
        match demo_convert (metadata demo_spectrum !! "inchi") with
        | Some (String c rest) =>
            [(INFO, "Added smiles %s to metadata (was converted from InChI)",
              Some (rstrip (String c rest)))]
        | _ =>
            [(WARNING, "Could not convert InChI %s to smiles.",
              metadata demo_spectrum !! "inchi")]
        end
      else [].
Proof.
  assert (H1 : heap demo_state !! 1%positive = Some demo_spectrum)
    by reflexivity.
  split; [exact H1|].
  exact (derive_smiles_from_inchi_log demo_valid demo_valid
           demo_convert demo_state 1%positive demo_spectrum H1).
Defined.
End DeriveSmilesProps.

(** ** The peak matcher *)

Module CosineProps.

Import Cosine.

Lemma where_true_elem (mask : list bool) (j0 j : nat) :
  j ∈ where_true mask j0 <->
  (j0 <= j)%nat /\ mask !! (j - j0)%nat = Some true.
Proof.
  revert j0. induction mask as [|b mask IH]; intros j0; simpl.
  - rewrite elem_of_nil, lookup_nil. split; [done | by intros [_ ?]].
  - assert (Hstep : j ∈ where_true mask (S j0) <->
                    (j0 < j)%nat /\ (b :: mask) !! (j - j0)%nat = Some true).
    { rewrite IH. split.
      - intros [Hle Hm]. split; [lia|].
        replace (j - j0)%nat with (S (j - S j0)) by lia. done.
      - intros [Hlt Hm]. split; [lia|].
        replace (j - j0)%nat with (S (j - S j0)) in Hm by lia. done. }
    destruct b.
    + rewrite elem_of_cons, Hstep. split.
      * intros [->|[Hlt Hm]]; [|split; [lia|done]].
        split; [lia|]. by rewrite Nat.sub_diag.
      * intros [Hle Hm]. destruct (decide (j = j0)) as [->|Hne]; [by left|].
        right. split; [lia|done].
    + rewrite Hstep. split.
      * intros [Hlt Hm]. split; [lia|done].
      * intros [Hle Hm]. split; [|done].
        destruct (decide (j = j0)) as [->|Hne]; [|lia].
        rewrite Nat.sub_diag in Hm. discriminate.
Qed.

Lemma where_true_NoDup (mask : list bool) (j0 : nat) :
  NoDup (where_true mask j0).
Proof.
  revert j0. induction mask as [|b mask IH]; intros j0; simpl.
  - constructor.
  - destruct b; [|done]. constructor; [|done].
    rewrite where_true_elem. lia.
Qed.

Lemma row_lookup (spec : array2) (i : nat) (r : Q * Q) :
  spec !! i = Some r -> row spec i = r.
Proof. intros Hi. unfold row. by rewrite nth_lookup, Hi. Qed.

(** The pairs that one iteration of the outer loop appends. *)
Definition pairs_of_peak (spec1 spec2 : array2) (tolerance shift : Q)
  (idx : nat) : list pair :=
  map (fun match_ =>
         (idx, match_, (snd (row spec1 idx) * snd (row spec2 match_))%Q))
      (where_true
         (map (fun r2 =>
                 Qle_bool (Qabs (fst r2 - fst (row spec1 idx) + shift))
                          tolerance)
              spec2) 0).

Lemma pairs_of_peak_elem spec1 spec2 tolerance shift idx i j w :
  (i, j, w) ∈ pairs_of_peak spec1 spec2 tolerance shift idx <->
  i = idx /\
  exists b, spec2 !! j = Some b /\
            (Qabs (fst b - fst (row spec1 idx) + shift) <= tolerance)%Q /\
            w = (snd (row spec1 idx) * snd b)%Q.
Proof.
  unfold pairs_of_peak. rewrite list_elem_of_fmap. split.
  - intros (j' & [= -> -> ->] & Hj). apply where_true_elem in Hj as [_ Hj].
    rewrite Nat.sub_0_r, list_lookup_fmap in Hj.
    destruct (spec2 !! j') as [b|] eqn:Hb; [|done]. simpl in Hj.
    split; [done|]. exists b. split; [done|]. split.
    + apply Qle_bool_iff. by injection Hj.
    + by rewrite (row_lookup _ _ _ Hb).
  - intros (-> & b & Hb & Hle & ->). exists j. split.
    + by rewrite (row_lookup _ _ _ Hb).
    + apply where_true_elem. split; [lia|].
      rewrite Nat.sub_0_r, list_lookup_fmap, Hb. simpl. f_equal.
      by apply Qle_bool_iff.
Qed.

Lemma pairs_of_peak_NoDup spec1 spec2 tolerance shift idx :
  NoDup (map fst (pairs_of_peak spec1 spec2 tolerance shift idx)).
Proof.
  unfold pairs_of_peak. rewrite <- list_fmap_compose.
  apply NoDup_fmap_2; [|apply where_true_NoDup].
  intros j j' [= ->]. done.
Qed.

Lemma flat_map_cells_NoDup (f : nat -> list pair) (idxs : list nat) :
  NoDup idxs ->
  (forall idx, NoDup (map fst (f idx))) ->
  (forall idx p, p ∈ f idx -> fst (fst p) = idx) ->
  NoDup (map fst (flat_map f idxs)).
Proof.
  intros Hidxs Hf Hfst. induction Hidxs as [|idx idxs Hnotin _ IH]; simpl.
  - constructor.
  - rewrite fmap_app. apply NoDup_app. split; [apply Hf|]. split; [|done].
    intros cell Hin1 Hin2.
    apply list_elem_of_fmap in Hin1 as (p1 & -> & Hp1).
    apply list_elem_of_fmap in Hin2 as (p2 & Heq & Hp2).
    apply list_elem_of_In, in_flat_map in Hp2 as (idx' & Hidx' & Hp2).
    apply list_elem_of_In in Hidx', Hp2.
    apply Hfst in Hp1, Hp2. apply Hnotin.
    rewrite <- Hp1, Heq, Hp2. done.
Qed.

Lemma find_pairs_numba_NoDup (spec1 spec2 : array2) (tolerance shift : Q) :
  NoDup (map fst (find_pairs_numba spec1 spec2 tolerance shift)).
Proof.
  change (find_pairs_numba spec1 spec2 tolerance shift)
    with (flat_map (pairs_of_peak spec1 spec2 tolerance shift)
                   (seq 0 (length spec1))).
  apply flat_map_cells_NoDup.
  - apply NoDup_seq.
  - intros idx. apply pairs_of_peak_NoDup.
  - intros idx [[i j] w] Hp. apply pairs_of_peak_elem in Hp. by destruct Hp.
Qed.

Lemma find_pairs_numba_elem (spec1 spec2 : array2) (tolerance shift : Q)
  (i j : nat) (w : Q) :
  (i, j, w) ∈ find_pairs_numba spec1 spec2 tolerance shift <->
  exists a b,
    spec1 !! i = Some a /\ spec2 !! j = Some b /\
    (Qabs (fst b - fst a + shift) <= tolerance)%Q /\
    w = (snd a * snd b)%Q.
Proof.
  change (find_pairs_numba spec1 spec2 tolerance shift)
    with (flat_map (pairs_of_peak spec1 spec2 tolerance shift)
                   (seq 0 (length spec1))).
  rewrite list_elem_of_In, in_flat_map. split.
  - intros (idx & Hidx & Hp).
    apply list_elem_of_In, pairs_of_peak_elem in Hp
      as (-> & b & Hb & Hle & ->).
    apply in_seq in Hidx.
    destruct (lookup_lt_is_Some_2 spec1 idx) as [a Ha]; [lia|].
    rewrite (row_lookup _ _ _ Ha) in *. by exists a, b.
  - intros (a & b & Ha & Hb & Hle & ->). exists i. split.
    + apply in_seq. apply lookup_lt_Some in Ha. lia.
    + apply list_elem_of_In, pairs_of_peak_elem. split; [done|].
      rewrite (row_lookup _ _ _ Ha). by exists b.
Qed.

(** C3.  The matcher emits, for every index pair (i, j) whose positions
    satisfy |posB_j - posA_i + shift| <= tolerance, the pair
    (i, j, intensityA_i * intensityB_j), once, and nothing else.  This holds
    for all peak arrays, tolerances and shifts. *)
Theorem find_pairs_numba_exact (spec1 spec2 : array2) (tolerance shift : Q) :
  NoDup (map fst (find_pairs_numba spec1 spec2 tolerance shift)) /\
  forall i j w,
    (i, j, w) ∈ find_pairs_numba spec1 spec2 tolerance shift <->
    exists a b,
      spec1 !! i = Some a /\ spec2 !! j = Some b /\
      (Qabs (fst b - fst a + shift) <= tolerance)%Q /\
      w = (snd a * snd b)%Q.
Proof.
  split; [apply find_pairs_numba_NoDup|].
  intros i j w. apply find_pairs_numba_elem.
Qed.

(** Indices do repeat across pairs: one peak of A within tolerance of two
    peaks of B appears in two candidate pairs. *)
Example find_pairs_numba_repeats :
  find_pairs_numba [(100 # 1, 1 # 2)] [(100 # 1, 1 # 1); (201 # 2, 1 # 2)]
                   (1 # 1) 0%Q
  = [(0%nat, 0%nat, ((1 # 2) * (1 # 1))%Q);
     (0%nat, 1%nat, ((1 # 2) * (1 # 2))%Q)].
Proof. reflexivity. Qed.

(** ** Sums of rationals *)

Lemma Qsum_app (l1 l2 : list Q) : (Qsum (l1 ++ l2) == Qsum l1 + Qsum l2)%Q.
Proof.
  induction l1 as [|x l1 IH]; simpl.
  - ring.
  - rewrite IH. ring.
Qed.

Lemma Qsum_perm (l1 l2 : list Q) : l1 ≡ₚ l2 -> (Qsum l1 == Qsum l2)%Q.
Proof.
  induction 1 as [|x l1 l2 _ IH|x y l|l1 l2 l3 _ IH1 _ IH2]; simpl.
  - reflexivity.
  - by rewrite IH.
  - ring.
  - by rewrite IH1.
Qed.

Lemma Qsum_nonneg (l : list Q) :
  Forall (fun x => 0 <= x)%Q l -> (0 <= Qsum l)%Q.
Proof.
  induction 1 as [|x l Hx _ IH]; simpl; [apply Qle_refl|]. lra.
Qed.

Lemma Qsum_le {A} (f g : A -> Q) (l : list A) :
  Forall (fun x => f x <= g x)%Q l ->
  (Qsum (map f l) <= Qsum (map g l))%Q.
Proof.
  induction 1 as [|x l Hx _ IH]; simpl; [apply Qle_refl|]. lra.
Qed.

Lemma Qsum_eq {A} (f g : A -> Q) (l : list A) :
  Forall (fun x => f x == g x)%Q l ->
  (Qsum (map f l) == Qsum (map g l))%Q.
Proof.
  induction 1 as [|x l Hx _ IH]; simpl; [reflexivity|]. lra.
Qed.

Lemma Qsum_plus {A} (f g : A -> Q) (l : list A) :
  (Qsum (map (fun x => f x + g x) l) == Qsum (map f l) + Qsum (map g l))%Q.
Proof.
  induction l as [|x l IH]; simpl; [ring|]. lra.
Qed.

Lemma Qsum_scale {A} (c : Q) (f : A -> Q) (l : list A) :
  (Qsum (map (fun x => c * f x) l) == c * Qsum (map f l))%Q.
Proof.
  induction l as [|x l IH]; simpl; [ring|]. rewrite IH. ring.
Qed.

(** [n - sum of n costs] is the sum of the [1 - cost]. *)
Lemma Qsum_complement {A} (f : A -> Q) (l : list A) :
  (inject_Z (Z.of_nat (length l)) - Qsum (map f l)
   == Qsum (map (fun x => 1 - f x) l))%Q.
Proof.
  induction l as [|x l IH]; simpl length; simpl map; simpl Qsum.
  - reflexivity.
  - rewrite Nat2Z.inj_succ, <- Z.add_1_r, inject_Z_plus.
    change (inject_Z 1) with 1%Q. lra.
Qed.

(** A sum of non-negative terms over distinct elements of a list is at
    most the sum over the whole list. *)
Lemma Qsum_sub_NoDup (f : nat -> Q) (l u : list nat) :
  NoDup l -> l ⊆ u -> (forall x, 0 <= f x)%Q ->
  (Qsum (map f l) <= Qsum (map f u))%Q.
Proof.
  intros Hl. revert u. induction Hl as [|x l Hx _ IH]; intros u Hsub Hf; simpl.
  - apply Qsum_nonneg. apply Forall_forall. intros y Hy.
    apply list_elem_of_fmap in Hy as (z & -> & _). apply Hf.
  - assert (Hxu : x ∈ u) by (apply Hsub; left).
    apply list_elem_of_split in Hxu as (u1 & u2 & ->).
    assert (Hsub' : l ⊆ u1 ++ u2).
    { intros y Hy. assert (Hyu : y ∈ u1 ++ x :: u2) by (apply Hsub; by right).
      rewrite elem_of_app, elem_of_cons in Hyu. rewrite elem_of_app.
      destruct Hyu as [?|[->|?]]; [by left|done|by right]. }
    specialize (IH _ Hsub' Hf).
    rewrite map_app, Qsum_app in IH. rewrite map_app, Qsum_app.
    simpl. lra.
Qed.

Lemma Qltb_lt (a b : Q) : Qltb a b = true <-> (a < b)%Q.
Proof.
  unfold Qltb. rewrite negb_true_iff. split.
  - intros Hb. apply Qnot_le_lt. intros Hle.
    apply Qle_bool_iff in Hle. congruence.
  - intros Hlt. destruct (Qle_bool b a) eqn:Hb; [|done].
    apply Qle_bool_iff in Hb. lra.
Qed.

Lemma Qltb_ge (a b : Q) : Qltb a b = false <-> (b <= a)%Q.
Proof.
  unfold Qltb. rewrite negb_false_iff. apply Qle_bool_iff.
Qed.

Lemma py_max2_spec (a b : Q) :
  (a <= py_max2 a b)%Q /\ (b <= py_max2 a b)%Q /\
  (py_max2 a b = a \/ py_max2 a b = b).
Proof.
  unfold py_max2. destruct (Qltb a b) eqn:Hab.
  - apply Qltb_lt in Hab. repeat split; [lra|lra|by right].
  - apply Qltb_ge in Hab. repeat split; [lra|lra|by left].
Qed.

(** [max(xs)] is an upper bound of [xs], and one of its items. *)
Lemma py_max_spec (x : Q) (rest : list Q) :
  exists m, py_max (x :: rest) = Ok m /\
            Forall (fun y => y <= m)%Q (x :: rest) /\ m ∈ x :: rest.
Proof.
  unfold py_max.
  assert (Hgen : forall l m0,
             let m := foldl (fun m y => if Qltb m y then y else m) m0 l in
             (m0 <= m)%Q /\ Forall (fun y => y <= m)%Q l /\ m ∈ m0 :: l).
  { induction l as [|y l IH]; intros m0; simpl.
    - split; [lra|]. split; [constructor|by left].
    - destruct (Qltb m0 y) eqn:Hlt.
      + apply Qltb_lt in Hlt. destruct (IH y) as (H1 & H2 & H3).
        split; [lra|]. split; [by constructor|by right].
      + apply Qltb_ge in Hlt. destruct (IH m0) as (H1 & H2 & H3).
        split; [lra|]. split; [constructor; [lra|done]|].
        rewrite elem_of_cons in H3. destruct H3 as [->|H3]; [by left|].
        right. by right. }
  destruct (Hgen rest x) as (H1 & H2 & H3).
  eexists. split; [reflexivity|]. split; [by constructor|done].
Qed.

(** ** The descending sort *)

Lemma insert_desc_perm (x : pair) (l : list pair) : insert_desc x l ≡ₚ x :: l.
Proof.
  induction l as [|y l IH]; simpl; [done|].
  destruct (Qle_bool (snd y) (snd x)); [done|].
  rewrite IH. apply perm_swap.
Qed.

Lemma sorted_by_weight_desc_perm (l : list pair) :
  sorted_by_weight_desc l ≡ₚ l.
Proof.
  induction l as [|x l IH]; simpl; [done|].
  unfold sorted_by_weight_desc in *. simpl.
  by rewrite insert_desc_perm, IH.
Qed.

(** ** The exact solver *)

Lemma assignments_sound (rows cols : list nat) (t : nat)
  (c : list (nat * nat)) :
  c ∈ assignments rows cols t ->
  length c = t /\ map fst c `sublist_of` rows /\
  NoDup (map snd c) /\ Forall (fun j => j ∈ cols) (map snd c).
Proof.
  revert cols t c. induction rows as [|r rest IH]; intros cols t c; simpl.
  - destruct t; [|by rewrite elem_of_nil].
    rewrite list_elem_of_singleton. intros ->. simpl.
    repeat split; [done|constructor|constructor].
  - destruct t as [|t'].
    { rewrite list_elem_of_singleton. intros ->. simpl.
      repeat split; [apply sublist_nil_l|constructor|constructor]. }
    rewrite elem_of_app. intros [Hin|Hin].
    + apply list_elem_of_In, in_flat_map in Hin as (c0 & Hc0 & Hin).
      apply list_elem_of_In, list_elem_of_fmap in Hin as (c1 & -> & Hc1).
      apply IH in Hc1 as (Hlen & Hsub & Hnd & Hall). simpl.
      repeat split.
      * by rewrite Hlen.
      * by apply sublist_skip.
      * constructor; [|done]. intros Hc0'.
        rewrite Forall_forall in Hall. apply Hall in Hc0'.
        apply list_elem_of_In, filter_In in Hc0' as [_ Hneq].
        by rewrite Nat.eqb_refl in Hneq.
      * constructor; [by apply list_elem_of_In|].
        eapply Forall_impl; [exact Hall|]. simpl. intros j Hj.
        apply list_elem_of_In, filter_In in Hj as [Hj _].
        by apply list_elem_of_In.
    + apply IH in Hin as (Hlen & Hsub & Hnd & Hall).
      repeat split; [done| |done|done]. by apply sublist_cons.
Qed.

Lemma assignments_complete (rows cols : list nat) (t : nat)
  (c : list (nat * nat)) :
  length c = t -> map fst c `sublist_of` rows ->
  NoDup (map snd c) -> Forall (fun j => j ∈ cols) (map snd c) ->
  c ∈ assignments rows cols t.
Proof.
  revert cols t c. induction rows as [|r rest IH]; intros cols t c; simpl.
  - intros Hlen Hsub _ _. apply sublist_nil_r in Hsub.
    destruct c; [|done]. simpl in Hlen. subst t. by left.
  - intros Hlen Hsub Hnd Hall. destruct t as [|t'].
    { destruct c; [|done]. by left. }
    destruct c as [|[r0 c0] c1]; [done|]. simpl in *.
    injection Hlen as Hlen. rewrite elem_of_app.
    apply NoDup_cons in Hnd as [Hc0 Hnd].
    apply Forall_cons in Hall as [Hc0in Hall].
    apply sublist_cons_r in Hsub as [Hsub|(l' & [= -> <-] & Hsub)].
    + right. apply IH; simpl; [by rewrite Hlen|done| |].
      * by apply NoDup_cons.
      * by apply Forall_cons.
    + left. apply list_elem_of_In, in_flat_map. exists c0.
      split; [by apply list_elem_of_In|].
      apply list_elem_of_In, list_elem_of_fmap. exists c1. split; [done|].
      apply IH; [done..|].
      rewrite Forall_forall in Hall |- *. intros j Hj.
      apply list_elem_of_In, filter_In. split.
      * apply list_elem_of_In. by apply Hall.
      * apply negb_true_iff, Nat.eqb_neq. intros ->. done.
Qed.

Lemma argmin_spec (m : matrix) (best : list (nat * nat))
  (cands : list (list (nat * nat))) :
  argmin m best cands ∈ best :: cands /\
  forall c, c ∈ best :: cands ->
            (cells_cost m (argmin m best cands) <= cells_cost m c)%Q.
Proof.
  revert best. induction cands as [|c cands IH]; intros best; simpl.
  - split; [by left|]. intros c Hc. apply list_elem_of_singleton in Hc as ->.
    apply Qle_refl.
  - destruct (Qltb (cells_cost m c) (cells_cost m best)) eqn:Hlt.
    + apply Qltb_lt in Hlt. destruct (IH c) as [Hin Hmin]. split.
      * by right.
      * intros c' Hc'. rewrite elem_of_cons in Hc'.
        destruct Hc' as [->|Hc']; [|by apply Hmin].
        specialize (Hmin c ltac:(by left)). lra.
    + apply Qltb_ge in Hlt. destruct (IH best) as [Hin Hmin]. split.
      * rewrite elem_of_cons in Hin. destruct Hin as [->|Hin]; [by left|].
        right. by right.
      * intros c' Hc'. rewrite !elem_of_cons in Hc'.
        destruct Hc' as [->|[->|Hc']].
        -- apply Hmin. by left.
        -- specialize (Hmin best ltac:(by left)). lra.
        -- apply Hmin. by right.
Qed.

(** A strictly ascending list of numbers of [a .. a+n-1] is a sublist of
    that range. *)
Lemma ascending_sublist_seq (l : list nat) (a n : nat) :
  StronglySorted lt l -> Forall (fun x => a <= x < a + n)%nat l ->
  l `sublist_of` seq a n.
Proof.
  revert a l. induction n as [|n IH]; intros a l Hs Hl; simpl.
  - destruct l as [|x l]; [done|].
    apply Forall_cons in Hl as [Hx _]. lia.
  - destruct l as [|x l]; [apply sublist_nil_l|].
    apply StronglySorted_inv in Hs as [Hs Hx].
    apply Forall_cons in Hl as [Hxa Hl].
    destruct (decide (x = a)) as [->|Hne].
    + apply sublist_skip. apply IH; [done|].
      rewrite Forall_forall in Hx, Hl |- *. intros y Hy.
      specialize (Hx y Hy). specialize (Hl y Hy). lia.
    + apply sublist_cons. apply IH.
      * by constructor.
      * constructor; [lia|].
        rewrite Forall_forall in Hx, Hl |- *. intros y Hy.
        specialize (Hx y Hy). specialize (Hl y Hy). lia.
Qed.

Lemma sorted_le_NoDup_lt (l : list nat) :
  Sorted le l -> NoDup l -> StronglySorted lt l.
Proof.
  intros Hs Hnd. apply Sorted_StronglySorted in Hs; [|intros x y z; lia].
  induction Hs as [|x l Hs IH Hx]; [constructor|].
  apply NoDup_cons in Hnd as [Hnotin Hnd].
  constructor; [by apply IH|].
  rewrite Forall_forall in Hx |- *. intros y Hy. specialize (Hx y Hy).
  assert (x <> y) by (intros ->; done). lia.
Qed.

Lemma combine_fst_snd {A B} (c : list (A * B)) :
  combine (map fst c) (map snd c) = c.
Proof. induction c as [|[a b] c IH]; simpl; [done|]. by rewrite IH. Qed.

Lemma map_fst_combine {A B} (l1 : list A) (l2 : list B) :
  length l1 = length l2 -> map fst (combine l1 l2) = l1.
Proof.
  revert l2. induction l1 as [|a l1 IH]; intros [|b l2]; simpl; try done.
  intros [= Hlen]. by rewrite IH.
Qed.

Lemma map_snd_combine {A B} (l1 : list A) (l2 : list B) :
  length l1 = length l2 -> map snd (combine l1 l2) = l2.
Proof.
  revert l2. induction l1 as [|a l1 IH]; intros [|b l2]; simpl; try done.
  intros [= Hlen]. by rewrite IH.
Qed.

Lemma shape_first_row (m : matrix) (n k : nat) :
  shape m n k -> (0 < n)%nat -> length (nth 0 m []) = k.
Proof.
  intros [Hn Hk] Hpos. destruct m as [|r m]; simpl in *; [lia|].
  by apply Forall_cons in Hk as [Hr _].
Qed.

Lemma exact_assignment_candidates (n k : nat) :
  assignments (seq 0 n) (seq 0 k) (Nat.min n k) <> [].
Proof.
  set (t := Nat.min n k).
  assert (Hin : combine (seq 0 t) (seq 0 t)
                ∈ assignments (seq 0 n) (seq 0 k) t).
  { apply assignments_complete.
    - rewrite length_combine, !length_seq. lia.
    - rewrite map_fst_combine by by rewrite !length_seq.
      replace n with (t + (n - t))%nat by lia.
      rewrite seq_app. by apply sublist_inserts_r.
    - rewrite map_snd_combine by by rewrite !length_seq. apply NoDup_seq.
    - rewrite map_snd_combine by by rewrite !length_seq.
      apply Forall_forall. intros x Hx.
      apply list_elem_of_In, in_seq in Hx. apply list_elem_of_In, in_seq. lia. }
  intros Hnil. rewrite Hnil in Hin. by apply elem_of_nil in Hin.
Qed.

Lemma exact_assignment_in (m : matrix) :
  let n := length m in
  let k := length (nth 0 m []) in
  combine (fst (exact_assignment m)) (snd (exact_assignment m))
  ∈ assignments (seq 0 n) (seq 0 k) (Nat.min n k) /\
  forall c, c ∈ assignments (seq 0 n) (seq 0 k) (Nat.min n k) ->
            (cells_cost m (combine (fst (exact_assignment m))
                                   (snd (exact_assignment m)))
             <= cells_cost m c)%Q.
Proof.
  intros n k. unfold exact_assignment. fold n k.
  pose proof (exact_assignment_candidates n k) as Hne.
  destruct (assignments (seq 0 n) (seq 0 k) (Nat.min n k)) as [|c0 rest];
    [done|].
  simpl. rewrite combine_fst_snd. apply argmin_spec.
Qed.

Lemma exact_assignment_valid (m : matrix) (n k : nat) :
  shape m n k ->
  is_assignment n k (fst (exact_assignment m)) (snd (exact_assignment m)).
Proof.
  intros Hshape. pose proof Hshape as [Hn _].
  destruct (exact_assignment_in m) as [Hin _].
  assert (Hfs : fst (exact_assignment m)
                = map fst (combine (fst (exact_assignment m))
                                   (snd (exact_assignment m))) /\
                snd (exact_assignment m)
                = map snd (combine (fst (exact_assignment m))
                                   (snd (exact_assignment m)))).
  { unfold exact_assignment.
    destruct (assignments _ _ _); simpl; [done|].
    by rewrite combine_fst_snd. }
  destruct Hfs as [Hf Hs].
  apply assignments_sound in Hin as (Hlen & Hsub & Hnd & Hall).
  rewrite <- Hf in Hsub. rewrite <- Hs in Hnd, Hall.
  assert (Hk : (0 < n)%nat -> length (nth 0 m []) = k)
    by by apply shape_first_row.
  assert (Hmin : Nat.min (length m) (length (nth 0 m [])) = Nat.min n k).
  { rewrite Hn. destruct n; [done|]. rewrite Hk by lia. done. }
  assert (Hlf : length (fst (exact_assignment m)) = Nat.min n k).
  { rewrite Hf, length_map. congruence. }
  assert (Hls : length (snd (exact_assignment m)) = Nat.min n k).
  { rewrite Hs, length_map. congruence. }
  repeat split; [done|done| |done| |].
  - eapply sublist_NoDup; [apply NoDup_seq|exact Hsub].
  - apply Forall_forall. intros i Hi.
    assert (Hi' : i ∈ seq 0 (length m)) by by eapply elem_of_sublist.
    apply list_elem_of_In, in_seq in Hi'. lia.
  - destruct (decide (n = 0%nat)) as [->|Hpos].
    + destruct (snd (exact_assignment m)); [constructor|done].
    + rewrite Hk in Hall by lia. eapply Forall_impl; [exact Hall|].
      simpl. intros j Hj. apply list_elem_of_In, in_seq in Hj. lia.
Qed.

Lemma cells_cost_perm (m : matrix) (c c' : list (nat * nat)) :
  c ≡ₚ c' -> (cells_cost m c == cells_cost m c')%Q.
Proof. intros Hp. unfold cells_cost. apply Qsum_perm. by rewrite Hp. Qed.

Lemma exact_assignment_optimal (m : matrix) (n k : nat)
  (row_ind col_ind : list nat) :
  shape m n k -> is_assignment n k row_ind col_ind ->
  (assignment_cost m (fst (exact_assignment m)) (snd (exact_assignment m))
   <= assignment_cost m row_ind col_ind)%Q.
Proof.
  intros Hshape (Hlr & Hlc & Hndr & Hndc & Hr & Hc).
  pose proof Hshape as [Hn _].
  destruct (exact_assignment_in m) as [_ Hmin].
  set (c := combine row_ind col_ind).
  set (c' := stable_sort_keyed c).
  assert (Hperm : c' ≡ₚ c) by apply stable_sort_keyed_perm.
  assert (Hfst : map fst c' ≡ₚ row_ind).
  { rewrite Hperm. unfold c. rewrite map_fst_combine; [done|congruence]. }
  assert (Hsnd : map snd c' ≡ₚ col_ind).
  { rewrite Hperm. unfold c. rewrite map_snd_combine; [done|congruence]. }
  assert (Hk : (0 < n)%nat -> length (nth 0 m []) = k)
    by by apply shape_first_row.
  assert (Hin : c' ∈ assignments (seq 0 (length m))
                       (seq 0 (length (nth 0 m [])))
                       (Nat.min (length m) (length (nth 0 m [])))).
  { apply assignments_complete.
    - rewrite Hperm. unfold c. rewrite length_combine, Hlr, Hlc, Hn.
      destruct n; [done|]. rewrite Hk by lia. lia.
    - apply ascending_sublist_seq.
      + apply sorted_le_NoDup_lt; [|by rewrite Hfst].
        pose proof (stable_sort_keyed_sorted c) as Hs. fold c' in Hs.
        clear -Hs. induction Hs as [|x l Hs IH Hx]; simpl; [constructor|].
        constructor; [done|]. destruct Hx; simpl; constructor. done.
      + rewrite Hfst, Hn. eapply Forall_impl; [exact Hr|]. simpl. lia.
    - by rewrite Hsnd.
    - rewrite Hsnd. destruct (decide (n = 0%nat)) as [->|Hpos].
      + destruct col_ind; [constructor|done].
      + rewrite Hk by lia. eapply Forall_impl; [exact Hc|]. simpl.
        intros j Hj. apply list_elem_of_In, in_seq. lia. }
  specialize (Hmin _ Hin).
  change (assignment_cost m row_ind col_ind) with (cells_cost m c).
  change (assignment_cost m (fst (exact_assignment m))
                          (snd (exact_assignment m)))
    with (cells_cost m (combine (fst (exact_assignment m))
                                (snd (exact_assignment m)))).
  rewrite <- (cells_cost_perm m c' c Hperm). exact Hmin.
Qed.

(** ** The ascending order of a set *)

Lemma ascending_set_NoDup (l : list nat) : NoDup (ascending_set l).
Proof.
  unfold ascending_set. apply NoDup_ListNoDup, List.NoDup_filter, seq_NoDup.
Qed.

Lemma foldr_max_ge (l : list nat) (x : nat) :
  x ∈ l -> (x <= foldr Nat.max 0%nat l)%nat.
Proof.
  induction l as [|y l IH]; simpl; [by rewrite elem_of_nil|].
  rewrite elem_of_cons. intros [->|Hx]; [lia|]. specialize (IH Hx). lia.
Qed.

Lemma ascending_set_elem (l : list nat) (x : nat) :
  x ∈ ascending_set l <-> x ∈ l.
Proof.
  unfold ascending_set. rewrite list_elem_of_In, filter_In, in_seq.
  rewrite existsb_exists. split.
  - intros [_ (y & Hy & Heq)]. apply Nat.eqb_eq in Heq as ->.
    by apply list_elem_of_In.
  - intros Hx. split.
    + apply foldr_max_ge in Hx. lia.
    + exists x. split; [by apply list_elem_of_In|apply Nat.eqb_refl].
Qed.

(** The runtime used to run the scorer on examples. *)
#[export] Instance exact_runtime : Runtime := {|
  set_to_list := ascending_set;
  set_to_list_NoDup := ascending_set_NoDup;
  set_to_list_elem := ascending_set_elem;
  linear_sum_assignment := exact_assignment;
  linear_sum_assignment_valid := exact_assignment_valid;
  linear_sum_assignment_optimal := exact_assignment_optimal
|}.

(** ** Lists, matrices and the fill loop *)

Lemma index_from_elem (x : nat) (l : list nat) (i0 : nat) :
  x ∈ l ->
  exists i, index_from Nat.eqb x l i0 = Ok (i0 + i)%nat /\ l !! i = Some x.
Proof.
  revert i0. induction l as [|y l IH]; intros i0; [by rewrite elem_of_nil|].
  intros Hx. simpl. destruct (y =? x)%nat eqn:Hyx.
  - apply Nat.eqb_eq in Hyx as ->. exists 0%nat. by rewrite Nat.add_0_r.
  - apply Nat.eqb_neq in Hyx. apply elem_of_cons in Hx as [->|Hx]; [done|].
    destruct (IH (S i0) Hx) as (i & Hi & Hl). exists (S i). split; [|done].
    rewrite Hi. f_equal. lia.
Qed.

Lemma list_index_elem (x : nat) (l : list nat) :
  x ∈ l -> exists i, list_index Nat.eqb x l = Ok i /\ l !! i = Some x.
Proof. intros Hx. apply (index_from_elem x l 0 Hx). Qed.

Lemma list_index_lookup (x : nat) (l : list nat) (i : nat) :
  NoDup l -> l !! i = Some x -> list_index Nat.eqb x l = Ok i.
Proof.
  intros Hnd Hi.
  destruct (list_index_elem x l) as (j & Hj & Hl).
  { by eapply list_elem_of_lookup_2. }
  by rewrite (NoDup_lookup l i j x Hnd Hi Hl).
Qed.

Lemma entry_lookup (m : matrix) (i j : nat) (r : list Q) (v : Q) :
  m !! i = Some r -> r !! j = Some v -> entry m i j = v.
Proof.
  intros Hi Hj. unfold entry. by rewrite (nth_lookup_Some _ _ _ _ Hi),
    (nth_lookup_Some _ _ _ _ Hj).
Qed.

Lemma shape_lookup (m : matrix) (n k i j : nat) :
  shape m n k -> (i < n)%nat -> (j < k)%nat ->
  exists r, m !! i = Some r /\ length r = k /\ r !! j = Some (entry m i j).
Proof.
  intros [Hn Hk] Hi Hj.
  destruct (lookup_lt_is_Some_2 m i) as [r Hr]; [lia|].
  assert (Hlen : length r = k).
  { rewrite Forall_forall in Hk. apply Hk. by eapply list_elem_of_lookup_2. }
  destruct (lookup_lt_is_Some_2 r j) as [v Hv]; [lia|].
  exists r. repeat split; [done..|]. by rewrite (entry_lookup _ _ _ _ _ Hr Hv).
Qed.

Lemma shape_ones (n k : nat) : shape (ones n k) n k.
Proof.
  unfold ones. split; [apply length_replicate|].
  apply Forall_forall. intros r Hr. apply elem_of_replicate in Hr as [-> _].
  apply length_replicate.
Qed.

Lemma entry_ones (n k i j : nat) :
  (i < n)%nat -> (j < k)%nat -> entry (ones n k) i j = 1%Q.
Proof.
  intros Hi Hj. apply (entry_lookup _ _ _ (replicate k 1%Q)).
  - by apply lookup_replicate_2.
  - by apply lookup_replicate_2.
Qed.

Lemma getitem_entry (m : matrix) (n k i j : nat) :
  shape m n k -> (i < n)%nat -> (j < k)%nat ->
  getitem m i j = Ok (entry m i j).
Proof.
  intros Hs Hi Hj. destruct (shape_lookup m n k i j Hs Hi Hj) as (r & Hr & _ & Hv).
  unfold getitem. by rewrite Hr, Hv.
Qed.

Lemma setitem_entry (m : matrix) (n k i j : nat) (v : Q) :
  shape m n k -> (i < n)%nat -> (j < k)%nat ->
  exists m',
    setitem m i j v = Ok m' /\ shape m' n k /\
    forall i' j', (i' < n)%nat -> (j' < k)%nat ->
      entry m' i' j' = if decide (i' = i /\ j' = j) then v else entry m i' j'.
Proof.
  intros Hs Hi Hj.
  destruct (shape_lookup m n k i j Hs Hi Hj) as (r & Hr & Hlen & Hv).
  unfold setitem. rewrite Hr.
  destruct (j <? length r)%nat eqn:Hjr; [|apply Nat.ltb_ge in Hjr; lia].
  eexists. split; [reflexivity|]. destruct Hs as [Hn Hk]. split.
  - split; [by rewrite length_insert|].
    apply Forall_insert; [done|]. by rewrite length_insert.
  - intros i' j' Hi' Hj'.
    destruct (shape_lookup m n k i' j' (conj Hn Hk) Hi' Hj')
      as (r' & Hr' & Hlen' & Hv').
    destruct (decide (i' = i)) as [->|Hne].
    + assert (r' = r) by congruence. subst r'.
      destruct (decide (j' = j)) as [->|Hnej].
      * rewrite decide_True by done.
        apply (entry_lookup _ _ _ (<[j := v]> r)).
        -- apply list_lookup_insert_eq. lia.
        -- apply list_lookup_insert_eq. lia.
      * rewrite decide_False by (intros [_ ?]; done).
        apply (entry_lookup _ _ _ (<[j := v]> r)).
        -- apply list_lookup_insert_eq. lia.
        -- by rewrite list_lookup_insert_ne.
    + rewrite decide_False by (intros [? _]; done).
      apply (entry_lookup _ _ _ r'); [|done].
      by rewrite list_lookup_insert_ne.
Qed.

(** The cost that the candidate pairs give the cell of the A-index [a] and
    the B-index [b]: [1 - weight] for the last pair listed for this cell,
    [1] when there is none. *)
Definition write_cost (a b : nat) (acc : Q) (p : pair) : Q :=
  if ((fst (fst p) =? a) && (snd (fst p) =? b))%nat then (1 - snd p)%Q
  else acc.

Definition cell_cost (pairs : list pair) (a b : nat) : Q :=
  foldl (write_cost a b) 1%Q pairs.

(** The weight at the cell: that of the last pair listed for it, [0] when
    there is none. *)
Definition write_weight (a b : nat) (acc : Q) (p : pair) : Q :=
  if ((fst (fst p) =? a) && (snd (fst p) =? b))%nat then snd p else acc.

Definition cell_weight (pairs : list pair) (a b : nat) : Q :=
  foldl (write_weight a b) 0%Q pairs.

Lemma cell_cost_weight (pairs : list pair) (a b : nat) :
  (cell_cost pairs a b == 1 - cell_weight pairs a b)%Q.
Proof.
  unfold cell_cost, cell_weight.
  assert (Hgen : forall c w, (c == 1 - w)%Q ->
             (foldl (write_cost a b) c pairs
              == 1 - foldl (write_weight a b) w pairs)%Q).
  { induction pairs as [|p pairs IH]; intros c w Hcw; cbn [foldl];
      [exact Hcw|].
    apply IH. unfold write_cost, write_weight.
    destruct ((fst (fst p) =? a) && (snd (fst p) =? b))%nat;
      [reflexivity|exact Hcw]. }
  apply Hgen. ring.
Qed.

(** A cell that no pair is listed for has weight [0] and cost [1]; any
    other cell has the weight [w] and the cost [1 - w] of a pair listed
    for it. *)
Lemma cell_weight_cases (pairs : list pair) (a b : nat) :
  ((forall w, (a, b, w) ∉ pairs) /\
   cell_weight pairs a b = 0%Q /\ cell_cost pairs a b = 1%Q) \/
  (exists w, (a, b, w) ∈ pairs /\ cell_weight pairs a b = w /\
             cell_cost pairs a b = (1 - w)%Q).
Proof.
  unfold cell_weight, cell_cost.
  assert (Hgen : forall c w,
             ((forall w', (a, b, w') ∉ pairs) /\
              foldl (write_weight a b) w pairs = w /\
              foldl (write_cost a b) c pairs = c) \/
             (exists w', (a, b, w') ∈ pairs /\
                         foldl (write_weight a b) w pairs = w' /\
                         foldl (write_cost a b) c pairs = (1 - w')%Q)).
  { induction pairs as [|[[a' b'] w'] pairs IH]; intros c w; cbn [foldl].
    { left. split; [|done]. intros w'. apply not_elem_of_nil. }
    change (write_weight a b w (a', b', w'))
      with (if ((a' =? a) && (b' =? b))%nat then w' else w).
    change (write_cost a b c (a', b', w'))
      with (if ((a' =? a) && (b' =? b))%nat then (1 - w')%Q else c).
    destruct ((a' =? a) && (b' =? b))%nat eqn:Hab.
    - apply andb_true_iff in Hab as [->%Nat.eqb_eq ->%Nat.eqb_eq].
      right.
      destruct (IH (1 - w')%Q w') as [(_ & -> & ->)|(w'' & Hin & -> & ->)].
      + exists w'. split; [by left|done].
      + exists w''. split; [by right|done].
    - destruct (IH c w) as [(Hnone & -> & ->)|(w'' & Hin & -> & ->)].
      + left. split; [|done]. intros w'' Hin.
        apply elem_of_cons in Hin as [[= -> -> ->]|Hin]; [|by eapply Hnone].
        by rewrite !Nat.eqb_refl in Hab.
      + right. exists w''. split; [by right|done]. }
  apply Hgen.
Qed.

(** When each cell is listed at most once, the weight at the cell of a
    candidate pair is the weight of that pair. *)
Lemma cell_weight_candidate (pairs : list pair) (a b : nat) (w : Q) :
  NoDup (map fst pairs) -> (a, b, w) ∈ pairs ->
  cell_weight pairs a b = w /\ cell_cost pairs a b = (1 - w)%Q.
Proof.
  intros Hnd Hin.
  destruct (cell_weight_cases pairs a b)
    as [(Hnone & _)|(w' & Hin' & -> & ->)]; [by destruct (Hnone w)|].
  assert (w' = w); [|by subst].
  apply list_elem_of_lookup in Hin as [i Hi].
  apply list_elem_of_lookup in Hin' as [i' Hi'].
  assert (Hii : i' = i).
  { apply (NoDup_lookup (map fst pairs) i' i (a, b) Hnd).
    - by rewrite list_lookup_fmap, Hi'.
    - by rewrite list_lookup_fmap, Hi. }
  subst i'. congruence.
Qed.

Lemma fill_matrix_spec (l1 l2 : list nat) (pairs : list pair) (m : matrix) :
  NoDup l1 -> NoDup l2 -> shape m (length l1) (length l2) ->
  Forall (fun p => fst (fst p) ∈ l1 /\ snd (fst p) ∈ l2) pairs ->
  exists m',
    fill_matrix l1 l2 pairs m = Ok m' /\
    shape m' (length l1) (length l2) /\
    forall i j a b, l1 !! i = Some a -> l2 !! j = Some b ->
      entry m' i j = foldl (write_cost a b) (entry m i j) pairs.
Proof.
  intros Hnd1 Hnd2 Hshape Hpairs. revert m Hshape.
  induction Hpairs as [|[[a0 b0] w0] pairs [Ha0 Hb0] _ IH]; intros m Hshape.
  - exists m. split; [done|]. split; [done|]. intros; reflexivity.
  - cbn [fst snd] in Ha0, Hb0.
    destruct (list_index_elem a0 l1 Ha0) as (i0 & Hi0 & Hl1).
    destruct (list_index_elem b0 l2 Hb0) as (j0 & Hj0 & Hl2).
    pose proof (lookup_lt_Some _ _ _ Hl1) as Hi0lt.
    pose proof (lookup_lt_Some _ _ _ Hl2) as Hj0lt.
    destruct (setitem_entry m _ _ i0 j0 (1 - w0)%Q Hshape Hi0lt Hj0lt)
      as (m1 & Hset & Hshape1 & Hentry1).
    destruct (IH m1 Hshape1) as (m' & Hfill & Hshape' & Hentry').
    exists m'. split; [|split; [done|]].
    + unfold fill_matrix in *. cbn [rfold fst snd]. rewrite Hi0. cbn [rbind].
      rewrite Hj0. cbn [rbind]. rewrite Hset. cbn [rbind]. exact Hfill.
    + intros i j a b Hi Hj. rewrite (Hentry' i j a b Hi Hj). cbn [foldl].
      f_equal.
      rewrite Hentry1 by (by eapply lookup_lt_Some).
      unfold write_cost. cbn [fst snd].
      destruct (decide (i = i0 /\ j = j0)) as [[-> ->]|Hne].
      * assert (a = a0) by congruence. assert (b = b0) by congruence.
        subst. by rewrite !Nat.eqb_refl.
      * destruct ((a0 =? a) && (b0 =? b))%nat eqn:Hab; [|done].
        apply andb_true_iff in Hab as [->%Nat.eqb_eq ->%Nat.eqb_eq].
        exfalso. apply Hne. split.
        -- by apply (NoDup_lookup l1 i i0 a).
        -- by apply (NoDup_lookup l2 j j0 b).
Qed.

Lemma rmap_getitem (m : matrix) (n k : nat) (cells : list (nat * nat)) :
  shape m n k ->
  Forall (fun xy => (fst xy < n)%nat /\ (snd xy < k)%nat) cells ->
  rmap (fun xy => getitem m (fst xy) (snd xy)) cells
  = Ok (map (fun xy => entry m (fst xy) (snd xy)) cells).
Proof.
  intros Hshape. induction 1 as [|xy cells [Hx Hy] _ IH]; [done|].
  cbn [rmap map]. rewrite (getitem_entry m n k _ _ Hshape Hx Hy).
  cbn [rbind]. by rewrite IH.
Qed.

Lemma combine_in_range (n k : nat) (rows cols : list nat) :
  Forall (fun i => i < n)%nat rows -> Forall (fun j => j < k)%nat cols ->
  Forall (fun xy => (fst xy < n)%nat /\ (snd xy < k)%nat) (combine rows cols).
Proof.
  intros Hr. revert cols. induction Hr as [|i rows Hi _ IH]; intros cols Hc.
  - constructor.
  - destruct Hc as [|j cols Hj Hc]; [constructor|].
    simpl. constructor; [done|]. by apply IH.
Qed.

(** ** Matchings of peak indices and assignments of matrix cells *)

(** [xs] lists positions of [l], and [ys] the elements found there. *)
Definition positions_of (l : list nat) (xs ys : list nat) : Prop :=
  Forall2 (fun x a => l !! x = Some a) xs ys.

Lemma positions_of_NoDup (l xs ys : list nat) :
  NoDup l -> positions_of l xs ys -> (NoDup xs <-> NoDup ys).
Proof.
  intros Hl Hpos. rewrite !NoDup_alt. split.
  - intros Hxs p q a Hp Hq.
    destruct (Forall2_lookup_r _ _ _ _ _ Hpos Hp) as (x & Hxp & Hx).
    destruct (Forall2_lookup_r _ _ _ _ _ Hpos Hq) as (x' & Hxq & Hx').
    assert (x = x') by by apply (NoDup_lookup l x x' a). subst x'.
    by apply (Hxs p q x).
  - intros Hys p q x Hp Hq.
    destruct (Forall2_lookup_l _ _ _ _ _ Hpos Hp) as (a & Hap & Ha).
    destruct (Forall2_lookup_l _ _ _ _ _ Hpos Hq) as (a' & Haq & Ha').
    assert (a = a') by congruence. subst a'.
    by apply (Hys p q a).
Qed.

Lemma positions_of_range (l xs ys : list nat) :
  positions_of l xs ys ->
  Forall (fun x => x < length l)%nat xs /\ Forall (fun a => a ∈ l) ys.
Proof.
  induction 1 as [|x a xs ys Hx _ [IH1 IH2]]; [split; constructor|].
  split; constructor; try done.
  - by eapply lookup_lt_Some.
  - by eapply list_elem_of_lookup_2.
Qed.

Lemma positions_of_exist (l ys : list nat) :
  Forall (fun a => a ∈ l) ys -> exists xs, positions_of l xs ys.
Proof.
  induction 1 as [|a ys Ha _ [xs IH]]; [exists []; constructor|].
  apply list_elem_of_lookup in Ha as [x Hx].
  exists (x :: xs). by constructor.
Qed.

(** Cells of the matrix and the pairs of peak indices they stand for. *)
Definition cells_of (l1 l2 : list nat) (cells matches : list (nat * nat))
  : Prop :=
  Forall2 (fun xy ab => l1 !! fst xy = Some (fst ab) /\
                        l2 !! snd xy = Some (snd ab)) cells matches.

Lemma cells_of_fst (l1 l2 : list nat) (cells matches : list (nat * nat)) :
  cells_of l1 l2 cells matches ->
  positions_of l1 (map fst cells) (map fst matches).
Proof. induction 1 as [|xy ab ? ? [? ?]]; simpl; by constructor. Qed.

Lemma cells_of_snd (l1 l2 : list nat) (cells matches : list (nat * nat)) :
  cells_of l1 l2 cells matches ->
  positions_of l2 (map snd cells) (map snd matches).
Proof. induction 1 as [|xy ab ? ? [? ?]]; simpl; by constructor. Qed.

Lemma cells_of_combine (l1 l2 xs ys : list nat) (matches : list (nat * nat)) :
  positions_of l1 xs (map fst matches) ->
  positions_of l2 ys (map snd matches) ->
  cells_of l1 l2 (combine xs ys) matches /\
  length xs = length matches /\ length ys = length matches.
Proof.
  revert xs ys. induction matches as [|[a b] matches IH]; intros xs ys H1 H2.
  - apply Forall2_nil_inv_r in H1 as ->. apply Forall2_nil_inv_r in H2 as ->.
    repeat split. constructor.
  - apply Forall2_cons_inv_r in H1 as (x & xs' & Hx & H1' & ->).
    apply Forall2_cons_inv_r in H2 as (y & ys' & Hy & H2' & ->).
    destruct (IH xs' ys' H1' H2') as (Hc & Hlx & Hly).
    simpl. repeat split; [|by rewrite Hlx|by rewrite Hly].
    by constructor.
Qed.

Lemma cells_of_cost (l1 l2 : list nat) (m : matrix) (pairs : list pair)
  (cells matches : list (nat * nat)) :
  (forall i j a b, l1 !! i = Some a -> l2 !! j = Some b ->
                   entry m i j = cell_cost pairs a b) ->
  cells_of l1 l2 cells matches ->
  map (fun xy => entry m (fst xy) (snd xy)) cells
  = map (fun ab => cell_cost pairs (fst ab) (snd ab)) matches.
Proof.
  intros Hentry. induction 1 as [|xy ab ? ? [Hx Hy] _ IH]; simpl; [done|].
  by rewrite (Hentry _ _ _ _ Hx Hy), IH.
Qed.

(** The indices on each side that occur in some candidate pair. *)
Definition a_indices (pairs : list pair) : list nat :=
  map (fun x => fst (fst x)) pairs.

Definition b_indices (pairs : list pair) : list nat :=
  map (fun x => snd (fst x)) pairs.

(** The number of distinct elements of a list. *)
Definition distinct (l : list nat) : nat := length (remove_dups l).

(** A matching over the distinct A-indices and B-indices: pairs (a, b) of
    such indices, no index used twice, as many pairs as the smaller side
    has indices. *)
Definition is_matching (pairs : list pair) (M : list (nat * nat)) : Prop :=
  NoDup (map fst M) /\ NoDup (map snd M) /\
  Forall (fun a => a ∈ a_indices pairs) (map fst M) /\
  Forall (fun b => b ∈ b_indices pairs) (map snd M) /\
  length M = Nat.min (distinct (a_indices pairs)) (distinct (b_indices pairs)).

Definition matching_cost (pairs : list pair) (M : list (nat * nat)) : Q :=
  Qsum (map (fun ab => cell_cost pairs (fst ab) (snd ab)) M).

Definition matching_weight (pairs : list pair) (M : list (nat * nat)) : Q :=
  Qsum (map (fun ab => cell_weight pairs (fst ab) (snd ab)) M).

Lemma matching_cost_weight (pairs : list pair) (M : list (nat * nat)) :
  (inject_Z (Z.of_nat (length M)) - matching_cost pairs M
   == matching_weight pairs M)%Q.
Proof.
  unfold matching_cost, matching_weight. rewrite Qsum_complement.
  apply Qsum_eq. apply Forall_forall. intros [a b] _. cbn [fst snd].
  rewrite cell_cost_weight. ring.
Qed.
Section ScorerProps.

Context `{Runtime}.

(** What [solve] computes, for any list of candidate pairs: it returns;
    the matrix it builds has one row per distinct A-index and one column
    per distinct B-index and holds the cost of each cell; the index arrays
    are what the solver returns for this matrix; [used_matches] translates
    them back to peak indices. *)
Lemma solve_spec (pairs : list pair) :
  exists s,
    solve pairs = Ok s /\
    list1 s = set_to_list (map (fun x => fst (fst x)) pairs) /\
    list2 s = set_to_list (map (fun x => snd (fst x)) pairs) /\
    shape (cost_matrix s) (length (list1 s)) (length (list2 s)) /\
    (forall i j a b, list1 s !! i = Some a -> list2 s !! j = Some b ->
                     entry (cost_matrix s) i j = cell_cost pairs a b) /\
    row_ind s = fst (linear_sum_assignment (cost_matrix s)) /\
    col_ind s = snd (linear_sum_assignment (cost_matrix s)) /\
    total_cost s = assignment_cost (cost_matrix s) (row_ind s) (col_ind s) /\
    Forall2 (fun xy ab => list1 s !! fst xy = Some (fst ab) /\
                          list2 s !! snd xy = Some (snd ab))
            (combine (row_ind s) (col_ind s)) (used_matches s).
Proof.
  unfold solve.
  set (l1 := set_to_list (map (fun x => fst (fst x)) pairs)).
  set (l2 := set_to_list (map (fun x => snd (fst x)) pairs)).
  cbn [fst snd].
  destruct (fill_matrix_spec l1 l2 pairs (ones (length l1) (length l2)))
    as (mtx & Hfill & Hshape & Hentry).
  { apply set_to_list_NoDup. }
  { apply set_to_list_NoDup. }
  { apply shape_ones. }
  { apply Forall_forall. intros p Hp. split.
    - apply set_to_list_elem, list_elem_of_fmap. by exists p.
    - apply set_to_list_elem, list_elem_of_fmap. by exists p. }
  rewrite Hfill. cbn [rbind].
  pose proof (linear_sum_assignment_valid mtx _ _ Hshape)
    as (Hlr & Hlc & Hndr & Hndc & Hr & Hc).
  set (rows := fst (linear_sum_assignment mtx)) in *.
  set (cols := snd (linear_sum_assignment mtx)) in *.
  pose proof (combine_in_range _ _ rows cols Hr Hc) as Hrange.
  unfold getitems. rewrite Hlr, Hlc, Nat.eqb_refl.
  rewrite (rmap_getitem mtx _ _ _ Hshape Hrange). cbn [rbind].
  destruct (rmap_total
              (fun xy => a <- list_getitem l1 (fst xy) ;;
                         b <- list_getitem l2 (snd xy) ;; Ok (a, b))
              (combine rows cols)) as [used Hused].
  { eapply Forall_impl; [exact Hrange|]. intros [x y] [Hx Hy].
    cbn [fst snd] in *. unfold list_getitem.
    destruct (lookup_lt_is_Some_2 l1 x Hx) as [a ->].
    destruct (lookup_lt_is_Some_2 l2 y Hy) as [b ->]. by exists (a, b). }
  rewrite Hused. cbn [rbind]. eexists. split; [reflexivity|].
  cbn [list1 list2 cost_matrix row_ind col_ind total_cost used_matches].
  do 3 (split; [done|]). split; [|do 3 (split; [done|])].
  - intros i j a b Hi Hj. rewrite (Hentry i j a b Hi Hj).
    rewrite entry_ones by (by eapply lookup_lt_Some). done.
  - apply rmap_Ok_Forall2 in Hused.
    eapply Forall2_impl; [exact Hused|]. intros [x y] [a b]. cbn [fst snd].
    unfold list_getitem.
    destruct (l1 !! x) as [a'|]; [|done]. cbn [rbind].
    destruct (l2 !! y) as [b'|]; [|done]. cbn [rbind]. by intros [= -> ->].
Qed.


Lemma set_to_list_length (l : list nat) :
  length (set_to_list l) = distinct l.
Proof.
  unfold distinct. apply Permutation_length.
  apply NoDup_Permutation.
  - apply set_to_list_NoDup.
  - apply NoDup_remove_dups.
  - intros x. by rewrite set_to_list_elem, elem_of_remove_dups.
Qed.

(** The assignment that [solve] returns is a matching, and its total cost
    is the cost that the solver minimized. *)
Lemma solve_matching (pairs : list pair) (s : solved) :
  solve pairs = Ok s ->
  is_matching pairs (used_matches s) /\
  length (used_matches s) = length (row_ind s) /\
  total_cost s = matching_cost pairs (used_matches s).
Proof.
  intros Hs.
  destruct (solve_spec pairs)
    as (s' & Hs' & Hl1 & Hl2 & Hshape & Hentry & Hrow & Hcol & Hcost & Hused).
  assert (s' = s) by congruence. subst s'.
  pose proof (linear_sum_assignment_valid _ _ _ Hshape)
    as (Hlr & Hlc & Hndr & Hndc & Hr & Hc).
  rewrite <- Hrow in Hlr, Hndr, Hr. rewrite <- Hcol in Hlc, Hndc, Hc.
  fold (cells_of (list1 s) (list2 s) (combine (row_ind s) (col_ind s))
                 (used_matches s)) in Hused.
  pose proof (cells_of_fst _ _ _ _ Hused) as Hf.
  pose proof (cells_of_snd _ _ _ _ Hused) as Hsn.
  rewrite map_fst_combine in Hf by congruence.
  rewrite map_snd_combine in Hsn by congruence.
  assert (Hnd1 : NoDup (list1 s)) by (rewrite Hl1; apply set_to_list_NoDup).
  assert (Hnd2 : NoDup (list2 s)) by (rewrite Hl2; apply set_to_list_NoDup).
  assert (Hlen : length (used_matches s) = length (row_ind s)).
  { rewrite <- (Forall2_length _ _ _ Hused), length_combine. lia. }
  split; [|split; [done|]].
  - split; [by apply (positions_of_NoDup _ _ _ Hnd1 Hf)|].
    split; [by apply (positions_of_NoDup _ _ _ Hnd2 Hsn)|].
    split; [|split].
    + eapply Forall_impl; [exact (proj2 (positions_of_range _ _ _ Hf))|].
      intros a. cbn beta. rewrite Hl1. apply set_to_list_elem.
    + eapply Forall_impl; [exact (proj2 (positions_of_range _ _ _ Hsn))|].
      intros b. cbn beta. rewrite Hl2. apply set_to_list_elem.
    + rewrite Hlen, Hlr, Hl1, Hl2, !set_to_list_length. done.
  - rewrite Hcost. unfold assignment_cost, matching_cost. f_equal.
    by apply (cells_of_cost (list1 s) (list2 s)).
Qed.

(** C1.  For every list of candidate pairs (in particular every non-empty
    one) [solve] returns, the assignment it returns is a one-to-one matching
    over the distinct A-indices and the distinct B-indices, complete on the
    smaller side, and among all such matchings it has the least total cost,
    the cost of a cell being [1 - weight] for a candidate pair and [1]
    otherwise; equivalently it has the greatest total weight. *)
Theorem solve_optimal (pairs : list pair) :
  exists s,
    solve pairs = Ok s /\
    is_matching pairs (used_matches s) /\
    total_cost s = matching_cost pairs (used_matches s) /\
    forall M, is_matching pairs M ->
      (matching_cost pairs (used_matches s) <= matching_cost pairs M)%Q /\
      (matching_weight pairs M <= matching_weight pairs (used_matches s))%Q.
Proof.
  destruct (solve_spec pairs)
    as (s & Hs & Hl1 & Hl2 & Hshape & Hentry & Hrow & Hcol & Hcost & Hused).
  exists s. split; [done|].
  destruct (solve_matching pairs s Hs) as (Hmatch & Hlen & Htotal).
  split; [done|]. split; [done|].
  intros M (HndA & HndB & HA & HB & HlenM).
  assert (Hnd1 : NoDup (list1 s)) by (rewrite Hl1; apply set_to_list_NoDup).
  assert (Hnd2 : NoDup (list2 s)) by (rewrite Hl2; apply set_to_list_NoDup).
  destruct (positions_of_exist (list1 s) (map fst M)) as [xs Hxs].
  { eapply Forall_impl; [exact HA|]. intros a. cbn beta.
    rewrite Hl1. apply set_to_list_elem. }
  destruct (positions_of_exist (list2 s) (map snd M)) as [ys Hys].
  { eapply Forall_impl; [exact HB|]. intros b. cbn beta.
    rewrite Hl2. apply set_to_list_elem. }
  destruct (cells_of_combine _ _ _ _ _ Hxs Hys) as (Hcells & Hlx & Hly).
  assert (Hassign : is_assignment (length (list1 s)) (length (list2 s)) xs ys).
  { assert (Hn1 : length (list1 s) = distinct (a_indices pairs))
      by (rewrite Hl1; apply set_to_list_length).
    assert (Hn2 : length (list2 s) = distinct (b_indices pairs))
      by (rewrite Hl2; apply set_to_list_length).
    split; [by rewrite Hlx, HlenM, Hn1, Hn2|].
    split; [by rewrite Hly, HlenM, Hn1, Hn2|].
    split; [by apply (positions_of_NoDup _ _ _ Hnd1 Hxs)|].
    split; [by apply (positions_of_NoDup _ _ _ Hnd2 Hys)|].
    split.
    - exact (proj1 (positions_of_range _ _ _ Hxs)).
    - exact (proj1 (positions_of_range _ _ _ Hys)). }
  pose proof (linear_sum_assignment_optimal _ _ _ _ _ Hshape Hassign) as Hopt.
  rewrite <- Hrow, <- Hcol, <- Hcost, Htotal in Hopt.
  assert (Hcomp : assignment_cost (cost_matrix s) xs ys = matching_cost pairs M).
  { unfold assignment_cost, matching_cost. f_equal.
    by apply (cells_of_cost (list1 s) (list2 s)). }
  rewrite Hcomp in Hopt. split; [done|].
  pose proof (matching_cost_weight pairs M) as HwM.
  pose proof (matching_cost_weight pairs (used_matches s)) as Hwu.
  destruct Hmatch as (_ & _ & _ & _ & HlenU).
  rewrite HlenM in HwM. rewrite HlenU in Hwu. lra.
Qed.

(** *** The input checks *)

Lemma get_peaks_arrays_ok (spectrum1 spectrum2 : array2) :
  spectrum1 <> [] -> spectrum2 <> [] ->
  Forall (fun p => (snd p <= 1)%Q) spectrum1 ->
  Forall (fun p => (snd p <= 1)%Q) spectrum2 ->
  get_peaks_arrays spectrum1 spectrum2 = Ok (spectrum1, spectrum2).
Proof.
  intros H1 H2 Hn1 Hn2. unfold get_peaks_arrays.
  destruct spectrum1 as [|p1 s1]; [done|].
  destruct spectrum2 as [|p2 s2]; [done|].
  assert (Hmax : forall (p : Q * Q) (s : array2),
            Forall (fun p => (snd p <= 1)%Q) (p :: s) ->
            exists m, py_max (map snd (p :: s)) = Ok m /\ Qle_bool m 1 = true).
  { intros p s Hn. cbn [map].
    destruct (py_max_spec (snd p) (map snd s)) as (m & Hm & _ & Hin).
    exists m. split; [done|]. apply Qle_bool_iff.
    change (snd p :: map snd s) with (map snd (p :: s)) in Hin.
    apply list_elem_of_fmap in Hin as (q & -> & Hq).
    rewrite Forall_forall in Hn. by apply Hn. }
  destruct (Hmax p1 s1 Hn1) as (m1 & -> & Hm1).
  destruct (Hmax p2 s2 Hn2) as (m2 & Hpm2 & Hm2).
  cbn [rbind]. rewrite Hm1, Hpm2. cbn [rbind]. by rewrite Hm2.
Qed.

(** C9, amended.  When either spectrum has an empty peak array the scorer
    raises and returns no score.  The exception is the [ValueError] of
    [max()] on an empty sequence, unless spectrum1 has peaks and one of
    its intensities exceeds 1: then it is the [AssertionError] about
    spectrum1 not being normalized. *)
Theorem empty_peaks_raise (tolerance : Q) (spectrum1 spectrum2 : array2) :
  spectrum1 = [] \/ spectrum2 = [] ->
  exists e,
    cosine_hungarian tolerance spectrum1 spectrum2 = Raise e /\
    (e = max_of_empty \/
     (e = AssertionError spectrum1_not_normalized /\
      exists p, p ∈ spectrum1 /\ (1 < snd p)%Q)).
Proof.
  intros Hempty. unfold cosine_hungarian, get_peaks_arrays.
  destruct spectrum1 as [|p1 s1].
  { exists max_of_empty. split; [reflexivity|by left]. }
  destruct Hempty as [?| ->]; [done|].
  cbn [map].
  destruct (py_max_spec (snd p1) (map snd s1)) as (m1 & -> & _ & Hin).
  cbn [rbind]. destruct (Qle_bool m1 1) eqn:Hm1.
  - exists max_of_empty. split; [reflexivity|by left].
  - exists (AssertionError spectrum1_not_normalized).
    split; [reflexivity|]. right. split; [done|].
    change (snd p1 :: map snd s1) with (map snd (p1 :: s1)) in Hin.
    apply list_elem_of_fmap in Hin as (q & -> & Hq).
    exists q. split; [done|]. apply Qnot_le_lt. intros Hle.
    apply Qle_bool_iff in Hle. congruence.
Qed.

(** *** Candidate pairs of the scorer *)

Lemma get_matching_pairs_elem (spec1 spec2 : array2) (tolerance : Q)
  (a b : nat) (w : Q) :
  (a, b, w) ∈ get_matching_pairs spec1 spec2 tolerance <->
  exists pa pb,
    spec1 !! a = Some pa /\ spec2 !! b = Some pb /\
    (Qabs (fst pb - fst pa + 0) <= tolerance)%Q /\
    w = (snd pa * snd pb)%Q.
Proof.
  unfold get_matching_pairs. rewrite sorted_by_weight_desc_perm.
  apply find_pairs_numba_elem.
Qed.

Lemma get_matching_pairs_NoDup (spec1 spec2 : array2) (tolerance : Q) :
  NoDup (map fst (get_matching_pairs spec1 spec2 tolerance)).
Proof.
  unfold get_matching_pairs. rewrite sorted_by_weight_desc_perm.
  apply find_pairs_numba_NoDup.
Qed.

(** The weight at a cell, for the candidate pairs of two spectra: the
    product of the two intensities when the peaks are within tolerance,
    [0] otherwise. *)
Lemma cell_weight_matcher (spec1 spec2 : array2) (tolerance : Q)
  (a b : nat) (pa pb : Q * Q) :
  spec1 !! a = Some pa -> spec2 !! b = Some pb ->
  cell_weight (get_matching_pairs spec1 spec2 tolerance) a b
  = if Qle_bool (Qabs (fst pb - fst pa + 0)) tolerance
    then (snd pa * snd pb)%Q else 0%Q.
Proof.
  intros Ha Hb.
  destruct (Qle_bool (Qabs (fst pb - fst pa + 0)) tolerance) eqn:Htol.
  - apply Qle_bool_iff in Htol.
    apply (cell_weight_candidate _ a b); [apply get_matching_pairs_NoDup|].
    apply get_matching_pairs_elem. by exists pa, pb.
  - destruct (cell_weight_cases (get_matching_pairs spec1 spec2 tolerance) a b)
      as [(_ & Hw & _)|(w & Hin & _)]; [done|].
    apply get_matching_pairs_elem in Hin as (pa' & pb' & Ha' & Hb' & Hle & _).
    assert (pa' = pa) by congruence. assert (pb' = pb) by congruence. subst.
    apply Qle_bool_iff in Hle. congruence.
Qed.

Lemma map_row_seq {B} (g : Q * Q -> B) (spec : array2) :
  map (fun i => g (row spec i)) (seq 0 (length spec)) = map g spec.
Proof.
  apply list_eq. intros i. rewrite !list_lookup_fmap.
  destruct (spec !! i) as [p|] eqn:Hi.
  - rewrite lookup_seq_lt by (by eapply lookup_lt_Some).
    simpl. by rewrite (row_lookup _ _ _ Hi).
  - rewrite lookup_seq_ge; [done|]. by apply lookup_ge_None.
Qed.

Lemma Qsquare_nonneg (d : Q) : (0 <= d * d)%Q.
Proof.
  destruct (Qlt_le_dec d 0) as [Hneg|Hpos].
  - assert (Heq : (d * d == (- d) * (- d))%Q) by ring.
    rewrite Heq. apply Qmult_le_0_compat; lra.
  - by apply Qmult_le_0_compat.
Qed.

(** The square of the intensity of the peak at an index. *)
Definition intensity_sq (spec : array2) (i : nat) : Q :=
  (snd (row spec i) * snd (row spec i))%Q.

Lemma sum_squares_seq (spec : array2) :
  sum_squares spec = Qsum (map (intensity_sq spec) (seq 0 (length spec))).
Proof.
  unfold sum_squares, intensity_sq.
  by rewrite (map_row_seq (fun r => (snd r * snd r)%Q)).
Qed.

Lemma intensity_sq_nonneg (spec : array2) (i : nat) :
  (0 <= intensity_sq spec i)%Q.
Proof. apply Qsquare_nonneg. Qed.

(** The gain of a matching is at most the greater sum of squares, and it
    is not negative when no intensity is. *)
Lemma matching_weight_bounds (spec1 spec2 : array2) (tolerance : Q)
  (M : list (nat * nat)) :
  is_matching (get_matching_pairs spec1 spec2 tolerance) M ->
  (matching_weight (get_matching_pairs spec1 spec2 tolerance) M
   <= py_max2 (sum_squares spec1) (sum_squares spec2))%Q /\
  (Forall (fun p => 0 <= snd p)%Q spec1 ->
   Forall (fun p => 0 <= snd p)%Q spec2 ->
   0 <= matching_weight (get_matching_pairs spec1 spec2 tolerance) M)%Q.
Proof.
  set (pairs := get_matching_pairs spec1 spec2 tolerance).
  intros (HndA & HndB & HA & HB & _).
  assert (Hcell : forall a b,
             (cell_weight pairs a b
              <= (1 # 2) * (intensity_sq spec1 a + intensity_sq spec2 b))%Q /\
             (Forall (fun p => 0 <= snd p)%Q spec1 ->
              Forall (fun p => 0 <= snd p)%Q spec2 ->
              0 <= cell_weight pairs a b)%Q).
  { intros a b.
    pose proof (intensity_sq_nonneg spec1 a) as Hsa.
    pose proof (intensity_sq_nonneg spec2 b) as Hsb.
    destruct (cell_weight_cases pairs a b)
      as [(_ & -> & _)|(w & Hin & -> & _)]; [split; [lra|intros; lra]|].
    apply get_matching_pairs_elem in Hin as (pa & pb & Ha & Hb & _ & ->).
    unfold intensity_sq in *.
    rewrite (row_lookup _ _ _ Ha), (row_lookup _ _ _ Hb) in *. split.
    - pose proof (Qsquare_nonneg (snd pa - snd pb)). lra.
    - intros Hp1 Hp2. rewrite Forall_forall in Hp1, Hp2.
      apply Qmult_le_0_compat.
      + apply Hp1. by eapply list_elem_of_lookup_2.
      + apply Hp2. by eapply list_elem_of_lookup_2. }
  split.
  - assert (Hin1 : map fst M ⊆ seq 0 (length spec1)).
    { intros a Ha. rewrite Forall_forall in HA. apply HA in Ha.
      apply list_elem_of_fmap in Ha as ([[a' b] w] & -> & Hin).
      apply get_matching_pairs_elem in Hin as (pa & pb & Ha & _).
      apply list_elem_of_In, in_seq. apply lookup_lt_Some in Ha. simpl. lia. }
    assert (Hin2 : map snd M ⊆ seq 0 (length spec2)).
    { intros b Hb. rewrite Forall_forall in HB. apply HB in Hb.
      apply list_elem_of_fmap in Hb as ([[a b'] w] & -> & Hin).
      apply get_matching_pairs_elem in Hin as (pa & pb & _ & Hb & _).
      apply list_elem_of_In, in_seq. apply lookup_lt_Some in Hb. simpl. lia. }
    pose proof (Qsum_sub_NoDup (intensity_sq spec1) _ _ HndA Hin1
                  (intensity_sq_nonneg spec1)) as Hs1.
    pose proof (Qsum_sub_NoDup (intensity_sq spec2) _ _ HndB Hin2
                  (intensity_sq_nonneg spec2)) as Hs2.
    rewrite <- sum_squares_seq in Hs1, Hs2.
    rewrite map_map in Hs1, Hs2.
    assert (Hle : (matching_weight pairs M
                   <= Qsum (map (fun ab =>
                                   (1 # 2) * (intensity_sq spec1 (fst ab)
                                              + intensity_sq spec2 (snd ab)))
                                M))%Q).
    { unfold matching_weight. apply Qsum_le. apply Forall_forall.
      intros [a b] _. apply Hcell. }
    rewrite (Qsum_scale (1 # 2)
               (fun ab => intensity_sq spec1 (fst ab)
                          + intensity_sq spec2 (snd ab))%Q) in Hle.
    rewrite (Qsum_plus (fun ab => intensity_sq spec1 (fst ab))
                       (fun ab => intensity_sq spec2 (snd ab))) in Hle.
    destruct (py_max2_spec (sum_squares spec1) (sum_squares spec2))
      as (Hm1 & Hm2 & _).
    lra.
  - intros Hp1 Hp2. unfold matching_weight. apply Qsum_nonneg.
    apply Forall_forall. intros w Hw.
    apply list_elem_of_fmap in Hw as ([a b] & -> & _). by apply Hcell.
Qed.

Lemma sum_squares_nonneg (spec : array2) : (0 <= sum_squares spec)%Q.
Proof.
  unfold sum_squares. apply Qsum_nonneg. apply Forall_forall.
  intros x Hx. apply list_elem_of_fmap in Hx as (p & -> & _).
  apply Qsquare_nonneg.
Qed.

(** C6, amended.  For non-empty peak arrays whose intensities all lie in
    [0, 1] the scorer returns, and the score is a number of the closed
    interval [0, 1] or, when a candidate pair exists but every intensity of
    both spectra is zero, the [nan] of 0/0. *)
Theorem cosine_hungarian_bounds (tolerance : Q) (spectrum1 spectrum2 : array2) :
  spectrum1 <> [] -> spectrum2 <> [] ->
  Forall (fun p => 0 <= snd p <= 1)%Q spectrum1 ->
  Forall (fun p => 0 <= snd p <= 1)%Q spectrum2 ->
  exists score n,
    cosine_hungarian tolerance spectrum1 spectrum2 = Ok (score, n) /\
    ((exists q, score = Finite q /\ (0 <= q <= 1)%Q) \/
     (score = NaN /\
      get_matching_pairs spectrum1 spectrum2 tolerance <> [] /\
      (sum_squares spectrum1 == 0)%Q /\ (sum_squares spectrum2 == 0)%Q)).
Proof.
  intros H1 H2 Hb1 Hb2.
  assert (Hn1 : Forall (fun p => snd p <= 1)%Q spectrum1)
    by (eapply Forall_impl; [exact Hb1|]; by intros p [_ ?]).
  assert (Hn2 : Forall (fun p => snd p <= 1)%Q spectrum2)
    by (eapply Forall_impl; [exact Hb2|]; by intros p [_ ?]).
  assert (Hp1 : Forall (fun p => 0 <= snd p)%Q spectrum1)
    by (eapply Forall_impl; [exact Hb1|]; by intros p [? _]).
  assert (Hp2 : Forall (fun p => 0 <= snd p)%Q spectrum2)
    by (eapply Forall_impl; [exact Hb2|]; by intros p [? _]).
  unfold cosine_hungarian.
  rewrite (get_peaks_arrays_ok _ _ H1 H2 Hn1 Hn2). cbn [rbind fst snd].
  set (pairs := get_matching_pairs spectrum1 spectrum2 tolerance).
  unfold calc_score.
  destruct (0 <? length pairs)%nat eqn:Hlen.
  2:{ eexists _, _. split; [reflexivity|]. left. exists 0%Q.
      split; [done|]. lra. }
  destruct (solve_spec pairs) as (s & Hs & _).
  destruct (solve_matching pairs s Hs) as (Hmatch & Hlen' & Htotal).
  rewrite Hs. cbn [rbind]. eexists _, _. split; [reflexivity|].
  assert (Hgain : (total_gain s == matching_weight pairs (used_matches s))%Q).
  { unfold total_gain. rewrite <- Hlen', Htotal. apply matching_cost_weight. }
  destruct (matching_weight_bounds spectrum1 spectrum2 tolerance _ Hmatch)
    as [Hupper Hlower].
  specialize (Hlower Hp1 Hp2). fold pairs in Hupper, Hlower.
  set (D := py_max2 (sum_squares spectrum1) (sum_squares spectrum2)) in *.
  destruct (py_max2_spec (sum_squares spectrum1) (sum_squares spectrum2))
    as (Hm1 & Hm2 & _). fold D in Hm1, Hm2.
  pose proof (sum_squares_nonneg spectrum1) as Hs1.
  pose proof (sum_squares_nonneg spectrum2) as Hs2.
  unfold np_divide. destruct (Qeq_bool D 0) eqn:HD.
  - apply Qeq_bool_iff in HD. right.
    assert (Hg0 : (total_gain s == 0)%Q) by lra.
    apply Qeq_bool_iff in Hg0. rewrite Hg0.
    split; [done|]. split.
    + intros Hnil. rewrite Hnil in Hlen. discriminate.
    + split; lra.
  - apply Qeq_bool_neq in HD. left. eexists. split; [reflexivity|].
    assert (HDpos : (0 < D)%Q).
    { apply Qnot_le_lt. intros Hle. apply HD. lra. }
    split.
    + apply Qle_shift_div_l; [done|]. lra.
    + apply Qle_shift_div_r; [done|]. lra.
Qed.

(** *** The pairs of the assignment *)

(** C7, amended.  Every pair (a, b) of the assignment that [solve] returns
    joins an A-index and a B-index that each occur in some candidate pair,
    and it is a candidate pair itself unless its cell has cost 1, that is,
    adds nothing to the gain. *)
Theorem used_matches_candidates (pairs : list pair) :
  exists s,
    solve pairs = Ok s /\
    forall a b, (a, b) ∈ used_matches s ->
      a ∈ a_indices pairs /\ b ∈ b_indices pairs /\
      ((exists w, (a, b, w) ∈ pairs) \/
       (cell_cost pairs a b = 1%Q /\ cell_weight pairs a b = 0%Q)).
Proof.
  destruct (solve_spec pairs) as (s & Hs & _). exists s. split; [done|].
  destruct (solve_matching pairs s Hs) as ((_ & _ & HA & HB & _) & _).
  intros a b Hab. rewrite Forall_forall in HA, HB. split; [|split].
  - apply HA. apply list_elem_of_fmap. by exists (a, b).
  - apply HB. apply list_elem_of_fmap. by exists (a, b).
  - destruct (cell_weight_cases pairs a b)
      as [(_ & Hw & Hc)|(w & Hin & _)]; [by right|].
    left. by exists w.
Qed.

End ScorerProps.

(** ** The scorer run with the exact solver *)

(** One peak each, at the same position, intensities 0.6 and 0.6. *)
Definition one_peak : array2 := [(100 # 1, 6 # 10)].

Example cosine_hungarian_identical :
  cosine_hungarian (1 # 10) one_peak one_peak = Ok (Finite (3600 # 3600), 1%nat).
Proof. vm_compute. reflexivity. Qed.

(** No peak of one spectrum within tolerance of a peak of the other. *)
Example cosine_hungarian_no_overlap :
  cosine_hungarian (1 # 10) [(100 # 1, 1 # 1)] [(200 # 1, 1 # 1)]
  = Ok (Finite 0, 0%nat).
Proof. vm_compute. reflexivity. Qed.

(** Two peaks each.  A0 matches B0, A1 matches B0 and B1, A0 does not match
    B1 (their positions differ by 2, the tolerance is 1). *)
Definition spectrum_a : array2 := [(100 # 1, 1 # 10); (101 # 1, 1 # 1)].
Definition spectrum_b : array2 := [(201 # 2, 1 # 1); (102 # 1, 1 # 10)].

Example spectrum_ab_pairs :
  get_matching_pairs spectrum_a spectrum_b 1
  = [(1%nat, 0%nat, ((1 # 1) * (1 # 1))%Q);
     (0%nat, 0%nat, ((1 # 10) * (1 # 1))%Q);
     (1%nat, 1%nat, ((1 # 1) * (1 # 10))%Q)].
Proof. reflexivity. Qed.

Example spectrum_ab_solved :
  exists s,
    solve (get_matching_pairs spectrum_a spectrum_b 1) = Ok s /\
    list1 s = [0; 1]%nat /\ list2 s = [0; 1]%nat /\
    row_ind s = [0; 1]%nat /\ col_ind s = [1; 0]%nat /\
    used_matches s = [(0, 1); (1, 0)]%nat.
Proof. eexists. split; [vm_compute; reflexivity|]. by repeat split. Qed.

Example spectrum_ab_score :
  cosine_hungarian 1 spectrum_a spectrum_b = Ok (Finite (100 # 101), 2%nat).
Proof. vm_compute. reflexivity. Qed.

Lemma cosine_hungarian_bounds_witness :
  spectrum_a <> [] /\ spectrum_b <> [] /\
  Forall (fun p => 0 <= snd p <= 1)%Q spectrum_a /\
  Forall (fun p => 0 <= snd p <= 1)%Q spectrum_b /\
  exists score n,
    cosine_hungarian 1 spectrum_a spectrum_b = Ok (score, n) /\
    ((exists q, score = Finite q /\ (0 <= q <= 1)%Q) \/
     (score = NaN /\
      get_matching_pairs spectrum_a spectrum_b 1 <> [] /\
      (sum_squares spectrum_a == 0)%Q /\ (sum_squares spectrum_b == 0)%Q)).
Proof.
  assert (H1 : spectrum_a <> []) by discriminate.
  assert (H2 : spectrum_b <> []) by discriminate.
  assert (Hb1 : Forall (fun p => 0 <= snd p <= 1)%Q spectrum_a)
    by (repeat constructor; vm_compute; discriminate).
  assert (Hb2 : Forall (fun p => 0 <= snd p <= 1)%Q spectrum_b)
    by (repeat constructor; vm_compute; discriminate).
  do 4 (split; [assumption|]).
  exact (cosine_hungarian_bounds 1 spectrum_a spectrum_b H1 H2 Hb1 Hb2).
Defined.

(** C6, as stated, fails: a negative intensity passes the check
    [max(...) <= 1] and gives a negative score.  Here the only candidate
    pair has weight -0.25; the score is -0.25 / 0.25 = -1. *)
Lemma cosine_hungarian_negative_score :
  ~ (forall (tolerance : Q) (spectrum1 spectrum2 : array2),
       spectrum1 <> [] -> spectrum2 <> [] ->
       Forall (fun p => (snd p <= 1)%Q) spectrum1 ->
       Forall (fun p => (snd p <= 1)%Q) spectrum2 ->
       exists q n,
         cosine_hungarian tolerance spectrum1 spectrum2 = Ok (Finite q, n) /\
         (0 <= q <= 1)%Q).
Proof.
  intros Hclaim.
  destruct (Hclaim (1 # 10) [(100 # 1, -1 # 2)] [(100 # 1, 1 # 2)])
    as (q & n & Hres & Hq0 & _).
  - discriminate.
  - discriminate.
  - repeat constructor; vm_compute; discriminate.
  - repeat constructor; vm_compute; discriminate.
  - assert (Heval : cosine_hungarian (1 # 10) [(100 # 1, -1 # 2)]
                                     [(100 # 1, 1 # 2)]
                    = Ok (Finite (-4 # 4), 1%nat))
      by (vm_compute; reflexivity).
    rewrite Heval in Hres. injection Hres as <- _.
    revert Hq0. vm_compute. intros Hq0. by apply Hq0.
Qed.

(** With all intensities zero the division is 0/0. *)
Example cosine_hungarian_all_zero :
  cosine_hungarian (1 # 10) [(100 # 1, 0 # 1)] [(100 # 1, 0 # 1)]
  = Ok (NaN, 1%nat).
Proof. vm_compute. reflexivity. Qed.

(** C7, as stated, fails: for the spectra above the least-cost assignment
    pairs A0 with B1, which is not a candidate pair, and counts it. *)
Lemma used_matches_not_candidates :
  ~ (forall (pairs : list pair) (s : solved),
       solve pairs = Ok s ->
       forall ab, ab ∈ used_matches s -> ab ∈ map fst pairs).
Proof.
  intros Hclaim.
  destruct spectrum_ab_solved as (s & Hs & _ & _ & _ & _ & Hused).
  specialize (Hclaim _ s Hs (0, 1)%nat).
  rewrite Hused, spectrum_ab_pairs in Hclaim.
  specialize (Hclaim ltac:(by left)). cbn [map fst] in Hclaim.
  repeat (apply elem_of_cons in Hclaim as [Hclaim|Hclaim];
          [discriminate Hclaim|]).
  by apply elem_of_nil in Hclaim.
Qed.

(** The errors that a check of the scorer itself raises are those of its
    two [assert] statements. *)
Definition raised_by_check (e : exn) : Prop :=
  exists msg, e = AssertionError msg.

(** C9, as stated, fails: for an empty spectrum1 no check of the scorer
    fires; the exception comes out of the builtin [max]. *)
Lemma empty_peaks_no_validation :
  ~ (forall (tolerance : Q) (spectrum1 spectrum2 : array2),
       spectrum1 = [] \/ spectrum2 = [] ->
       exists e,
         cosine_hungarian tolerance spectrum1 spectrum2 = Raise e /\
         raised_by_check e).
Proof.
  intros Hclaim.
  destruct (Hclaim (1 # 10) [] one_peak) as (e & He & msg & ->); [by left|].
  discriminate He.
Qed.

Lemma empty_peaks_raise_witness :
  (one_peak = [] \/ @nil (Q * Q) = []) /\
  exists e,
    cosine_hungarian (1 # 10) one_peak [] = Raise e /\
    (e = max_of_empty \/
     (e = AssertionError spectrum1_not_normalized /\
      exists p, p ∈ one_peak /\ (1 < snd p)%Q)).
Proof.
  assert (H1 : one_peak = [] \/ @nil (Q * Q) = []) by (right; reflexivity).
  split; [exact H1|].
  exact (empty_peaks_raise (1 # 10) one_peak [] H1).
Defined.

Example empty_spectrum2_unnormalized_spectrum1 :
  cosine_hungarian (1 # 10) [(100 # 1, 2 # 1)] []
  = Raise (AssertionError spectrum1_not_normalized).
Proof. reflexivity. Qed.

(** ** Further properties of the matcher and the scorer *)

(** X10.  A larger tolerance keeps every candidate pair: the pairs found
    with a tolerance are among those found with any greater one. *)
Theorem find_pairs_numba_monotone (spec1 spec2 : array2)
  (tolerance tolerance' shift : Q) (p : pair) :
  (tolerance <= tolerance')%Q ->
  p ∈ find_pairs_numba spec1 spec2 tolerance shift ->
  p ∈ find_pairs_numba spec1 spec2 tolerance' shift.
Proof.
  intros Hle. destruct p as [[i j] w]. rewrite !find_pairs_numba_elem.
  intros (a & b & Ha & Hb & Htol & ->). exists a, b.
  repeat split; try done. lra.
Qed.

Lemma find_pairs_numba_monotone_witness :
  (1 # 10 <= 1)%Q /\
  (0%nat, 0%nat, ((6 # 10) * (6 # 10))%Q)
    ∈ find_pairs_numba [(100 # 1, 6 # 10)] [(100 # 1, 6 # 10)] (1 # 10) 0 /\
  (0%nat, 0%nat, ((6 # 10) * (6 # 10))%Q)
    ∈ find_pairs_numba [(100 # 1, 6 # 10)] [(100 # 1, 6 # 10)] 1 0.
Proof.
  assert (H1 : (1 # 10 <= 1)%Q) by (vm_compute; discriminate).
  assert (H2 : (0%nat, 0%nat, ((6 # 10) * (6 # 10))%Q)
                 ∈ find_pairs_numba [(100 # 1, 6 # 10)] [(100 # 1, 6 # 10)]
                                    (1 # 10) 0)
    by (vm_compute; left).
  split; [exact H1|]. split; [exact H2|].
  exact (find_pairs_numba_monotone _ _ _ _ _ _ H1 H2).
Defined.

(** X11.  With a negative tolerance the matcher finds no pair, whatever
    the spectra and the shift. *)
Theorem find_pairs_numba_negative_tolerance (spec1 spec2 : array2)
  (tolerance shift : Q) :
  (tolerance < 0)%Q -> find_pairs_numba spec1 spec2 tolerance shift = [].
Proof.
  intros Hneg.
  destruct (find_pairs_numba spec1 spec2 tolerance shift)
    as [|[[i j] w] rest] eqn:Hpairs; [done|].
  assert (Hin : (i, j, w) ∈ find_pairs_numba spec1 spec2 tolerance shift)
    by (rewrite Hpairs; left).
  apply find_pairs_numba_elem in Hin as (a & b & _ & _ & Htol & _).
  pose proof (Qabs_nonneg (fst b - fst a + shift)). lra.
Qed.

Lemma find_pairs_numba_negative_tolerance_witness :
  (-1 # 10 < 0)%Q /\
  find_pairs_numba [(100 # 1, 6 # 10)] [(100 # 1, 6 # 10)] (-1 # 10) 0 = [].
Proof.
  assert (H1 : (-1 # 10 < 0)%Q) by reflexivity.
  split; [exact H1|].
  exact (find_pairs_numba_negative_tolerance _ _ _ _ H1).
Defined.

Definition weight_ge (x y : pair) : Prop := (snd y <= snd x)%Q.

Lemma insert_desc_sorted (x : pair) (l : list pair) :
  Sorted weight_ge l -> Sorted weight_ge (insert_desc x l).
Proof.
  induction 1 as [|y l Hs IH Hhd]; simpl.
  - by repeat constructor.
  - destruct (Qle_bool (snd y) (snd x)) eqn:Hle.
    + apply Qle_bool_iff in Hle. by repeat constructor.
    + assert (Hlt : (snd x < snd y)%Q).
      { apply Qnot_le_lt. intros Hc. apply Qle_bool_iff in Hc. congruence. }
      constructor; [done|].
      destruct l as [|z l]; simpl in *.
      * constructor. unfold weight_ge. lra.
      * destruct (Qle_bool (snd z) (snd x)).
        -- constructor. unfold weight_ge. lra.
        -- inversion Hhd; subst. by constructor.
Qed.

(** X12.  The candidate pairs handed to [calc_score] are those of the
    matcher (with shift 0), reordered so that the weights never
    increase along the list. *)
Theorem get_matching_pairs_sorted (spec1 spec2 : array2) (tolerance : Q) :
  get_matching_pairs spec1 spec2 tolerance
  ≡ₚ find_pairs_numba spec1 spec2 tolerance 0 /\
  Sorted weight_ge (get_matching_pairs spec1 spec2 tolerance).
Proof.
  unfold get_matching_pairs. split; [apply sorted_by_weight_desc_perm|].
  induction (find_pairs_numba spec1 spec2 tolerance 0) as [|x l IH]; simpl.
  - constructor.
  - by apply insert_desc_sorted.
Qed.

(** [all(x <= 1 for x in spec[:, 1])] *)
Definition normalized (spec : array2) : bool :=
  forallb (fun p => Qle_bool (snd p) 1) spec.

Lemma py_max_le_1 (p : Q * Q) (spec : array2) :
  exists m, py_max (map snd (p :: spec)) = Ok m /\
            Qle_bool m 1 = normalized (p :: spec).
Proof.
  cbn [map]. destruct (py_max_spec (snd p) (map snd spec)) as (m & Hm & Hub & Hin).
  exists m. split; [done|].
  change (snd p :: map snd spec) with (map snd (p :: spec)) in *.
  unfold normalized. destruct (forallb _ (p :: spec)) eqn:Hall.
  - apply Qle_bool_iff. rewrite forallb_forall in Hall.
    apply list_elem_of_fmap in Hin as (q & -> & Hq).
    apply Qle_bool_iff, Hall. by apply list_elem_of_In.
  - destruct (Qle_bool m 1) eqn:Hm1; [|done].
    apply Qle_bool_iff in Hm1.
    assert (Hall' : forallb (fun p => Qle_bool (snd p) 1) (p :: spec) = true);
      [|congruence].
    apply forallb_forall. intros q Hq. apply Qle_bool_iff.
    rewrite Forall_forall in Hub.
    assert (snd q <= m)%Q.
    { apply Hub. apply list_elem_of_fmap. exists q.
      split; [done|by apply list_elem_of_In]. }
    lra.
Qed.

Section ScorerMore.

Context `{Runtime}.

(** X13.  For two spectra with peaks, the scorer first checks spectrum1,
    then spectrum2: it raises the [AssertionError] of the first spectrum
    that has an intensity above 1, and computes the score from the
    candidate pairs only when neither has one. *)
Theorem cosine_hungarian_checks (tolerance : Q) (spectrum1 spectrum2 : array2) :
  spectrum1 <> [] -> spectrum2 <> [] ->
  cosine_hungarian tolerance spectrum1 spectrum2
  = if negb (normalized spectrum1)
    then Raise (AssertionError spectrum1_not_normalized)
    else if negb (normalized spectrum2)
         then Raise (AssertionError spectrum2_not_normalized)
         else calc_score spectrum1 spectrum2
                (get_matching_pairs spectrum1 spectrum2 tolerance).
Proof.
  intros H1 H2. destruct spectrum1 as [|p1 s1]; [done|].
  destruct spectrum2 as [|p2 s2]; [done|].
  unfold cosine_hungarian, get_peaks_arrays.
  destruct (py_max_le_1 p1 s1) as (m1 & Hm1 & Hn1).
  destruct (py_max_le_1 p2 s2) as (m2 & Hm2 & Hn2).
  rewrite Hm1. cbn [rbind]. rewrite Hn1.
  destruct (normalized (p1 :: s1)); [|done]. cbn [negb].
  rewrite Hm2. cbn [rbind]. rewrite Hn2.
  by destruct (normalized (p2 :: s2)).
Qed.

(** Among all matchings the one that [solve] returns has the greatest
    total weight. *)
Lemma solve_greatest_weight (pairs : list pair) (s : solved)
  (M : list (nat * nat)) :
  solve pairs = Ok s -> is_matching pairs M ->
  (matching_weight pairs M <= matching_weight pairs (used_matches s))%Q.
Proof.
  intros Hs (HndA & HndB & HA & HB & HlenM).
  destruct (solve_spec pairs)
    as (s' & Hs' & Hl1 & Hl2 & Hshape & Hentry & Hrow & Hcol & Hcost & Hused).
  assert (s' = s) by congruence. subst s'.
  destruct (solve_matching pairs s Hs) as (Hmatch & Hlen & Htotal).
  assert (Hnd1 : NoDup (list1 s)) by (rewrite Hl1; apply set_to_list_NoDup).
  assert (Hnd2 : NoDup (list2 s)) by (rewrite Hl2; apply set_to_list_NoDup).
  assert (Hn1 : length (list1 s) = distinct (a_indices pairs))
    by (rewrite Hl1; apply set_to_list_length).
  assert (Hn2 : length (list2 s) = distinct (b_indices pairs))
    by (rewrite Hl2; apply set_to_list_length).
  destruct (positions_of_exist (list1 s) (map fst M)) as [xs Hxs].
  { eapply Forall_impl; [exact HA|]. intros a. cbn beta.
    rewrite Hl1. apply set_to_list_elem. }
  destruct (positions_of_exist (list2 s) (map snd M)) as [ys Hys].
  { eapply Forall_impl; [exact HB|]. intros b. cbn beta.
    rewrite Hl2. apply set_to_list_elem. }
  destruct (cells_of_combine _ _ _ _ _ Hxs Hys) as (Hcells & Hlx & Hly).
  assert (Hassign : is_assignment (length (list1 s)) (length (list2 s)) xs ys).
  { split; [by rewrite Hlx, HlenM, Hn1, Hn2|].
    split; [by rewrite Hly, HlenM, Hn1, Hn2|].
    split; [by apply (positions_of_NoDup _ _ _ Hnd1 Hxs)|].
    split; [by apply (positions_of_NoDup _ _ _ Hnd2 Hys)|].
    split.
    - exact (proj1 (positions_of_range _ _ _ Hxs)).
    - exact (proj1 (positions_of_range _ _ _ Hys)). }
  pose proof (linear_sum_assignment_optimal _ _ _ _ _ Hshape Hassign) as Hopt.
  rewrite <- Hrow, <- Hcol, <- Hcost, Htotal in Hopt.
  assert (Hcomp : assignment_cost (cost_matrix s) xs ys = matching_cost pairs M).
  { unfold assignment_cost, matching_cost. f_equal.
    by apply (cells_of_cost (list1 s) (list2 s)). }
  rewrite Hcomp in Hopt.
  pose proof (matching_cost_weight pairs M) as HwM.
  pose proof (matching_cost_weight pairs (used_matches s)) as Hwu.
  destruct Hmatch as (_ & _ & _ & _ & HlenU).
  rewrite HlenM in HwM. rewrite HlenU in Hwu. lra.
Qed.

Lemma a_indices_range (spec1 spec2 : array2) (tolerance : Q) (a : nat) :
  a ∈ a_indices (get_matching_pairs spec1 spec2 tolerance) ->
  exists pa, spec1 !! a = Some pa.
Proof.
  intros Ha. apply list_elem_of_fmap in Ha as ([[a' b] w] & -> & Hin).
  apply get_matching_pairs_elem in Hin as (pa & pb & Ha & _). by exists pa.
Qed.

Lemma b_indices_range (spec1 spec2 : array2) (tolerance : Q) (b : nat) :
  b ∈ b_indices (get_matching_pairs spec1 spec2 tolerance) ->
  exists pb, spec2 !! b = Some pb.
Proof.
  intros Hb. apply list_elem_of_fmap in Hb as ([[a b'] w] & -> & Hin).
  apply get_matching_pairs_elem in Hin as (pa & pb & _ & Hb & _). by exists pb.
Qed.

(** The cost at a cell, for the candidate pairs of two spectra. *)
Lemma cell_cost_matcher (spec1 spec2 : array2) (tolerance : Q)
  (a b : nat) (pa pb : Q * Q) :
  spec1 !! a = Some pa -> spec2 !! b = Some pb ->
  cell_cost (get_matching_pairs spec1 spec2 tolerance) a b
  = if Qle_bool (Qabs (fst pb - fst pa + 0)) tolerance
    then (1 - snd pa * snd pb)%Q else 1%Q.
Proof.
  intros Ha Hb.
  destruct (Qle_bool (Qabs (fst pb - fst pa + 0)) tolerance) eqn:Htol.
  - apply Qle_bool_iff in Htol.
    apply (cell_weight_candidate _ a b); [apply get_matching_pairs_NoDup|].
    apply get_matching_pairs_elem. by exists pa, pb.
  - destruct (cell_weight_cases (get_matching_pairs spec1 spec2 tolerance) a b)
      as [(_ & _ & Hc)|(w & Hin & _)]; [done|].
    apply get_matching_pairs_elem in Hin as (pa' & pb' & Ha' & Hb' & Hle & _).
    assert (pa' = pa) by congruence. assert (pb' = pb) by congruence. subst.
    apply Qle_bool_iff in Hle. congruence.
Qed.

(** C2, amended.  For two spectra that pass the input checks (peaks
    present, intensities at most 1): when there is no candidate pair the
    result is exactly (0.0, 0).  When there is one, the result is the total
    gain divided by max(sum of squared intensities of A, of B), with the
    number of used matches; the gain is the number of used matches minus
    the total cost and equals, in exact arithmetic, the sum of the weights
    at the matched cells; the matched cells form a complete one-to-one
    matching of greatest total weight; and the weight at a cell is the
    product of the two intensities when the peaks are within tolerance
    and 0 otherwise. *)
Theorem cosine_hungarian_score (tolerance : Q) (spectrum1 spectrum2 : array2) :
  spectrum1 <> [] -> spectrum2 <> [] ->
  Forall (fun p => (snd p <= 1)%Q) spectrum1 ->
  Forall (fun p => (snd p <= 1)%Q) spectrum2 ->
  (get_matching_pairs spectrum1 spectrum2 tolerance = [] ->
   cosine_hungarian tolerance spectrum1 spectrum2 = Ok (Finite 0, 0%nat)) /\
  (get_matching_pairs spectrum1 spectrum2 tolerance <> [] ->
   exists s,
     solve (get_matching_pairs spectrum1 spectrum2 tolerance) = Ok s /\
     cosine_hungarian tolerance spectrum1 spectrum2
     = Ok (np_divide (total_gain s)
                     (py_max2 (sum_squares spectrum1) (sum_squares spectrum2)),
           length (used_matches s)) /\
     total_gain s
     = (inject_Z (Z.of_nat (length (used_matches s))) - total_cost s)%Q /\
     total_cost s
     = matching_cost (get_matching_pairs spectrum1 spectrum2 tolerance)
                     (used_matches s) /\
     (total_gain s
      == matching_weight (get_matching_pairs spectrum1 spectrum2 tolerance)
                         (used_matches s))%Q /\
     is_matching (get_matching_pairs spectrum1 spectrum2 tolerance)
                 (used_matches s) /\
     (forall M,
        is_matching (get_matching_pairs spectrum1 spectrum2 tolerance) M ->
        (matching_weight (get_matching_pairs spectrum1 spectrum2 tolerance) M
         <= matching_weight (get_matching_pairs spectrum1 spectrum2 tolerance)
                            (used_matches s))%Q) /\
     (forall a b pa pb,
        spectrum1 !! a = Some pa -> spectrum2 !! b = Some pb ->
        cell_weight (get_matching_pairs spectrum1 spectrum2 tolerance) a b
        = if Qle_bool (Qabs (fst pb - fst pa + 0)) tolerance
          then (snd pa * snd pb)%Q else 0%Q)).
Proof.
  intros H1 H2 Hn1 Hn2. unfold cosine_hungarian.
  rewrite (get_peaks_arrays_ok _ _ H1 H2 Hn1 Hn2). cbn [rbind fst snd].
  set (pairs := get_matching_pairs spectrum1 spectrum2 tolerance).
  unfold calc_score. split.
  - intros ->. reflexivity.
  - intros Hne. destruct pairs as [|p pairs'] eqn:Hpairs; [done|].
    rewrite <- Hpairs. replace (0 <? length pairs)%nat with true
      by (by rewrite Hpairs).
    destruct (solve_spec pairs) as (s & Hs & _).
    destruct (solve_matching pairs s Hs) as (Hmatch & Hlen & Htotal).
    exists s. rewrite Hs. cbn [rbind]. split; [done|]. split; [done|].
    split; [unfold total_gain; by rewrite <- Hlen|].
    split; [done|]. split.
    { unfold total_gain. rewrite <- Hlen, Htotal. apply matching_cost_weight. }
    split; [done|]. split.
    + intros M HM. by apply solve_greatest_weight.
    + intros a b pa pb Ha Hb. unfold pairs. by apply cell_weight_matcher.
Qed.

(** X14.  The matrix that [calc_score] hands to the solver has one row per
    distinct matched peak of spectrum 1 and one column per distinct
    matched peak of spectrum 2; its entry for two peaks is
    1 - intensity1 * intensity2 when the peaks are within tolerance and 1
    when they are not. *)
Theorem cost_matrix_entries (spec1 spec2 : array2) (tolerance : Q) :
  exists s,
    solve (get_matching_pairs spec1 spec2 tolerance) = Ok s /\
    shape (cost_matrix s)
          (distinct (a_indices (get_matching_pairs spec1 spec2 tolerance)))
          (distinct (b_indices (get_matching_pairs spec1 spec2 tolerance))) /\
    forall i j a b,
      list1 s !! i = Some a -> list2 s !! j = Some b ->
      exists pa pb,
        spec1 !! a = Some pa /\ spec2 !! b = Some pb /\
        entry (cost_matrix s) i j
        = if Qle_bool (Qabs (fst pb - fst pa + 0)) tolerance
          then (1 - snd pa * snd pb)%Q else 1%Q.
Proof.
  set (pairs := get_matching_pairs spec1 spec2 tolerance).
  destruct (solve_spec pairs)
    as (s & Hs & Hl1 & Hl2 & Hshape & Hentry & _).
  exists s. split; [done|]. split.
  - rewrite Hl1, Hl2, !set_to_list_length in Hshape. exact Hshape.
  - intros i j a b Hi Hj.
    assert (Ha : a ∈ a_indices pairs).
    { unfold a_indices. apply set_to_list_elem. rewrite <- Hl1.
      by eapply list_elem_of_lookup_2. }
    assert (Hb : b ∈ b_indices pairs).
    { unfold b_indices. apply set_to_list_elem. rewrite <- Hl2.
      by eapply list_elem_of_lookup_2. }
    apply a_indices_range in Ha as [pa Ha].
    apply b_indices_range in Hb as [pb Hb].
    exists pa, pb. split; [done|]. split; [done|].
    rewrite (Hentry i j a b Hi Hj). by apply cell_cost_matcher.
Qed.

Lemma distinct_le (l : list nat) (n : nat) :
  (forall x, x ∈ l -> x < n)%nat -> (distinct l <= n)%nat.
Proof.
  intros Hl. unfold distinct.
  transitivity (length (seq 0 n)); [|by rewrite length_seq].
  apply submseteq_length, NoDup_submseteq; [apply NoDup_remove_dups|].
  intros x Hx. rewrite elem_of_remove_dups in Hx.
  apply list_elem_of_In, in_seq. specialize (Hl x Hx). lia.
Qed.

(** X15.  The number of matches that the scorer returns is the smaller of
    the number of distinct spectrum-1 peaks and the number of distinct
    spectrum-2 peaks that occur in a candidate pair; it never exceeds the
    number of peaks of either spectrum. *)
Theorem cosine_hungarian_match_count (tolerance : Q)
  (spectrum1 spectrum2 : array2) :
  spectrum1 <> [] -> spectrum2 <> [] ->
  Forall (fun p => (snd p <= 1)%Q) spectrum1 ->
  Forall (fun p => (snd p <= 1)%Q) spectrum2 ->
  exists score n,
    cosine_hungarian tolerance spectrum1 spectrum2 = Ok (score, n) /\
    n = Nat.min
          (distinct (a_indices
                       (get_matching_pairs spectrum1 spectrum2 tolerance)))
          (distinct (b_indices
                       (get_matching_pairs spectrum1 spectrum2 tolerance))) /\
    (n <= Nat.min (length spectrum1) (length spectrum2))%nat.
Proof.
  intros H1 H2 Hn1 Hn2. unfold cosine_hungarian.
  rewrite (get_peaks_arrays_ok _ _ H1 H2 Hn1 Hn2). cbn [rbind fst snd].
  set (pairs := get_matching_pairs spectrum1 spectrum2 tolerance).
  assert (Hda : (distinct (a_indices pairs) <= length spectrum1)%nat).
  { apply distinct_le. intros a Ha. apply a_indices_range in Ha as [pa Ha].
    by eapply lookup_lt_Some. }
  assert (Hdb : (distinct (b_indices pairs) <= length spectrum2)%nat).
  { apply distinct_le. intros b Hb. apply b_indices_range in Hb as [pb Hb].
    by eapply lookup_lt_Some. }
  unfold calc_score. destruct (0 <? length pairs)%nat eqn:Hlen.
  - destruct (solve_spec pairs) as (s & Hs & _).
    destruct (solve_matching pairs s Hs) as ((_ & _ & _ & _ & HlenU) & _).
    rewrite Hs. cbn [rbind]. eexists _, _. split; [reflexivity|].
    split; [done|]. rewrite HlenU. lia.
  - apply Nat.ltb_ge in Hlen. destruct pairs as [|p pairs']; [|simpl in Hlen; lia].
    eexists _, _. split; [reflexivity|]. split; [reflexivity|]. simpl. lia.
Qed.

(** X16.  When no peak of spectrum 2 lies within tolerance of a peak of
    spectrum 1, the result is exactly (0.0, 0). *)
Theorem cosine_hungarian_no_match (tolerance : Q)
  (spectrum1 spectrum2 : array2) :
  spectrum1 <> [] -> spectrum2 <> [] ->
  Forall (fun p => (snd p <= 1)%Q) spectrum1 ->
  Forall (fun p => (snd p <= 1)%Q) spectrum2 ->
  (forall pa pb, pa ∈ spectrum1 -> pb ∈ spectrum2 ->
                 (tolerance < Qabs (fst pb - fst pa + 0))%Q) ->
  cosine_hungarian tolerance spectrum1 spectrum2 = Ok (Finite 0, 0%nat).
Proof.
  intros H1 H2 Hn1 Hn2 Hfar. unfold cosine_hungarian.
  rewrite (get_peaks_arrays_ok _ _ H1 H2 Hn1 Hn2). cbn [rbind fst snd].
  destruct (get_matching_pairs spectrum1 spectrum2 tolerance)
    as [|[[a b] w] rest] eqn:Hpairs; [reflexivity|].
  assert (Hin : (a, b, w) ∈ get_matching_pairs spectrum1 spectrum2 tolerance)
    by (rewrite Hpairs; left).
  apply get_matching_pairs_elem in Hin as (pa & pb & Ha & Hb & Htol & _).
  apply list_elem_of_lookup_2 in Ha, Hb.
  specialize (Hfar pa pb Ha Hb). lra.
Qed.

Lemma distinct_ext (l l' : list nat) :
  (forall x, x ∈ l <-> x ∈ l') -> distinct l = distinct l'.
Proof.
  intros Hext. unfold distinct. apply Permutation_length.
  apply NoDup_Permutation; [apply NoDup_remove_dups..|].
  intros x. by rewrite !elem_of_remove_dups.
Qed.

Lemma py_max2_same (a : Q) : py_max2 a a = a.
Proof. unfold py_max2. by destruct (Qltb a a). Qed.

Lemma within_self (x tolerance : Q) :
  (0 <= tolerance)%Q -> Qle_bool (Qabs (x - x + 0)) tolerance = true.
Proof.
  intros Htol. apply Qle_bool_iff.
  assert (Hz : (x - x + 0 == 0)%Q) by ring.
  rewrite Hz. exact Htol.
Qed.

(** X17.  A spectrum compared with itself scores 1 and matches every peak:
    for a spectrum with peaks, intensities at most 1 and not all zero, and
    a tolerance that is not negative, the score equals 1 and the number of
    matches is the number of peaks. *)
Theorem cosine_hungarian_self (tolerance : Q) (spectrum : array2) :
  spectrum <> [] ->
  Forall (fun p => (snd p <= 1)%Q) spectrum ->
  (0 <= tolerance)%Q ->
  ~ (sum_squares spectrum == 0)%Q ->
  exists q,
    cosine_hungarian tolerance spectrum spectrum
    = Ok (Finite q, length spectrum) /\ (q == 1)%Q.
Proof.
  intros Hne Hn Htol Hnz.
  set (pairs := get_matching_pairs spectrum spectrum tolerance).
  set (n := length spectrum).
  assert (Hdiag : forall i, (i < n)%nat -> exists w, (i, i, w) ∈ pairs).
  { intros i Hi. destruct (lookup_lt_is_Some_2 spectrum i Hi) as [pa Ha].
    exists (snd pa * snd pa)%Q. apply get_matching_pairs_elem.
    exists pa, pa. repeat split; try done.
    apply Qle_bool_iff. by apply within_self. }
  assert (Hseq : forall a, a ∈ seq 0 n <-> (a < n)%nat).
  { intros a. rewrite list_elem_of_In, in_seq. lia. }
  assert (HA : forall a, a ∈ a_indices pairs <-> a ∈ seq 0 n).
  { intros a. rewrite Hseq. split.
    - intros Ha. apply a_indices_range in Ha as [pa Ha].
      by apply lookup_lt_Some in Ha.
    - intros Ha. destruct (Hdiag a Ha) as [w Hw].
      apply list_elem_of_fmap. by exists (a, a, w). }
  assert (HB : forall b, b ∈ b_indices pairs <-> b ∈ seq 0 n).
  { intros b. rewrite Hseq. split.
    - intros Hb. apply b_indices_range in Hb as [pb Hb].
      by apply lookup_lt_Some in Hb.
    - intros Hb. destruct (Hdiag b Hb) as [w Hw].
      apply list_elem_of_fmap. by exists (b, b, w). }
  assert (Hdn : distinct (seq 0 n) = n).
  { unfold distinct. transitivity (length (seq 0 n)); [|apply length_seq].
    apply Permutation_length, NoDup_Permutation;
      [apply NoDup_remove_dups|apply NoDup_seq|].
    intros x. by rewrite elem_of_remove_dups. }
  assert (Hda : distinct (a_indices pairs) = n)
    by (rewrite (distinct_ext _ _ HA); exact Hdn).
  assert (Hdb : distinct (b_indices pairs) = n)
    by (rewrite (distinct_ext _ _ HB); exact Hdn).
  set (M := map (fun i => (i, i)) (seq 0 n)).
  assert (Hfst : map fst M = seq 0 n).
  { unfold M. rewrite map_map. apply map_id. }
  assert (Hsnd : map snd M = seq 0 n).
  { unfold M. rewrite map_map. apply map_id. }
  assert (HM : is_matching pairs M).
  { split; [rewrite Hfst; apply NoDup_seq|].
    split; [rewrite Hsnd; apply NoDup_seq|].
    split; [rewrite Hfst; apply Forall_forall; intros a; apply HA|].
    split; [rewrite Hsnd; apply Forall_forall; intros b; apply HB|].
    unfold M. rewrite length_map, length_seq, Hda, Hdb. lia. }
  assert (HwM : matching_weight pairs M = sum_squares spectrum).
  { unfold matching_weight, M. rewrite map_map, sum_squares_seq.
    fold n. f_equal. apply map_ext_in. intros i Hi. cbn [fst snd].
    apply in_seq in Hi.
    destruct (lookup_lt_is_Some_2 spectrum i) as [pa Ha]; [fold n; lia|].
    unfold pairs. rewrite (cell_weight_matcher _ _ _ i i pa pa Ha Ha).
    rewrite within_self by done. unfold intensity_sq.
    by rewrite (row_lookup _ _ _ Ha). }
  unfold cosine_hungarian.
  rewrite (get_peaks_arrays_ok _ _ Hne Hne Hn Hn). cbn [rbind fst snd].
  fold pairs. unfold calc_score.
  assert (Hlen : (0 <? length pairs)%nat = true).
  { destruct spectrum as [|p0 rest]; [done|].
    destruct (Hdiag 0%nat) as [w Hw]; [unfold n; simpl; lia|].
    destruct pairs; [by apply elem_of_nil in Hw|done]. }
  rewrite Hlen.
  destruct (solve_spec pairs) as (s & Hs & _).
  destruct (solve_matching pairs s Hs) as (Hmatch & Hlen' & Htotal).
  rewrite Hs. cbn [rbind].
  assert (Hgain : (total_gain s == sum_squares spectrum)%Q).
  { assert (Hg : (total_gain s == matching_weight pairs (used_matches s))%Q).
    { unfold total_gain. rewrite <- Hlen', Htotal. apply matching_cost_weight. }
    pose proof (solve_greatest_weight pairs s M Hs HM) as Hge.
    destruct (matching_weight_bounds spectrum spectrum tolerance _ Hmatch)
      as [Hle _]. fold pairs in Hle.
    rewrite py_max2_same in Hle. rewrite HwM in Hge. lra. }
  rewrite py_max2_same. unfold np_divide.
  destruct (Qeq_bool (sum_squares spectrum) 0) eqn:HD.
  { apply Qeq_bool_iff in HD. done. }
  destruct Hmatch as (_ & _ & _ & _ & HlenU).
  rewrite HlenU, Hda, Hdb, Nat.min_id.
  eexists. split; [reflexivity|].
  rewrite Hgain. unfold Qdiv. by apply Qmult_inv_r.
Qed.

(** Two results of a division are the same: the same special value, or
    equal numbers. *)
Definition same_float (x y : float) : Prop :=
  match x, y with
  | Finite p, Finite q => (p == q)%Q
  | NaN, NaN => True
  | Inf a, Inf b => a = b
  | _, _ => False
  end.

Lemma np_divide_proper (x x' y y' : Q) :
  (x == x')%Q -> (y == y')%Q -> same_float (np_divide x y) (np_divide x' y').
Proof.
  intros Hx Hy. unfold np_divide.
  assert (Hy0 : Qeq_bool y 0 = Qeq_bool y' 0).
  { destruct (Qeq_bool y 0) eqn:H1, (Qeq_bool y' 0) eqn:H2; try done.
    - apply Qeq_bool_iff in H1. apply Qeq_bool_neq in H2. lra.
    - apply Qeq_bool_iff in H2. apply Qeq_bool_neq in H1. lra. }
  assert (Hx0 : Qeq_bool x 0 = Qeq_bool x' 0).
  { destruct (Qeq_bool x 0) eqn:H1, (Qeq_bool x' 0) eqn:H2; try done.
    - apply Qeq_bool_iff in H1. apply Qeq_bool_neq in H2. lra.
    - apply Qeq_bool_iff in H2. apply Qeq_bool_neq in H1. lra. }
  assert (Hlt : Qltb x 0 = Qltb x' 0).
  { destruct (Qltb x 0) eqn:H1, (Qltb x' 0) eqn:H2; try done.
    - apply Qltb_lt in H1. apply Qltb_ge in H2. lra.
    - apply Qltb_lt in H2. apply Qltb_ge in H1. lra. }
  rewrite <- Hy0, <- Hx0, <- Hlt.
  destruct (Qeq_bool y 0); [by destruct (Qeq_bool x 0)|].
  simpl. by rewrite Hx, Hy.
Qed.

Lemma py_max2_swap (a b : Q) : (py_max2 a b == py_max2 b a)%Q.
Proof.
  destruct (py_max2_spec a b) as (H1 & H2 & H3).
  destruct (py_max2_spec b a) as (H4 & H5 & H6).
  revert H1 H2 H4 H5.
  destruct H3 as [-> | ->], H6 as [-> | ->]; intros; lra.
Qed.

Lemma within_swap (x y tolerance : Q) :
  Qle_bool (Qabs (x - y + 0)) tolerance = Qle_bool (Qabs (y - x + 0)) tolerance.
Proof.
  assert (Habs : (Qabs (x - y + 0) == Qabs (y - x + 0))%Q).
  { rewrite <- (Qabs_opp (y - x + 0)).
    assert (Hz : (- (y - x + 0) == x - y + 0)%Q) by ring. by rewrite Hz. }
  destruct (Qle_bool (Qabs (x - y + 0)) tolerance) eqn:H1,
           (Qle_bool (Qabs (y - x + 0)) tolerance) eqn:H2; try done.
  - apply Qle_bool_iff in H1. rewrite Habs in H1.
    apply Qle_bool_iff in H1. congruence.
  - apply Qle_bool_iff in H2. rewrite <- Habs in H2.
    apply Qle_bool_iff in H2. congruence.
Qed.

(** The candidate pairs of (B, A) are those of (A, B) with the two
    indices exchanged. *)
Lemma get_matching_pairs_swap (spec1 spec2 : array2) (tolerance : Q)
  (a b : nat) (w : Q) :
  (a, b, w) ∈ get_matching_pairs spec1 spec2 tolerance ->
  exists w', (b, a, w') ∈ get_matching_pairs spec2 spec1 tolerance.
Proof.
  rewrite get_matching_pairs_elem. intros (pa & pb & Ha & Hb & Htol & _).
  exists (snd pb * snd pa)%Q. apply get_matching_pairs_elem.
  exists pb, pa. repeat split; try done.
  apply Qle_bool_iff. rewrite <- within_swap. by apply Qle_bool_iff.
Qed.

Lemma indices_swap (spec1 spec2 : array2) (tolerance : Q) (x : nat) :
  x ∈ a_indices (get_matching_pairs spec2 spec1 tolerance) <->
  x ∈ b_indices (get_matching_pairs spec1 spec2 tolerance).
Proof.
  unfold a_indices, b_indices. rewrite !list_elem_of_fmap. split.
  - intros ([[b a] w] & -> & Hin).
    apply get_matching_pairs_swap in Hin as [w' Hin]. by exists (a, b, w').
  - intros ([[a b] w] & -> & Hin).
    apply get_matching_pairs_swap in Hin as [w' Hin]. by exists (b, a, w').
Qed.

Definition swap (ab : nat * nat) : nat * nat := (snd ab, fst ab).

Lemma is_matching_swap (spec1 spec2 : array2) (tolerance : Q)
  (M : list (nat * nat)) :
  is_matching (get_matching_pairs spec1 spec2 tolerance) M ->
  is_matching (get_matching_pairs spec2 spec1 tolerance) (map swap M) /\
  (matching_weight (get_matching_pairs spec2 spec1 tolerance) (map swap M)
   == matching_weight (get_matching_pairs spec1 spec2 tolerance) M)%Q.
Proof.
  intros (HndA & HndB & HA & HB & Hlen).
  assert (Hf : map fst (map swap M) = map snd M) by by rewrite map_map.
  assert (Hs : map snd (map swap M) = map fst M) by by rewrite map_map.
  split.
  - split; [by rewrite Hf|]. split; [by rewrite Hs|].
    split; [|split].
    + rewrite Hf. eapply Forall_impl; [exact HB|]. intros b Hb.
      by apply indices_swap.
    + rewrite Hs. eapply Forall_impl; [exact HA|]. intros a Ha.
      unfold a_indices, b_indices in *. apply (indices_swap spec2 spec1).
      exact Ha.
    + rewrite length_map, Hlen.
      rewrite (distinct_ext _ _ (indices_swap spec1 spec2 tolerance)).
      rewrite <- (distinct_ext _ _ (indices_swap spec2 spec1 tolerance)).
      apply Nat.min_comm.
  - unfold matching_weight. rewrite map_map. apply Qsum_eq.
    apply Forall_forall. intros [a b] Hab. cbn [swap fst snd].
    rewrite Forall_forall in HA, HB.
    assert (Ha : a ∈ map fst M)
      by (apply list_elem_of_fmap; by exists (a, b)).
    assert (Hb : b ∈ map snd M)
      by (apply list_elem_of_fmap; by exists (a, b)).
    apply HA, a_indices_range in Ha as [pa Ha].
    apply HB, b_indices_range in Hb as [pb Hb].
    rewrite (cell_weight_matcher spec2 spec1 tolerance b a pb pa Hb Ha).
    rewrite (cell_weight_matcher spec1 spec2 tolerance a b pa pb Ha Hb).
    rewrite (within_swap (fst pa) (fst pb)).
    destruct (Qle_bool (Qabs (fst pb - fst pa + 0)) tolerance); [ring|reflexivity].
Qed.

(** X18.  The score is symmetric: for two spectra that pass the input
    checks, scoring (A, B) and scoring (B, A) return the same number of
    matches and, in exact arithmetic, the same score. *)
Theorem cosine_hungarian_symmetric (tolerance : Q)
  (spectrum1 spectrum2 : array2) :
  spectrum1 <> [] -> spectrum2 <> [] ->
  Forall (fun p => (snd p <= 1)%Q) spectrum1 ->
  Forall (fun p => (snd p <= 1)%Q) spectrum2 ->
  exists score score' n,
    cosine_hungarian tolerance spectrum1 spectrum2 = Ok (score, n) /\
    cosine_hungarian tolerance spectrum2 spectrum1 = Ok (score', n) /\
    same_float score score'.
Proof.
  intros H1 H2 Hn1 Hn2. unfold cosine_hungarian.
  rewrite (get_peaks_arrays_ok _ _ H1 H2 Hn1 Hn2).
  rewrite (get_peaks_arrays_ok _ _ H2 H1 Hn2 Hn1). cbn [rbind fst snd].
  set (pairs := get_matching_pairs spectrum1 spectrum2 tolerance).
  set (pairs' := get_matching_pairs spectrum2 spectrum1 tolerance).
  unfold calc_score.
  destruct pairs as [|[[a b] w] rest] eqn:Hpairs.
  { destruct pairs' as [|[[b a] w] rest'] eqn:Hpairs'.
    - cbn. exists (Finite 0), (Finite 0), 0%nat.
      split; [done|]. split; [done|]. simpl. reflexivity.
    - exfalso.
      assert (Hin : (b, a, w) ∈ get_matching_pairs spectrum2 spectrum1 tolerance)
        by (fold pairs'; rewrite Hpairs'; left).
      apply get_matching_pairs_swap in Hin as [w' Hin].
      fold pairs in Hin. rewrite Hpairs in Hin. by apply elem_of_nil in Hin. }
  destruct pairs' as [|p' rest'] eqn:Hpairs'.
  { exfalso.
    assert (Hin : (a, b, w) ∈ get_matching_pairs spectrum1 spectrum2 tolerance)
      by (fold pairs; rewrite Hpairs; left).
    apply get_matching_pairs_swap in Hin as [w' Hin].
    fold pairs' in Hin. rewrite Hpairs' in Hin. by apply elem_of_nil in Hin. }
  rewrite <- Hpairs, <- Hpairs'.
  replace (0 <? length pairs)%nat with true by (by rewrite Hpairs).
  replace (0 <? length pairs')%nat with true by (by rewrite Hpairs').
  destruct (solve_spec pairs) as (s & Hs & _).
  destruct (solve_spec pairs') as (s' & Hs' & _).
  destruct (solve_matching pairs s Hs) as (Hmatch & Hlen & Htotal).
  destruct (solve_matching pairs' s' Hs') as (Hmatch' & Hlen' & Htotal').
  rewrite Hs, Hs'. cbn [rbind].
  assert (Hcount : length (used_matches s') = length (used_matches s)).
  { destruct Hmatch as (_ & _ & _ & _ & ->).
    destruct Hmatch' as (_ & _ & _ & _ & ->).
    unfold pairs, pairs'.
    rewrite (distinct_ext _ _ (indices_swap spectrum1 spectrum2 tolerance)).
    rewrite <- (distinct_ext _ _ (indices_swap spectrum2 spectrum1 tolerance)).
    apply Nat.min_comm. }
  rewrite Hcount. eexists _, _, _. split; [reflexivity|]. split; [reflexivity|].
  apply np_divide_proper; [|apply py_max2_swap].
  assert (Hg : (total_gain s == matching_weight pairs (used_matches s))%Q).
  { unfold total_gain. rewrite <- Hlen, Htotal. apply matching_cost_weight. }
  assert (Hg' : (total_gain s' == matching_weight pairs' (used_matches s'))%Q).
  { unfold total_gain. rewrite <- Hlen', Htotal'. apply matching_cost_weight. }
  destruct (is_matching_swap spectrum1 spectrum2 tolerance _ Hmatch)
    as [Hsw Hweq].
  destruct (is_matching_swap spectrum2 spectrum1 tolerance _ Hmatch')
    as [Hsw' Hweq'].
  fold pairs pairs' in Hsw, Hweq, Hsw', Hweq'.
  pose proof (solve_greatest_weight pairs' s' _ Hs' Hsw) as Hle'.
  pose proof (solve_greatest_weight pairs s _ Hs Hsw') as Hle.
  lra.
Qed.

Lemma sum_squares_zero (spec : array2) :
  (sum_squares spec == 0)%Q -> Forall (fun p => snd p == 0)%Q spec.
Proof.
  unfold sum_squares. induction spec as [|p spec IH]; simpl; [constructor|].
  intros Hsum.
  pose proof (Qsquare_nonneg (snd p)) as Hp.
  pose proof (sum_squares_nonneg spec) as Hrest. unfold sum_squares in Hrest.
  constructor.
  - assert (Hz : (snd p * snd p == 0)%Q) by lra.
    by destruct (Qmult_integral _ _ Hz).
  - apply IH. lra.
Qed.

(** X19.  For inputs that pass the checks the score is never above 1 and
    never infinite, whatever the signs of the intensities: it is a number
    at most 1, or the [nan] of 0/0 when every intensity of both spectra
    is zero. *)
Theorem cosine_hungarian_at_most_one (tolerance : Q)
  (spectrum1 spectrum2 : array2) :
  spectrum1 <> [] -> spectrum2 <> [] ->
  Forall (fun p => (snd p <= 1)%Q) spectrum1 ->
  Forall (fun p => (snd p <= 1)%Q) spectrum2 ->
  exists score n,
    cosine_hungarian tolerance spectrum1 spectrum2 = Ok (score, n) /\
    match score with
    | Finite q => (q <= 1)%Q
    | NaN => (sum_squares spectrum1 == 0)%Q /\ (sum_squares spectrum2 == 0)%Q
    | Inf _ => False
    end.
Proof.
  intros H1 H2 Hn1 Hn2. unfold cosine_hungarian.
  rewrite (get_peaks_arrays_ok _ _ H1 H2 Hn1 Hn2). cbn [rbind fst snd].
  set (pairs := get_matching_pairs spectrum1 spectrum2 tolerance).
  unfold calc_score. destruct (0 <? length pairs)%nat.
  2:{ eexists _, _. split; [reflexivity|]. simpl. lra. }
  destruct (solve_spec pairs) as (s & Hs & _).
  destruct (solve_matching pairs s Hs) as (Hmatch & Hlen & Htotal).
  rewrite Hs. cbn [rbind]. eexists _, _. split; [reflexivity|].
  assert (Hgain : (total_gain s == matching_weight pairs (used_matches s))%Q).
  { unfold total_gain. rewrite <- Hlen, Htotal. apply matching_cost_weight. }
  destruct (matching_weight_bounds spectrum1 spectrum2 tolerance _ Hmatch)
    as [Hupper _]. fold pairs in Hupper.
  set (D := py_max2 (sum_squares spectrum1) (sum_squares spectrum2)) in *.
  destruct (py_max2_spec (sum_squares spectrum1) (sum_squares spectrum2))
    as (Hm1 & Hm2 & _). fold D in Hm1, Hm2.
  pose proof (sum_squares_nonneg spectrum1) as Hs1.
  pose proof (sum_squares_nonneg spectrum2) as Hs2.
  unfold np_divide. destruct (Qeq_bool D 0) eqn:HD.
  - apply Qeq_bool_iff in HD.
    assert (Hz1 : (sum_squares spectrum1 == 0)%Q) by lra.
    assert (Hz2 : (sum_squares spectrum2 == 0)%Q) by lra.
    assert (Hw : (matching_weight pairs (used_matches s) == 0)%Q).
    { unfold matching_weight.
      rewrite (Qsum_eq _ (fun _ => 0 * 0)%Q).
      - rewrite (Qsum_scale 0 (fun _ => 0%Q)). ring.
      - apply Forall_forall. intros [a b] _. cbn [fst snd].
        destruct (cell_weight_cases pairs a b)
          as [(_ & -> & _)|(w & Hin & -> & _)]; [ring|].
        apply get_matching_pairs_elem in Hin as (pa & pb & Ha & _ & _ & ->).
        apply sum_squares_zero in Hz1. rewrite Forall_forall in Hz1.
        rewrite (Hz1 pa) by (by eapply list_elem_of_lookup_2). ring. }
    assert (Hg0 : (total_gain s == 0)%Q) by lra.
    apply Qeq_bool_iff in Hg0. rewrite Hg0. done.
  - apply Qeq_bool_neq in HD.
    assert (HDpos : (0 < D)%Q).
    { apply Qnot_le_lt. intros Hle. apply HD. lra. }
    apply Qle_shift_div_r; [done|]. lra.
Qed.

End ScorerMore.

(** C2, as stated, fails for spectra that do not pass the input checks:
    an empty spectrum 1 has no candidate pair with any spectrum, yet the
    scorer does not return (0.0, 0); it raises. *)
Lemma cosine_hungarian_score_unchecked :
  ~ (forall (tolerance : Q) (spectrum1 spectrum2 : array2),
       get_matching_pairs spectrum1 spectrum2 tolerance = [] ->
       cosine_hungarian tolerance spectrum1 spectrum2 = Ok (Finite 0, 0%nat)).
Proof.
  intros Hclaim.
  assert (Hnone : get_matching_pairs [] one_peak (1 # 10) = [])
    by reflexivity.
  specialize (Hclaim (1 # 10) [] one_peak Hnone).
  discriminate Hclaim.
Qed.

Lemma cosine_hungarian_score_witness :
  spectrum_a <> [] /\ spectrum_b <> [] /\
  Forall (fun p => (snd p <= 1)%Q) spectrum_a /\
  Forall (fun p => (snd p <= 1)%Q) spectrum_b /\
  get_matching_pairs spectrum_a spectrum_b 1 <> [] /\
  cosine_hungarian 1 spectrum_a spectrum_b = Ok (Finite (100 # 101), 2%nat) /\
  exists s,
    solve (get_matching_pairs spectrum_a spectrum_b 1) = Ok s /\
    cosine_hungarian 1 spectrum_a spectrum_b
    = Ok (np_divide (total_gain s)
                    (py_max2 (sum_squares spectrum_a) (sum_squares spectrum_b)),
          length (used_matches s)) /\
    total_gain s
    = (inject_Z (Z.of_nat (length (used_matches s))) - total_cost s)%Q /\
    total_cost s
    = matching_cost (get_matching_pairs spectrum_a spectrum_b 1)
                    (used_matches s) /\
    (total_gain s
     == matching_weight (get_matching_pairs spectrum_a spectrum_b 1)
                        (used_matches s))%Q /\
    is_matching (get_matching_pairs spectrum_a spectrum_b 1) (used_matches s) /\
    (forall M,
       is_matching (get_matching_pairs spectrum_a spectrum_b 1) M ->
       (matching_weight (get_matching_pairs spectrum_a spectrum_b 1) M
        <= matching_weight (get_matching_pairs spectrum_a spectrum_b 1)
                           (used_matches s))%Q) /\
    (forall a b pa pb,
       spectrum_a !! a = Some pa -> spectrum_b !! b = Some pb ->
       cell_weight (get_matching_pairs spectrum_a spectrum_b 1) a b
       = if Qle_bool (Qabs (fst pb - fst pa + 0)) 1
         then (snd pa * snd pb)%Q else 0%Q).
Proof.
  assert (H1 : spectrum_a <> []) by discriminate.
  assert (H2 : spectrum_b <> []) by discriminate.
  assert (Hn1 : Forall (fun p => (snd p <= 1)%Q) spectrum_a)
    by (repeat constructor; vm_compute; discriminate).
  assert (Hn2 : Forall (fun p => (snd p <= 1)%Q) spectrum_b)
    by (repeat constructor; vm_compute; discriminate).
  assert (Hne : get_matching_pairs spectrum_a spectrum_b 1 <> [])
    by (vm_compute; discriminate).
  assert (Hval : cosine_hungarian 1 spectrum_a spectrum_b
                 = Ok (Finite (100 # 101), 2%nat))
    by (vm_compute; reflexivity).
  do 6 (split; [assumption|]).
  exact (proj2 (cosine_hungarian_score 1 spectrum_a spectrum_b H1 H2 Hn1 Hn2)
               Hne).
Defined.

(** *** The further properties at concrete spectra *)

(** Spectrum 1 holds an intensity above 1. *)
Definition spectrum_loud : array2 := [(100 # 1, 2 # 1)].

Lemma cosine_hungarian_checks_witness :
  spectrum_loud <> [] /\ one_peak <> [] /\
  cosine_hungarian (1 # 10) spectrum_loud one_peak
  = if negb (normalized spectrum_loud)
    then Raise (AssertionError spectrum1_not_normalized)
    else if negb (normalized one_peak)
         then Raise (AssertionError spectrum2_not_normalized)
         else calc_score spectrum_loud one_peak
                (get_matching_pairs spectrum_loud one_peak (1 # 10)).
Proof.
  assert (H1 : spectrum_loud <> []) by discriminate.
  assert (H2 : one_peak <> []) by discriminate.
  do 2 (split; [assumption|]).
  exact (cosine_hungarian_checks (1 # 10) spectrum_loud one_peak H1 H2).
Defined.

Example cosine_hungarian_loud :
  cosine_hungarian (1 # 10) spectrum_loud one_peak
  = Raise (AssertionError spectrum1_not_normalized) /\
  cosine_hungarian (1 # 10) one_peak spectrum_loud
  = Raise (AssertionError spectrum2_not_normalized).
Proof. split; reflexivity. Qed.

Lemma cosine_hungarian_match_count_witness :
  spectrum_a <> [] /\ spectrum_b <> [] /\
  Forall (fun p => (snd p <= 1)%Q) spectrum_a /\
  Forall (fun p => (snd p <= 1)%Q) spectrum_b /\
  exists score n,
    cosine_hungarian 1 spectrum_a spectrum_b = Ok (score, n) /\
    n = Nat.min
          (distinct (a_indices (get_matching_pairs spectrum_a spectrum_b 1)))
          (distinct (b_indices (get_matching_pairs spectrum_a spectrum_b 1))) /\
    (n <= Nat.min (length spectrum_a) (length spectrum_b))%nat.
Proof.
  assert (H1 : spectrum_a <> []) by discriminate.
  assert (H2 : spectrum_b <> []) by discriminate.
  assert (Hn1 : Forall (fun p => (snd p <= 1)%Q) spectrum_a)
    by (repeat constructor; vm_compute; discriminate).
  assert (Hn2 : Forall (fun p => (snd p <= 1)%Q) spectrum_b)
    by (repeat constructor; vm_compute; discriminate).
  do 4 (split; [assumption|]).
  exact (cosine_hungarian_match_count 1 spectrum_a spectrum_b H1 H2 Hn1 Hn2).
Defined.

(** The peaks of the two spectra are 100 apart. *)
Definition spectrum_far : array2 := [(200 # 1, 1 # 1)].

Lemma cosine_hungarian_no_match_witness :
  one_peak <> [] /\ spectrum_far <> [] /\
  Forall (fun p => (snd p <= 1)%Q) one_peak /\
  Forall (fun p => (snd p <= 1)%Q) spectrum_far /\
  (forall pa pb, pa ∈ one_peak -> pb ∈ spectrum_far ->
                 (1 # 10 < Qabs (fst pb - fst pa + 0))%Q) /\
  cosine_hungarian (1 # 10) one_peak spectrum_far = Ok (Finite 0, 0%nat).
Proof.
  assert (H1 : one_peak <> []) by discriminate.
  assert (H2 : spectrum_far <> []) by discriminate.
  assert (Hn1 : Forall (fun p => (snd p <= 1)%Q) one_peak)
    by (repeat constructor; vm_compute; discriminate).
  assert (Hn2 : Forall (fun p => (snd p <= 1)%Q) spectrum_far)
    by (repeat constructor; vm_compute; discriminate).
  assert (Hfar : forall pa pb, pa ∈ one_peak -> pb ∈ spectrum_far ->
                   (1 # 10 < Qabs (fst pb - fst pa + 0))%Q).
  { intros pa pb Ha Hb.
    apply list_elem_of_singleton in Ha as ->.
    apply list_elem_of_singleton in Hb as ->. reflexivity. }
  do 5 (split; [assumption|]).
  exact (cosine_hungarian_no_match (1 # 10) one_peak spectrum_far
           H1 H2 Hn1 Hn2 Hfar).
Defined.

Lemma cosine_hungarian_self_witness :
  spectrum_a <> [] /\
  Forall (fun p => (snd p <= 1)%Q) spectrum_a /\
  (0 <= 1 # 10)%Q /\
  ~ (sum_squares spectrum_a == 0)%Q /\
  exists q,
    cosine_hungarian (1 # 10) spectrum_a spectrum_a
    = Ok (Finite q, length spectrum_a) /\ (q == 1)%Q.
Proof.
  assert (H1 : spectrum_a <> []) by discriminate.
  assert (Hn1 : Forall (fun p => (snd p <= 1)%Q) spectrum_a)
    by (repeat constructor; vm_compute; discriminate).
  assert (Htol : (0 <= 1 # 10)%Q) by (vm_compute; discriminate).
  assert (Hnz : ~ (sum_squares spectrum_a == 0)%Q)
    by (vm_compute; discriminate).
  do 4 (split; [assumption|]).
  exact (cosine_hungarian_self (1 # 10) spectrum_a H1 Hn1 Htol Hnz).
Defined.

Lemma cosine_hungarian_symmetric_witness :
  spectrum_a <> [] /\ spectrum_b <> [] /\
  Forall (fun p => (snd p <= 1)%Q) spectrum_a /\
  Forall (fun p => (snd p <= 1)%Q) spectrum_b /\
  exists score score' n,
    cosine_hungarian 1 spectrum_a spectrum_b = Ok (score, n) /\
    cosine_hungarian 1 spectrum_b spectrum_a = Ok (score', n) /\
    same_float score score'.
Proof.
  assert (H1 : spectrum_a <> []) by discriminate.
  assert (H2 : spectrum_b <> []) by discriminate.
  assert (Hn1 : Forall (fun p => (snd p <= 1)%Q) spectrum_a)
    by (repeat constructor; vm_compute; discriminate).
  assert (Hn2 : Forall (fun p => (snd p <= 1)%Q) spectrum_b)
    by (repeat constructor; vm_compute; discriminate).
  do 4 (split; [assumption|]).
  exact (cosine_hungarian_symmetric 1 spectrum_a spectrum_b H1 H2 Hn1 Hn2).
Defined.

Example cosine_hungarian_swapped :
  cosine_hungarian 1 spectrum_b spectrum_a = Ok (Finite (100 # 101), 2%nat).
Proof. vm_compute. reflexivity. Qed.

Lemma cosine_hungarian_at_most_one_witness :
  spectrum_a <> [] /\ spectrum_b <> [] /\
  Forall (fun p => (snd p <= 1)%Q) spectrum_a /\
  Forall (fun p => (snd p <= 1)%Q) spectrum_b /\
  exists score n,
    cosine_hungarian 1 spectrum_a spectrum_b = Ok (score, n) /\
    match score with
    | Finite q => (q <= 1)%Q
    | NaN => (sum_squares spectrum_a == 0)%Q /\ (sum_squares spectrum_b == 0)%Q
    | Inf _ => False
    end.
Proof.
  assert (H1 : spectrum_a <> []) by discriminate.
  assert (H2 : spectrum_b <> []) by discriminate.
  assert (Hn1 : Forall (fun p => (snd p <= 1)%Q) spectrum_a)
    by (repeat constructor; vm_compute; discriminate).
  assert (Hn2 : Forall (fun p => (snd p <= 1)%Q) spectrum_b)
    by (repeat constructor; vm_compute; discriminate).
  do 4 (split; [assumption|]).
  exact (cosine_hungarian_at_most_one 1 spectrum_a spectrum_b H1 H2 Hn1 Hn2).
Defined.

End CosineProps.
